(** * MAKER-Code: decomposition, clustering and first-to-ahead-by-k voting

    A shallow embedding of the voting pipeline of the MAKER command line
    tool (CodeClusterer.js, ResponseValidator.js, VotingManager.js,
    TaskDecomposer.js and MicroagentExecutor.js) together with the
    properties its specification states about it, and with further
    properties read off the code.

    Conventions.
    - JavaScript integers (ids, counts, votes, k) are [Z] or [nat].
    - JavaScript doubles that the code only adds, divides and compares
      (similarity scores, confidences) are exact rationals [Q]; the
      clusterer is moreover parametric in the score type, so that its
      partition property does not depend on how scores behave.  Where the
      code can divide 0 by 0 (the method counts of two classes) a number is
      a rational or NaN.
    - [Set] is [gset], a plain object used as a map is [gmap].
    - [Array.prototype.sort] is a stable sort (ECMAScript 2019).
    - A text scanned character by character is the list of its bytes: the
      brackets are ASCII, and no byte of a longer character is one of them.
    - What lies outside these files is a parameter of the section that uses
      it: regular expressions, the acorn parser, the token counter, the
      completion provider and the file operations. *)

From Stdlib Require Import QArith Qround Qminmax Lqa Ascii.
From stdpp Require Import base gmap sets list strings sorting pretty.

Local Close Scope Q_scope.
Local Open Scope Z_scope.
Local Open Scope nat_scope.

(** ** Array.prototype.sort *)

(** [before a b] stands for [compare(a, b) < 0].  Elements are inserted from
    the right, each one in front of the first element that is not strictly
    before it, which keeps equal elements in their original order.  When the
    comparison is not a consistent ordering (a NaN among the keys) the order
    JavaScript produces is left to the implementation; the result is a
    permutation of the array in every case. *)
Section js_sort.
Context {A : Type} (before : A → A → bool).

Fixpoint sort_insert (x : A) (l : list A) : list A :=
  match l with
  | [] => [x]
  | y :: l' => if before y x then y :: sort_insert x l' else x :: l
  end.

Definition js_sort (l : list A) : list A := foldr sort_insert [] l.
End js_sort.

(** Every element of [l] is related by [R] to the elements after it. *)
Definition ordered_by {A : Type} (R : A → A → Prop) (l : list A) : Prop :=
  ∀ i j x y, l !! i = Some x → l !! j = Some y → i < j → R x y.

(** ** CodeClusterer *)

Module CodeClusterer.

(** [_jaccardSimilarity(set1, set2)] *)
Definition _jaccardSimilarity (set1 set2 : gset string) : Q :=
  if bool_decide (size set1 = 0 ∧ size set2 = 0) then 1%Q
  else
    let intersection : gset string := filter (λ x, x ∈ set2) set1 in
    let union : gset string := set1 ∪ set2 in
    (inject_Z (Z.of_nat (size intersection)) / inject_Z (Z.of_nat (size union)))%Q.

(** The operations [cluster] performs on similarity scores. *)
Class Score (S : Type) := {
  s_zero : S;                 (* 0 *)
  s_one : S;                  (* 1.0 *)
  s_add : S → S → S;          (* a + b *)
  s_divn : S → nat → S;       (* a / n *)
  s_geb : S → S → bool;       (* a >= b *)
  s_ltb : S → S → bool;       (* a - b < 0 *)
}.

Section clusterer.
Context {S : Type} `{Score S}.
(** The result of [extractFeatures] (an acorn syntax tree walk) and the
    score [_compareFeaturesEnhanced] gives to two of them. *)
Context {Features : Type}.
Context (extractFeatures : string → Features).
Context (_compareFeaturesEnhanced : Features → Features → S).

Record Member := {
  code : string;
  index : nat;
  similarity : S;
}.

Record Cluster := {
  representative : string;
  members : list Member;
  size : nat;
  avgSimilarity : S;
}.

(** An entry of the [features] array of [cluster]. *)
Record Entry := {
  e_index : nat;
  e_code : string;
  e_features : Features;
}.

(** An entry of the [candidates] array of [_greedyCluster]. *)
Record Seed := {
  seed_index : nat;
  seed_avgSimilarity : S;
}.

(** [_buildSimilarityMatrix(features)]: the diagonal is 1.0, the score of
    a pair [i < j] is computed once and stored at [i][j] and [j][i]. *)
Definition _buildSimilarityMatrix (features : list Entry) : list (list S) :=
  imap (λ i fi,
    imap (λ j fj,
      if decide (i = j) then s_one
      else if decide (i < j)
           then _compareFeaturesEnhanced (e_features fi) (e_features fj)
           else _compareFeaturesEnhanced (e_features fj) (e_features fi))
      features)
    features.

Definition sum_scores (l : list S) : S := foldl s_add s_zero l.

(** [similarityMatrix[i]] *)
Definition row (similarityMatrix : list (list S)) (i : nat) : list S :=
  default [] (similarityMatrix !! i).

(** [features[i].code] *)
Definition code_at (features : list Entry) (i : nat) : string :=
  from_option e_code "" (features !! i).

(** The state of the inner loop of [_greedyCluster]: the members and size
    of the cluster under construction and the [assigned] set. *)
Definition absorb (features : list Entry) (simrow : list S) (threshold : S)
    (st : list Member * nat * gset nat) (i : nat) : list Member * nat * gset nat :=
  let '(ms, sz, assigned) := st in
  if decide (i ∈ assigned) then st
  else match simrow !! i with
       | Some similarity =>
           if s_geb similarity threshold
           then (ms ++ [ {| code := code_at features i; index := i;
                            similarity := similarity |} ],
                 Datatypes.S sz, {[ i ]} ∪ assigned)
           else st
       | None => st
       end.

(** One iteration of the outer loop of [_greedyCluster]. *)
Definition grow (features : list Entry) (similarityMatrix : list (list S))
    (threshold : S) (st : list Cluster * gset nat) (candidate : Seed)
    : list Cluster * gset nat :=
  let '(clusters, assigned) := st in
  if decide (seed_index candidate ∈ assigned) then st
  else
    let n := length features in
    let first := {| code := code_at features (seed_index candidate);
                    index := seed_index candidate;
                    similarity := s_one |} in
    let '(ms, sz, assigned') :=
      foldl (absorb features (row similarityMatrix (seed_index candidate)) threshold)
            ([first], 1, {[ seed_index candidate ]} ∪ assigned) (seq 0 n) in
    (clusters ++ [ {| representative := code_at features (seed_index candidate);
                      members := ms;
                      size := sz;
                      avgSimilarity :=
                        s_divn (foldl (λ sum m, s_add sum (similarity m)) s_zero ms) sz |} ],
     assigned').

(** [_greedyCluster(features, similarityMatrix, threshold)] *)
Definition _greedyCluster (features : list Entry) (similarityMatrix : list (list S))
    (threshold : S) : list Cluster :=
  let n := length features in
  let candidates :=
    js_sort (λ a b, s_ltb (seed_avgSimilarity b) (seed_avgSimilarity a))
      (imap (λ i _, {| seed_index := i;
                       seed_avgSimilarity :=
                         s_divn (sum_scores (row similarityMatrix i)) n |}) features) in
  let clusters := (foldl (grow features similarityMatrix threshold) ([], ∅) candidates).1 in
  js_sort (λ a b, size b <? size a) clusters.

(** [cluster(responses, similarityThreshold)] *)
Definition cluster (responses : list string) (similarityThreshold : S) : list Cluster :=
  match responses with
  | [] => []
  | [r] => [ {| representative := r;
                members := [ {| code := r; index := 0; similarity := s_one |} ];
                size := 1;
                avgSimilarity := s_one |} ]
  | _ =>
      let features :=
        imap (λ index code, {| e_index := index; e_code := code;
                               e_features := extractFeatures code |}) responses in
      let similarityMatrix := _buildSimilarityMatrix features in
      _greedyCluster features similarityMatrix similarityThreshold
  end.

(** The response indices a list of clusters holds, cluster by cluster. *)
Definition member_indices (clusters : list Cluster) : list nat :=
  clusters ≫= (λ c, index <$> members c).

(** The invariant of the inner loop of [_greedyCluster], for the set
    [assigned0] of indices assigned before the cluster was started. *)
Definition absorbing (n : nat) (assigned0 : gset nat)
    (st : list Member * nat * gset nat) : Prop :=
  let '(ms, sz, assigned) := st in
  sz = length ms
  ∧ NoDup (index <$> ms)
  ∧ (∀ i, i ∈ assigned ↔ i ∈ assigned0 ∨ i ∈ (index <$> ms))
  ∧ (∀ i, i ∈ (index <$> ms) → (i ∉ assigned0) ∧ i < n).

(** The invariant of the outer loop. *)
Definition clustered (n : nat) (st : list Cluster * gset nat) : Prop :=
  Forall (λ c, size c = length (members c)) st.1
  ∧ NoDup (member_indices st.1)
  ∧ (∀ i, i ∈ st.2 ↔ i ∈ member_indices st.1)
  ∧ (∀ i, i ∈ member_indices st.1 → i < n).

(** A cluster as [_greedyCluster] builds it: its first member is the
    representative, with similarity 1.0; every other member was absorbed
    because its entry in the representative's row of the matrix reached the
    threshold; every member carries the code found at its index. *)
Definition seeded (features : list Entry) (similarityMatrix : list (list S))
    (threshold : S) (representative : string) (ms : list Member) : Prop :=
  ∃ first rest,
    ms = first :: rest
    ∧ representative = code first
    ∧ similarity first = s_one
    ∧ Forall (λ m, code m = code_at features (index m)) ms
    ∧ Forall (λ m, row similarityMatrix (index first) !! index m = Some (similarity m)
                   ∧ s_geb (similarity m) threshold = true) rest.
End clusterer.

Arguments Member : clear implicits.
Arguments Cluster : clear implicits.
Arguments Entry : clear implicits.
Arguments Seed : clear implicits.

(** Scores as exact rationals. *)
#[export] Instance Q_score : Score Q := {|
  s_zero := 0%Q;
  s_one := 1%Q;
  s_add := Qplus;
  s_divn := λ a n, (a / inject_Z (Z.of_nat n))%Q;
  s_geb := λ a b, Qle_bool b a;
  s_ltb := λ a b, negb (Qle_bool b a);
|}.

(** [getBestCluster(clusters)]: the clusters sorted by the product of size
    and average similarity, largest first, and the first of them. *)
Definition cluster_score (c : Cluster Q) : Q :=
  (inject_Z (Z.of_nat (size c)) * avgSimilarity c)%Q.

Definition getBestCluster (clusters : list (Cluster Q)) : option (Cluster Q) :=
  if decide (length clusters = 0) then None
  else head (js_sort (λ a b, negb (Qle_bool (cluster_score a) (cluster_score b)))
                     clusters).

(** *** The similarity of two feature records *)

Module Similarity.

(** The numbers of the similarity computation: a rational or NaN (no
    division below has a divisor 0 with a dividend other than 0). *)
Inductive Number :=
  | Num (q : Q)
  | NaN.

Definition n_add (a b : Number) : Number :=
  match a, b with Num x, Num y => Num (x + y) | _, _ => NaN end.

Definition n_mul (a b : Number) : Number :=
  match a, b with Num x, Num y => Num (x * y) | _, _ => NaN end.

(** [a / n] for a count [n] that is not 0. *)
Definition n_divn (a : Number) (n : nat) : Number :=
  match a with Num x => Num (x / inject_Z (Z.of_nat n)) | NaN => NaN end.

(** [Math.max(a, b)]: NaN when either argument is. *)
Definition n_max (a b : Number) : Number :=
  match a, b with Num x, Num y => Num (Qmax x y) | _, _ => NaN end.

(** [Math.min(v1, v2) / Math.max(v1, v2)] on two counts: 0 / 0 is NaN. *)
Definition min_over_max (v1 v2 : nat) : Number :=
  if decide ((v1 `max` v2) = 0) then NaN
  else Num (inject_Z (Z.of_nat (v1 `min` v2)) / inject_Z (Z.of_nat (v1 `max` v2))).

#[export] Instance Number_score : Score Number := {|
  s_zero := Num 0;
  s_one := Num 1;
  s_add := n_add;
  s_divn := n_divn;
  s_geb := λ a b, match a, b with Num x, Num y => Qle_bool y x | _, _ => false end;
  s_ltb := λ a b, match a, b with Num x, Num y => negb (Qle_bool y x) | _, _ => false end;
|}.

(** What [extractFeatures] keeps of a function and of the counts. *)
Record FunctionSig := {
  params : nat;
  async : bool;
}.

Record Structure := {
  functionCount : nat;
  classCount : nat;
  importCount : nat;
  exportCount : nat;
  variableCount : nat;
}.

(** The features that the comparison reads: a class is its number of
    methods, an import its source. *)
Record Features := {
  syntaxValid : bool;
  functions : list FunctionSig;
  classes : list nat;
  imports : list string;
  tokens : gset string;
  structure : Structure;
}.

(** [_structuralSimilarity(s1, s2)] *)
Definition _structuralSimilarity (s1 s2 : Structure) : Number :=
  let keys := [functionCount; classCount; importCount; exportCount; variableCount] in
  n_divn
    (foldl (λ similarity key,
              let v1 := key s1 in
              let v2 := key s2 in
              if decide (v1 = 0 ∧ v2 = 0) then n_add similarity (Num 1)
              else n_add similarity (min_over_max v1 v2))
           (Num 0) keys)
    (length keys).

(** The loops of [_functionSimilarity]: the first function of [funcs2]
    not used yet that has the parameter count and the [async] flag of
    [f1]. *)
Definition match_function (funcs2 : list FunctionSig) (st : nat * gset nat)
    (f1 : FunctionSig) : nat * gset nat :=
  match list_find (λ entry, (fst entry ∉ snd st)
                            ∧ params f1 = params (snd entry)
                            ∧ async f1 = async (snd entry))
                  (imap pair funcs2) with
  | Some (_, (i, _)) => (Datatypes.S st.1, {[ i ]} ∪ st.2)
  | None => st
  end.

(** [_functionSimilarity(funcs1, funcs2)] *)
Definition _functionSimilarity (funcs1 funcs2 : list FunctionSig) : Number :=
  if decide (length funcs1 = 0 ∧ length funcs2 = 0) then Num 1
  else if decide (length funcs1 = 0 ∨ length funcs2 = 0) then Num 0
  else
    let matches := (foldl (match_function funcs2) (0, ∅) funcs1).1 in
    Num (inject_Z (Z.of_nat matches)
         / inject_Z (Z.of_nat (length funcs1 `max` length funcs2))).

(** [_classSimilarity(classes1, classes2)] *)
Definition _classSimilarity (classes1 classes2 : list nat) : Number :=
  if decide (length classes1 = 0 ∧ length classes2 = 0) then Num 1
  else if decide (length classes1 = 0 ∨ length classes2 = 0) then Num 0
  else
    let similarity :=
      foldl (λ similarity c1,
               foldl (λ similarity c2, n_max similarity (min_over_max c1 c2))
                     similarity classes2)
            (Num 0) classes1 in
    n_divn similarity (length classes1 `max` length classes2).

(** [_importSimilarity(imports1, imports2)] *)
Definition _importSimilarity (imports1 imports2 : list string) : Number :=
  if decide (length imports1 = 0 ∧ length imports2 = 0) then Num 1
  else if decide (length imports1 = 0 ∨ length imports2 = 0) then Num 0
  else Num (_jaccardSimilarity (list_to_set imports1) (list_to_set imports2)).

(** [_compareFeaturesEnhanced(f1, f2)] *)
Definition _compareFeaturesEnhanced (f1 f2 : Features) : Number :=
  if negb (syntaxValid f1) && negb (syntaxValid f2) then
    Num (_jaccardSimilarity (tokens f1) (tokens f2))
  else if negb (eqb (syntaxValid f1) (syntaxValid f2)) then
    n_mul (Num 0.1) (Num (_jaccardSimilarity (tokens f1) (tokens f2)))
  else
    let totalSimilarity := Num 0 in
    let structSim := _structuralSimilarity (structure f1) (structure f2) in
    let totalSimilarity := n_add totalSimilarity (n_mul (Num 0.3) structSim) in
    let funcSim := _functionSimilarity (functions f1) (functions f2) in
    let totalSimilarity := n_add totalSimilarity (n_mul (Num 0.25) funcSim) in
    let tokenSim := Num (_jaccardSimilarity (tokens f1) (tokens f2)) in
    let totalSimilarity := n_add totalSimilarity (n_mul (Num 0.2) tokenSim) in
    let classSim := _classSimilarity (classes f1) (classes f2) in
    let totalSimilarity := n_add totalSimilarity (n_mul (Num 0.15) classSim) in
    let importSim := _importSimilarity (imports f1) (imports f2) in
    let totalSimilarity := n_add totalSimilarity (n_mul (Num 0.1) importSim) in
    totalSimilarity.

Section calculateSimilarity.
Context (extractFeatures : string → Features).

(** [calculateSimilarity(code1, code2)] *)
Definition calculateSimilarity (code1 code2 : string) : Number :=
  if decide (code1 = code2) then Num 1
  else _compareFeaturesEnhanced (extractFeatures code1) (extractFeatures code2).
End calculateSimilarity.

End Similarity.

End CodeClusterer.

(** ** ResponseValidator *)

Module ResponseValidator.

Inductive Severity := critical | high | medium | low.

Record Flag := {
  flag_type : string;
  severity : Severity;
  message : string;
}.

Record ValidationResult := {
  valid : bool;
  flags : list Flag;
  confidence : Q;
}.

Definition is_critical (f : Flag) : bool :=
  match severity f with critical => true | _ => false end.

(** [_calculateConfidence(flags)] *)
Definition _calculateConfidence (flags : list Flag) : Q :=
  if decide (length flags = 0) then 1%Q
  else
    let penalty :=
      foldl (λ penalty flag,
               match severity flag with
               | critical => penalty + 1
               | high => penalty + 0.3
               | medium => penalty + 0.1
               | low => penalty + 0.05
               end)%Q 0%Q flags in
    Qmax 0 (1 - penalty).

Section validate.
(** [String.prototype.trim], and the flags of checks 2 to 6 (pattern
    matching, token counting and parsing). *)
Context (trim : string → string).
Context (checks : string → list Flag).

(** [validate(code, task)] *)
Definition validate (code : string) : ValidationResult :=
  if bool_decide (code = "" ∨ String.length (trim code) = 0) then
    {| valid := false;
       flags := [ {| flag_type := "empty_response"; severity := critical;
                     message := "Response is empty or whitespace-only" |} ];
       confidence := 0 |}
  else
    let flags := checks code in
    {| valid := negb (existsb is_critical flags);
       flags := flags;
       confidence := _calculateConfidence flags |}.
End validate.

(** *** The checks of [validate] *)

(** [_checkBalancedBrackets(code)]: what the scan returns. *)
Inductive Brackets :=
  | balanced
  | unexpected (char : ascii)      (* a closer without its opener *)
  | unclosed (last : ascii).       (* an opener left on the stack *)

(** [pairs[c]] for an opening bracket [c]. *)
Definition pairs (c : ascii) : option ascii :=
  if decide (c = "("%char) then Some ")"%char
  else if decide (c = "["%char) then Some "]"%char
  else if decide (c = "{"%char) then Some "}"%char
  else None.

Definition is_closing (c : ascii) : bool :=
  bool_decide (c = ")"%char ∨ c = "]"%char ∨ c = "}"%char).

(** The loop of [_checkBalancedBrackets] and the test that follows it; the
    top of the stack is the head of the list. *)
Fixpoint scan_brackets (stack : list ascii) (code : list ascii) : Brackets :=
  match code with
  | [] => match stack with [] => balanced | last :: _ => unclosed last end
  | char :: code =>
      match pairs char with
      | Some _ => scan_brackets (char :: stack) code
      | None =>
          if is_closing char then
            match stack with
            | last :: stack =>
                if decide (pairs last = Some char) then scan_brackets stack code
                else unexpected char
            | [] => unexpected char
            end
          else scan_brackets stack code
      end
  end.

Definition _checkBalancedBrackets (code : string) : Brackets :=
  scan_brackets [] (String.list_ascii_of_string code).

(** The texts between whose brackets nothing is amiss: no bracket at all, a
    character that is no bracket in front, or a pair of matching brackets
    around one such text and in front of another. *)
Inductive well_bracketed : list ascii → Prop :=
  | wb_nil : well_bracketed []
  | wb_other (c : ascii) (s : list ascii) :
      pairs c = None → is_closing c = false →
      well_bracketed s → well_bracketed (c :: s)
  | wb_pair (o c : ascii) (s1 s2 : list ascii) :
      pairs o = Some c →
      well_bracketed s1 → well_bracketed s2 →
      well_bracketed (o :: s1 ++ c :: s2).

(** What is left to read when the openers of [stack] are waiting for their
    closers. *)
Fixpoint closes (stack : list ascii) (s : list ascii) : Prop :=
  match stack with
  | [] => well_bracketed s
  | o :: stack =>
      ∃ c s1 s2, pairs o = Some c ∧ s = s1 ++ c :: s2
                 ∧ well_bracketed s1 ∧ closes stack s2
  end.

Definition flag (type : string) (sev : Severity) (msg : string) : Flag :=
  {| flag_type := type; severity := sev; message := msg |}.

(** [a || b] on an optional count. *)
Definition or_tokens (a : option nat) (b : nat) : nat :=
  match a with
  | Some 0 | None => b
  | Some v => v
  end.

(** [_checkLength(code, task, options)], on the number of tokens of the
    code. *)
Definition _checkLength (tokenCount : nat) (task_expectedLength : option nat)
    (options_maxTokens options_minTokens : option nat) : list Flag :=
  let maxTokens := or_tokens options_maxTokens 1500 in
  let minTokens := or_tokens options_minTokens 5 in
  let expectedTokens := or_tokens task_expectedLength 200 in
  (if maxTokens <? tokenCount then
     [ flag "too_verbose" high
            ("Response is excessively long (" +:+ pretty tokenCount +:+ " tokens, max "
             +:+ pretty maxTokens +:+ ")") ]
   else if expectedTokens * 2 <? tokenCount then
     [ flag "possibly_verbose" medium
            ("Response is longer than expected (" +:+ pretty tokenCount
             +:+ " tokens, expected ~" +:+ pretty expectedTokens +:+ ")") ]
   else [])
  ++ (if tokenCount <? minTokens then
        [ flag "too_short" high
               ("Response is too short (" +:+ pretty tokenCount +:+ " tokens, min "
                +:+ pretty minTokens +:+ ")") ]
      else []).

(** The fields of [task] and [options] that [validate] reads. *)
Record ValidationTask := {
  task_type : option string;
  expectedFormat : option string;
  expectedLength : option nat;
}.

Record ValidationOptions := {
  maxTokens : option nat;
  minTokens : option nat;
}.

Section checks.
(** Regular expressions, with [RegExp.prototype.test] and [toString]; the
    token counter; the parser, which gives the message of its error when it
    rejects a text. *)
Context {Pattern : Type}.
Context (test : Pattern → string → bool).
Context (show : Pattern → string).
Context (hallucination_patterns incompleteness_patterns codeIndicators : list Pattern).
Context (function_pattern arrow_pattern class_pattern import_pattern export_pattern
         : Pattern).
Context (countTokens : string → nat).
Context (parse_module parse_script : string → option string).
Context (trim : string → string).

(** [_checkHallucinations(code)] *)
Definition _checkHallucinations (code : string) : list Flag :=
  (λ pattern, flag "hallucination_marker" critical
                   ("Contains hallucination pattern: " +:+ show pattern))
    <$> filter (λ pattern, test pattern code = true) hallucination_patterns.

(** [_checkCompleteness(code)] *)
Definition _checkCompleteness (code : string) : list Flag :=
  ((λ pattern, flag "incomplete_response" high
                    ("Response appears incomplete: " +:+ show pattern))
     <$> filter (λ pattern, test pattern code = true) incompleteness_patterns)
  ++ match _checkBalancedBrackets code with
     | balanced => []
     | unexpected char =>
         [ flag "unbalanced_brackets" high
                ("Unbalanced brackets: Unexpected '" +:+ String char ""
                 +:+ "' without matching opening") ]
     | unclosed last =>
         [ flag "unbalanced_brackets" high
                ("Unbalanced brackets: Unclosed '" +:+ String last "" +:+ "'") ]
     end.

(** [_validateSyntax(code, task)] *)
Definition _validateSyntax (code : string) : list Flag :=
  match parse_module code with
  | None => []
  | Some _ =>
      match parse_script code with
      | None => []
      | Some msg => [ flag "syntax_error" critical ("Syntax error: " +:+ msg) ]
      end
  end.

(** [_looksLikeCode(text)] *)
Definition _looksLikeCode (text : string) : bool :=
  existsb (λ pattern, test pattern text) codeIndicators.

(** [_checkFormat(code, expectedFormat)] *)
Definition _checkFormat (code : string) (format : string) : list Flag :=
  if decide (format = "function") then
    if negb (test function_pattern code) && negb (test arrow_pattern code)
    then [ flag "format_mismatch" high "Expected a function definition" ] else []
  else if decide (format = "class") then
    if negb (test class_pattern code)
    then [ flag "format_mismatch" high "Expected a class definition" ] else []
  else if decide (format = "import") then
    if negb (test import_pattern code)
    then [ flag "format_mismatch" high "Expected an import statement" ] else []
  else if decide (format = "export") then
    if negb (test export_pattern code)
    then [ flag "format_mismatch" high "Expected an export statement" ] else []
  else [].

(** Whether step 5 of [validate] runs the parser. *)
Definition checks_syntax (task : ValidationTask) (code : string) : bool :=
  bool_decide (task_type task = Some "code") || _looksLikeCode code.

(** Steps 2 to 6 of [validate]. *)
Definition all_checks (task : ValidationTask) (options : ValidationOptions)
    (code : string) : list Flag :=
  _checkHallucinations code
  ++ _checkCompleteness code
  ++ _checkLength (countTokens code) (expectedLength task)
                  (maxTokens options) (minTokens options)
  ++ (if checks_syntax task code then _validateSyntax code else [])
  ++ match expectedFormat task with
     | Some format => if decide (format = "") then [] else _checkFormat code format
     | None => []
     end.

(** [validate(code, task, options)] with its checks. *)
Definition validate_task (task : ValidationTask) (options : ValidationOptions)
    (code : string) : ValidationResult :=
  validate trim (all_checks task options) code.

(** An entry of the array [validateBatch] returns. *)
Record Validated := {
  v_index : nat;
  v_response : string;
  v_validation : ValidationResult;
}.

(** [validateBatch(responses, task, options)] *)
Definition validateBatch (responses : list string) (task : ValidationTask)
    (options : ValidationOptions) : list Validated :=
  imap (λ index response,
          {| v_index := index; v_response := response;
             v_validation := validate_task task options response |}) responses.

(** [filterValid(responses, task, options)] *)
Definition filterValid (responses : list string) (task : ValidationTask)
    (options : ValidationOptions) : list Validated :=
  filter (λ r, valid (v_validation r) = true) (validateBatch responses task options).
End checks.

End ResponseValidator.

(** ** VotingManager *)

Inductive Outcome (A : Type) :=
  | Return (a : A)
  | Throw (msg : string).
Arguments Return {A} a.
Arguments Throw {A} msg.

(** The value of a call that returned. *)
Definition returned {A : Type} (o : Outcome A) : option A :=
  match o with Return a => Some a | Throw _ => None end.

Module VotingManager.
Import CodeClusterer ResponseValidator.

Definition defaultK : Z := 3.
Definition maxCandidates : nat := 10.
Definition similarityThreshold : Q := 0.7.

(** [a || b] on an optional integer: [undefined] and [0] give [b]. *)
Definition or_default (a : option Z) (b : Z) : Z :=
  match a with
  | Some v => if decide (v = 0%Z) then b else v
  | None => b
  end.

(** [calculateOptimalK(problemSteps, baseReliability = 0.7)], for a step
    count [problemSteps >= 0]: [Math.ceil(Math.log2(n))] of an integer
    [n >= 1] is [Z.log2_up n]. *)
Definition calculateOptimalK (problemSteps : Z) (baseReliability : option Q) : Z :=
  let baseReliability := default 0.7%Q baseReliability in
  let baseK := Z.log2_up (problemSteps + 1) in
  let reliabilityFactor := Qmax 1 (2 * (1 - baseReliability)) in
  let optimalK := Qceiling (inject_Z baseK * reliabilityFactor) in
  Z.max 2 (Z.min 10 optimalK).

Record Candidate := {
  c_index : nat;
  content : string;
  temperature : Q;
  tokens : option nat;
}.

Record VotingStats := {
  totalCandidates : nat;
  validCandidates : nat;
  clusterCount : nat;
  winnerVotes : option nat;
  runnerUpVotes : option nat;
  margin : option Z;
  votesNeeded : Z;
  reliable : bool;
}.

Record VotingResult := {
  winner : string;
  confidence : Q;
  votingStats : VotingStats;
  clusters : option (list (Cluster Q));
  warning : option string;
}.

(** An entry of the [votes] array of [vote]. *)
Record Vote := {
  clusterIndex : nat;
  v_cluster : Cluster Q;
  votes : nat;
  v_representative : string;
}.

(** [_calculateConfidence(winner, runnerUp, k, totalValid)] *)
Definition _calculateConfidence (winner : Vote) (runnerUpVotes : nat) (k : Z)
    (totalValid : nat) : Q :=
  let margin := (Z.of_nat (votes winner) - Z.of_nat runnerUpVotes)%Z in
  let marginConfidence := Qmin 1 (inject_Z margin / inject_Z k) in
  let clusterConfidence := avgSimilarity (v_cluster winner) in
  let sampleConfidence := Qmin 1 (inject_Z (Z.of_nat totalValid) / 5) in
  let confidence :=
    (0.5 * marginConfidence + 0.3 * clusterConfidence + 0.2 * sampleConfidence)%Q in
  Qmax 0.1 (Qmin 1 confidence).

Section vote.
Context (validate : string → ValidationResult).
Context {Features : Type}.
Context (extractFeatures : string → Features).
Context (_compareFeaturesEnhanced : Features → Features → Q).

(** The [votes] array: one entry per cluster, sorted by votes, largest
    first. *)
Definition tally (clusters : list (Cluster Q)) : list Vote :=
  js_sort (λ a b, votes b <? votes a)
    (imap (λ index cluster,
             {| clusterIndex := index; v_cluster := cluster;
                votes := size cluster;
                v_representative := representative cluster |}) clusters).

(** [vote(messages, task, options)], from the candidates that
    [generateCandidates] returned (step 1) on. *)
Definition vote (options_k : option Z) (candidates : list Candidate)
    : Outcome VotingResult :=
  let k := or_default options_k defaultK in
  if decide (length candidates = 0) then Throw "Failed to generate any candidates"
  else
    let validCandidates :=
      filter (λ c, valid (validate (content c)) = true) candidates in
    if decide (length validCandidates = 0) then
      match js_sort (λ a b, negb (Qle_bool (ResponseValidator.confidence (validate (content a)))
                                           (ResponseValidator.confidence (validate (content b)))))
                    candidates with
      | bestInvalid :: _ =>
          Return {| winner := content bestInvalid;
                    confidence := 0.3;
                    votingStats :=
                      {| totalCandidates := length candidates;
                         validCandidates := 0;
                         clusterCount := 0;
                         winnerVotes := None; runnerUpVotes := None; margin := None;
                         votesNeeded := k;
                         reliable := false |};
                    clusters := None;
                    warning :=
                      Some "All candidates failed validation - returning least bad option" |}
      | [] => Throw "TypeError"
      end
    else
      match validCandidates with
      | [only] =>
          Return {| winner := content only;
                    confidence := ResponseValidator.confidence (validate (content only));
                    votingStats :=
                      {| totalCandidates := length candidates;
                         validCandidates := 1;
                         clusterCount := 1;
                         winnerVotes := None; runnerUpVotes := None; margin := None;
                         votesNeeded := k;
                         reliable := false |};
                    clusters := None;
                    warning := Some "Only one valid candidate - no voting performed" |}
      | _ =>
          let responseCodes := content <$> validCandidates in
          let clusters :=
            cluster extractFeatures _compareFeaturesEnhanced responseCodes
                    similarityThreshold in
          match tally clusters with
          | winner :: rest =>
              let runnerUpVotes := from_option votes 0 (head rest) in
              let margin := (Z.of_nat (votes winner) - Z.of_nat runnerUpVotes)%Z in
              let hasWinner := bool_decide (k ≤ margin)%Z in
              Return {| winner := v_representative winner;
                        confidence :=
                          _calculateConfidence winner runnerUpVotes k
                                               (length validCandidates);
                        votingStats :=
                          {| totalCandidates := length candidates;
                             validCandidates := length validCandidates;
                             clusterCount := length clusters;
                             winnerVotes := Some (votes winner);
                             runnerUpVotes := Some runnerUpVotes;
                             margin := Some margin;
                             votesNeeded := k;
                             reliable := hasWinner |};
                        clusters := Some clusters;
                        warning :=
                          if hasWinner then None
                          else Some ("Margin (" +:+ pretty margin
                                     +:+ ") below threshold (k=" +:+ pretty k
                                     +:+ ") - result may be unreliable") |}
          | [] => Throw "TypeError"
          end
      end.
End vote.

(** *** Candidate generation and the voting modes *)

(** What the completion provider answers: [content] may be missing or
    empty, and so may [usage.completion_tokens]. *)
Record Response := {
  res_content : option string;
  res_completion_tokens : option nat;
}.

(** [a || 0.7] on an optional temperature and [a || b] on an optional
    count: [undefined] and [0] give the default. *)
Definition or_temperature (a : option Q) : Q :=
  match a with
  | Some v => if Qeq_bool v 0 then 0.7%Q else v
  | None => 0.7%Q
  end.

Definition or_count (a : option nat) (b : nat) : nat :=
  match a with
  | Some 0 | None => b
  | Some v => v
  end.

(** The fields of [task] that the voting modes read. *)
Record Task := {
  t_estimatedSteps : option Z;
  t_critical : bool;
  t_baseReliability : option Q;
}.

Section rounds.
Context (validate : string → ValidationResult).
Context {Features : Type}.
Context (extractFeatures : string → Features).
Context (_compareFeaturesEnhanced : Features → Features → Q).
(** The value [Math.random()] returns at request [i], and what
    [lmstudioClient.complete] does with request [i] at a temperature: it
    returns a response, returns nothing, or throws. *)
Context (random : nat → Q).
Context (complete : nat → Q → Outcome (option Response)).

Definition variedTemp (options_temperature : option Q) (i : nat) : Q :=
  (or_temperature options_temperature + (random i * 0.2 - 0.1))%Q.

(** One turn of the loop of [generateCandidates]. *)
Definition generate_one (options_temperature : option Q)
    (candidates : list Candidate) (i : nat) : list Candidate :=
  match complete i (Qmax 0.1 (Qmin 1 (variedTemp options_temperature i))) with
  | Return (Some response) =>
      match res_content response with
      | Some text =>
          if decide (text = "") then candidates
          else candidates ++
                 [ {| c_index := i; content := text;
                      temperature := variedTemp options_temperature i;
                      tokens := res_completion_tokens response |} ]
      | None => candidates
      end
  | Return None => candidates
  | Throw _ => candidates
  end.

(** [generateCandidates(messages, count, options)] *)
Definition generateCandidates (count : nat) (options_temperature : option Q)
    : list Candidate :=
  foldl (generate_one options_temperature) [] (seq 0 count).

(** [vote(messages, task, options)] with its step 1. *)
Definition vote_round (options_k : option Z) (options_maxCandidates : option nat)
    (options_temperature : option Q) : Outcome VotingResult :=
  vote validate extractFeatures _compareFeaturesEnhanced options_k
       (generateCandidates (or_count options_maxCandidates maxCandidates)
                           (Some (or_temperature options_temperature))).

(** The threshold and the number of candidates of [adaptiveVote]. *)
Definition adaptive_k (task : Task) : Z :=
  let estimatedSteps := or_default (t_estimatedSteps task) 1 in
  let criticalityFactor := if t_critical task then 1.5%Q else 1%Q in
  Qceiling (inject_Z (calculateOptimalK estimatedSteps (t_baseReliability task))
            * criticalityFactor).

Definition adaptive_maxCandidates (task : Task) : Z :=
  let minCandidates := Z.max (adaptive_k task + 2) 5 in
  Z.min (minCandidates * 2) (Z.of_nat maxCandidates).

(** [adaptiveVote(messages, task, options)] *)
Definition adaptiveVote (task : Task) (options_temperature : option Q)
    : Outcome VotingResult :=
  vote_round (Some (adaptive_k task))
             (Some (Z.to_nat (adaptive_maxCandidates task)))
             options_temperature.

(** [quickVote(messages, task, options)] *)
Definition quickVote (options_temperature : option Q) : Outcome VotingResult :=
  vote_round (Some 2%Z) (Some 3) options_temperature.

(** [reliableVote(messages, task, options)] *)
Definition reliableVote (task : Task) (options_temperature : option Q)
    : Outcome VotingResult :=
  vote_round (Some (Z.max 5 (calculateOptimalK (or_default (t_estimatedSteps task) 10) None)))
             (Some 10) options_temperature.

(** What holds of the candidates once the requests below [bound] have been
    made: they are in request order, each one is the non-empty answer to
    its request, and no such answer is missing. *)
Definition generated (t : option Q) (bound : nat) (candidates : list Candidate) : Prop :=
  length candidates ≤ bound
  ∧ ordered_by (λ a b, c_index a < c_index b) candidates
  ∧ Forall (λ c, c_index c < bound
                 ∧ content c ≠ ""%string
                 ∧ temperature c = variedTemp t (c_index c)
                 ∧ ∃ response,
                     complete (c_index c) (Qmax 0.1 (Qmin 1 (variedTemp t (c_index c))))
                     = Return (Some response)
                     ∧ res_content response = Some (content c)
                     ∧ tokens c = res_completion_tokens response) candidates
  ∧ ∀ i response text,
      i < bound →
      complete i (Qmax 0.1 (Qmin 1 (variedTemp t i))) = Return (Some response) →
      res_content response = Some text → text ≠ ""%string →
      ∃ c, c ∈ candidates ∧ c_index c = i ∧ content c = text.
End rounds.

End VotingManager.

(** ** TaskDecomposer *)

Module TaskDecomposer.

Inductive Status := pending | completed.

Record Subtask := {
  id : Z;
  action : string;
  description : string;
  type : string;
  target : string;
  depends : list Z;
  status : Status;
  estimatedTokens : nat;
}.

Definition set_id (v : Z) (t : Subtask) : Subtask :=
  {| id := v; action := action t; description := description t; type := type t;
     target := target t; depends := depends t; status := status t;
     estimatedTokens := estimatedTokens t |}.

Definition set_depends (v : list Z) (t : Subtask) : Subtask :=
  {| id := id t; action := action t; description := description t; type := type t;
     target := target t; depends := v; status := status t;
     estimatedTokens := estimatedTokens t |}.

Definition set_status (v : Status) (t : Subtask) : Subtask :=
  {| id := id t; action := action t; description := description t; type := type t;
     target := target t; depends := depends t; status := v;
     estimatedTokens := estimatedTokens t |}.

(** [subtasks.findIndex(st => st.id === d)], [None] for -1. *)
Definition findIndex (subtasks : list Subtask) (d : Z) : option nat :=
  fst <$> list_find (λ st, id st = d) subtasks.

(** [subtasks.find(t => t.id === taskId)] *)
Definition find (subtasks : list Subtask) (taskId : Z) : option Subtask :=
  snd <$> list_find (λ t, id t = taskId) subtasks.

(** [_validateSubtasks(subtasks)] *)
Definition _validateSubtasks (subtasks : list Subtask) : list Subtask :=
  imap (λ idx task,
          set_depends
            (filter (λ d, 0 < d ∧ d ≤ Z.of_nat (length subtasks))%Z
               ((λ d, match findIndex subtasks d with
                      | Some oldIndex => (Z.of_nat oldIndex + 1)%Z
                      | None => d
                      end) <$> depends task))
            (set_id (Z.of_nat idx + 1)%Z task))
       subtasks.

Record Node := {
  task : Subtask;
  dependsOn : list Z;
  requiredBy : list Z;
}.

Definition push_requiredBy (v : Z) (n : Node) : Node :=
  {| task := task n; dependsOn := dependsOn n; requiredBy := requiredBy n ++ [v] |}.

(** [_buildDependencyGraph(subtasks)] *)
Definition _buildDependencyGraph (subtasks : list Subtask) : gmap Z Node :=
  let graph :=
    foldl (λ (graph : gmap Z Node) t,
             <[ id t := {| task := t; dependsOn := depends t; requiredBy := [] |} ]> graph)
          ∅ subtasks in
  foldl (λ (graph : gmap Z Node) t,
           foldl (λ (graph : gmap Z Node) depId, alter (push_requiredBy (id t)) depId graph)
                 graph (depends t))
        graph subtasks.

(** [Object.keys(graph)], each key read back with [parseInt]: the keys of
    a dependency graph are task ids, integers from 1 on, which a JavaScript
    object enumerates in ascending order. *)
Definition object_keys (graph : gmap Z Node) : list Z :=
  merge_sort Z.le (elements (dom graph)).

Section topologicalSort.
Context (graph : gmap Z Node).

(** The closure [visit] of [_topologicalSort], on the pair of the
    [visited] set and the [order] array.  [fuel] bounds the depth of the
    recursion. *)
Fixpoint visit (fuel : nat) (nodeId : Z) (st : gset Z * list Z)
    : option (gset Z * list Z) :=
  match fuel with
  | 0 => None
  | S fuel =>
      if decide (nodeId ∈ st.1) then Some st
      else
        let visited := {[ nodeId ]} ∪ st.1 in
        match graph !! nodeId with
        | Some node =>
            st' ← foldl (λ acc depId, acc ≫= visit fuel depId)
                         (Some (visited, st.2)) (dependsOn node);
            Some (st'.1, st'.2 ++ [nodeId])
        | None => Some (visited, st.2)
        end
  end.

(** The loops of [_topologicalSort]: [visit] on every element of a list. *)
Definition visit_all (fuel : nat) (nodeIds : list Z) (st : gset Z * list Z)
    : option (gset Z * list Z) :=
  foldl (λ acc nodeId, acc ≫= visit fuel nodeId) (Some st) nodeIds.

(** [_topologicalSort(graph)]: no call of [visit] is nested deeper than
    the number of nodes plus one. *)
Definition _topologicalSort : option (list Z) :=
  snd <$> visit_all (S (size graph)) (object_keys graph) (∅, []).
End topologicalSort.

Record Complexity := {
  totalSteps : nat;
  totalTokens : nat;
  parallelizable : nat;
}.

(** [_estimateComplexity(subtasks)], without the depth of the longest
    dependency chain, the label derived from it and the rounded average of
    the tokens, none of which [executeTask] reads. *)
Definition _estimateComplexity (subtasks : list Subtask) : Complexity :=
  {| totalSteps := length subtasks;
     totalTokens := foldl (λ sum t, sum + estimatedTokens t) 0 subtasks;
     parallelizable := length (filter (λ t, length (depends t) = 0) subtasks) |}.

Record Plan := {
  subtasks : list Subtask;
  dependencyGraph : gmap Z Node;
  executionOrder : list Z;
  complexity : Complexity;
}.

(** [decompose(taskDescription, context, options)], from the subtasks that
    the AI-assisted or the rule-based decomposition returned on. *)
Definition decompose (decomposed : list Subtask) : option Plan :=
  let subtasks := _validateSubtasks decomposed in
  let dependencyGraph := _buildDependencyGraph subtasks in
  executionOrder ← _topologicalSort dependencyGraph;
  Some {| subtasks := subtasks;
          dependencyGraph := dependencyGraph;
          executionOrder := executionOrder;
          complexity := _estimateComplexity subtasks |}.

(** [completeSubtask(subtasks, taskId)] (the [completedAt] time stamp is
    left out). *)
Definition completeSubtask (subtasks : list Subtask) (taskId : Z) : list Subtask :=
  (λ t, if decide (id t = taskId) then set_status completed t else t) <$> subtasks.

(** The edges of a dependency graph, and graphs without a cycle. *)
Definition edge (graph : gmap Z Node) (n d : Z) : Prop :=
  ∃ node, graph !! n = Some node ∧ d ∈ dependsOn node.

Definition acyclic (graph : gmap Z Node) : Prop :=
  ∀ n, ¬ tc (edge graph) n n.

(** [d] comes before [n] in [order]. *)
Definition precedes (order : list Z) (d n : Z) : Prop :=
  ∃ i j, order !! i = Some d ∧ order !! j = Some n ∧ i < j.

(** In [order], every node comes after those of its dependencies that are
    nodes of the graph. *)
Definition respects (graph : gmap Z Node) (order : list Z) : Prop :=
  ∀ n d, n ∈ order → edge graph n d → d ∈ dom graph → precedes order d n.

(** Every node of the graph that has been visited is in [order], or in the
    set [pending] of the nodes whose call of [visit] has not returned. *)
Definition accounted (graph : gmap Z Node) (pending : gset Z)
    (st : gset Z * list Z) : Prop :=
  ∀ x, x ∈ st.1 → x ∈ dom graph → x ∈ st.2 ∨ x ∈ pending.

(** What a call of [visit] (or a sequence of calls) does to the state: the
    [visited] set grows, and [order] is extended by the nodes of the graph
    that were visited for the first time, each of them once. *)
Definition emits (graph : gmap Z Node) (st st' : gset Z * list Z) : Prop :=
  st.1 ⊆ st'.1
  ∧ ∃ new, st'.2 = st.2 ++ new
           ∧ NoDup new
           ∧ ∀ x, x ∈ new ↔ x ∈ st'.1 ∧ (x ∉ st.1) ∧ x ∈ dom graph.

(** [getReadySubtasks(subtasks)]: the test of a dependency, the test of a
    subtask, and the filter. *)
Definition dependency_completed (subtasks : list Subtask) (depId : Z) : bool :=
  match find subtasks depId with
  | Some depTask => match status depTask with completed => true | pending => false end
  | None => false
  end.

Definition ready (subtasks : list Subtask) (task : Subtask) : bool :=
  match status task with
  | pending => forallb (dependency_completed subtasks) (depends task)
  | completed => false
  end.

Definition getReadySubtasks (subtasks : list Subtask) : list Subtask :=
  filter (λ task, ready subtasks task = true) subtasks.

(** [overhead[action] || 50] and [_estimateStepTokens(action, description)],
    for an action that is one of the operation types or no property of an
    object at all. *)
Definition overhead (action : string) : nat :=
  if decide (action = "create"%string) then 100
  else if decide (action = "write"%string) then 80
  else if decide (action = "edit"%string) then 60
  else if decide (action = "read"%string) then 40
  else if decide (action = "delete"%string) then 20
  else 50.

Definition _estimateStepTokens (countTokens : string → nat) (action description : string)
    : nat :=
  countTokens description + overhead action.

Section decomposeRuleBased.
(** The regular expressions of [_decomposeRuleBased]: the keyword patterns
    with [RegExp.prototype.test], [split(/[.;]/)], whether
    [match(/(?:and|then|also|plus)/gi)] finds anything, and the split on
    conjunctions. *)
Context {Pattern : Type}.
Context (test : Pattern → string → bool).
Context (create_pattern read_pattern edit_pattern delete_pattern : Pattern).
Context (split_sentences : string → list string).
Context (mentions_operations : string → bool).
Context (split_operations : string → list string).
Context (trim : string → string).
Context (countTokens : string → nat).

Definition keywords : list (string * Pattern) :=
  [ ("create"%string, create_pattern); ("read"%string, read_pattern);
    ("edit"%string, edit_pattern); ("delete"%string, delete_pattern) ].

(** The loop over [Object.entries(keywords)]. *)
Definition operation_type (taskDescription : string) : string :=
  match list_find (λ entry, test entry.2 taskDescription = true) keywords with
  | Some (_, (key, _)) => key
  | None => "execute"%string
  end.

(** The subtask made of the sentence or part at position [idx]. *)
Definition chain_step (type target : string) (idx : nat) (text : string) : Subtask :=
  {| id := (Z.of_nat idx + 1)%Z;
     action := type;
     description := trim text;
     type := type;
     target := target;
     depends := if decide (0 < idx) then [Z.of_nat idx] else [];
     status := pending;
     estimatedTokens := _estimateStepTokens countTokens type text |}.

(** [_decomposeRuleBased(taskDescription, context)], on [context.files]
    (empty when there is none). *)
Definition _decomposeRuleBased (taskDescription : string) (files : list string)
    : list Subtask :=
  let type := operation_type taskDescription in
  let target :=
    match files with
    | file :: _ => if decide (file = ""%string) then "unknown"%string else file
    | [] => "unknown"%string
    end in
  let sentences :=
    filter (λ s, 0 < String.length (trim s)) (split_sentences taskDescription) in
  let subtasks := imap (chain_step type target) sentences in
  if bool_decide (length subtasks = 1) && mentions_operations taskDescription then
    imap (chain_step type target) (split_operations taskDescription)
  else if decide (0 < length subtasks) then subtasks
  else [ {| id := 1; action := type; description := taskDescription; type := type;
            target := "unknown"; depends := []; status := pending;
            estimatedTokens := _estimateStepTokens countTokens type taskDescription |} ].
End decomposeRuleBased.

End TaskDecomposer.

(** ** MicroagentExecutor *)

Module MicroagentExecutor.
Import CodeClusterer ResponseValidator VotingManager TaskDecomposer.

Record Options := {
  baseReliability : option Q;
  criticalTask : bool;
  o_maxCandidates : option nat;
  o_temperature : option Q;
  requireHighConfidence : bool;
  stopOnError : bool;
}.

(** The third argument of [vote]. *)
Record VotingOptions := {
  vo_k : Z;
  vo_maxCandidates : nat;
  vo_temperature : Q;
}.

Inductive LogStatus := success | warning | error.

(** An entry of [executionLog] (without its time stamp). *)
Record LogEntry := {
  l_taskId : Z;
  l_subtask : string;
  l_status : LogStatus;
  l_confidence : option Q;
  l_warning : option string;
  l_error : option string;
  l_votingStats : option VotingStats;
}.

(** An entry of [results]. *)
Record ResultEntry := {
  r_subtask : Subtask;
  r_result : string;
  r_confidence : Q;
  r_warning : option string;
}.

(** What the loop of [executeTask] reads and writes: [currentPlan.subtasks],
    [executionLog], the counters, [results], [context.completedSubtasks],
    and (for the statements below) the options of every call of [vote]. *)
Record State := {
  s_subtasks : list Subtask;
  s_executionLog : list LogEntry;
  s_completedCount : nat;
  s_errorCount : nat;
  s_results : list ResultEntry;
  s_completedSubtasks : list (Z * string * string);
  s_voteCalls : list VotingOptions;
}.

Record Summary := {
  totalSubtasks : nat;
  sm_completed : nat;          (* [completed] *)
  errors : nat;
  successRate : option Q;      (* [None] for the NaN of 0 / 0 *)
  avgConfidence : option Q;
  executionLog : list LogEntry;
  results : list ResultEntry;
}.

(** How an iteration of the loop ends: the loop goes on, or the exception is
    thrown again and ends [executeTask].  The fields of the executor keep
    their values in both cases. *)
Inductive Step :=
  | Continue (st : State)
  | Abort (msg : string) (st : State).

Definition state_of (s : Step) : State :=
  match s with Continue st | Abort _ st => st end.

(** [a || 0.7] and [a || 5] *)
Definition or_Q (a : option Q) (b : Q) : Q :=
  match a with
  | Some v => if Qeq_bool v 0 then b else v
  | None => b
  end.

Definition or_nat (a : option nat) (b : nat) : nat :=
  match a with
  | Some 0 | None => b
  | Some v => v
  end.

(** Phase 2: the threshold computed from the plan. *)
Definition base_k (plan : Plan) (options : Options) : Z :=
  calculateOptimalK (Z.of_nat (totalSteps (complexity plan)))
                    (Some (or_Q (baseReliability options) 0.7%Q)).

(** [options.criticalTask ? k + 1 : k], the threshold handed to [vote]. *)
Definition passed_k (options : Options) (k : Z) : Z :=
  if criticalTask options then (k + 1)%Z else k.

Section executeTask.
Context (validate : string → ValidationResult).
Context {Features : Type}.
Context (extractFeatures : string → Features).
Context (_compareFeaturesEnhanced : Features → Features → Q).
(** The completion provider behind [generateCandidates]: the candidates it
    yields at one iteration of the loop, for the prompt built from the
    subtask and its minimal context. *)
Context (generateCandidates : nat → Subtask → VotingOptions → list Candidate).

(** [result.votingResult.reliable]: [vote] stores the flag inside
    [votingStats], and the object it returns has no property [reliable] of
    its own; reading it gives [undefined], which the [if] takes as false. *)
Definition votingResult_reliable (r : VotingResult) : bool := false.

(** [_executeSubtask(subtask, minimalContext, votingOptions)] *)
Definition _executeSubtask (iteration : nat) (subtask : Subtask)
    (votingOptions : VotingOptions) : Outcome VotingResult :=
  vote validate extractFeatures _compareFeaturesEnhanced
       (Some (vo_k votingOptions))
       (generateCandidates iteration subtask votingOptions).

(** The [catch] block of the loop. *)
Definition on_error (options : Options) (taskId : Z) (subtask : Subtask)
    (msg : string) (st : State) : Step :=
  let st' :=
    {| s_subtasks := s_subtasks st;
       s_executionLog :=
         s_executionLog st ++
           [ {| l_taskId := taskId; l_subtask := description subtask;
                l_status := error; l_confidence := None; l_warning := None;
                l_error := Some msg; l_votingStats := None |} ];
       s_completedCount := s_completedCount st;
       s_errorCount := Datatypes.S (s_errorCount st);
       s_results := s_results st;
       s_completedSubtasks := s_completedSubtasks st;
       s_voteCalls := s_voteCalls st |} in
  if stopOnError options then Abort msg st' else Continue st'.

(** [_applyResult], the log entry, the result entry and
    [completeSubtask]: the end of the [try] block, shared by the reliable
    and the unreliable case. *)
Definition on_result (taskId : Z) (subtask : Subtask) (r : VotingResult)
    (status : LogStatus) (st : State) : State :=
  let warn := match status with success => None | _ => VotingManager.warning r end in
  {| s_subtasks := completeSubtask (s_subtasks st) taskId;
     s_executionLog :=
       s_executionLog st ++
         [ {| l_taskId := taskId; l_subtask := description subtask;
              l_status := status;
              l_confidence := Some (VotingManager.confidence r);
              l_warning := warn;
              l_error := None;
              l_votingStats := Some (votingStats r) |} ];
     s_completedCount := Datatypes.S (s_completedCount st);
     s_errorCount := s_errorCount st;
     s_results :=
       s_results st ++
         [ {| r_subtask := subtask; r_result := winner r;
              r_confidence := VotingManager.confidence r; r_warning := warn |} ];
     s_completedSubtasks :=
       s_completedSubtasks st ++ [ (id subtask, description subtask, winner r) ];
     s_voteCalls := s_voteCalls st |}.

(** One iteration of the loop over [executionOrder]. *)
Definition iteration (options : Options) (k : Z) (i : nat) (st : State) (taskId : Z)
    : Step :=
  match find (s_subtasks st) taskId with
  | None => Continue st
  | Some subtask =>
      let votingOptions :=
        {| vo_k := passed_k options k;
           vo_maxCandidates := or_nat (o_maxCandidates options) 5;
           vo_temperature := or_Q (o_temperature options) 0.7%Q |} in
      let st :=
        {| s_subtasks := s_subtasks st; s_executionLog := s_executionLog st;
           s_completedCount := s_completedCount st; s_errorCount := s_errorCount st;
           s_results := s_results st; s_completedSubtasks := s_completedSubtasks st;
           s_voteCalls := s_voteCalls st ++ [votingOptions] |} in
      match _executeSubtask i subtask votingOptions with
      | Throw msg => on_error options taskId subtask msg st
      | Return r =>
          if votingResult_reliable r then
            Continue (on_result taskId subtask r success st)
          else if requireHighConfidence options then
            on_error options taskId subtask
              ("Subtask failed confidence threshold: " +:+ default "null" (VotingManager.warning r))
              st
          else
            Continue (on_result taskId subtask r warning st)
      end
  end.

(** The loop, from iteration [i] on. *)
Fixpoint run (options : Options) (k : Z) (i : nat) (order : list Z) (st : State)
    : Step :=
  match order with
  | [] => Continue st
  | taskId :: order =>
      match iteration options k i st taskId with
      | Continue st' => run options k (Datatypes.S i) order st'
      | Abort msg st' => Abort msg st'
      end
  end.

Definition initial (plan : Plan) : State :=
  {| s_subtasks := subtasks plan; s_executionLog := []; s_completedCount := 0;
     s_errorCount := 0; s_results := []; s_completedSubtasks := [];
     s_voteCalls := [] |}.

Definition ratio (a : Q) (n : nat) : option Q :=
  if decide (n = 0) then None else Some (a / inject_Z (Z.of_nat n))%Q.

(** Phases 2 to 4 of [executeTask], on the plan of phase 1: what it
    returns or throws, and the state it leaves behind. *)
Definition executeTask (plan : Plan) (options : Options) : Outcome Summary * State :=
  let k := base_k plan options in
  match run options k 0 (executionOrder plan) (initial plan) with
  | Abort msg st => (Throw msg, st)
  | Continue st =>
      (Return
         {| totalSubtasks := length (s_subtasks st);
            sm_completed := s_completedCount st;
            errors := s_errorCount st;
            successRate :=
              ratio (inject_Z (Z.of_nat (s_completedCount st))) (length (s_subtasks st));
            avgConfidence :=
              ratio (foldl (λ sum r, sum + r_confidence r)%Q 0%Q (s_results st))
                    (length (s_results st));
            executionLog := s_executionLog st;
            results := s_results st |}, st)
  end.
End executeTask.

(** *** The minimal context and the progress report *)

Record TargetFile := {
  tf_path : string;
  tf_content : string;
  tf_truncated : bool;
}.

Record MinimalContext := {
  mc_task : string;
  mc_type : string;
  mc_target : string;
  mc_dependencies : option (list (string * string));   (* task and result *)
  mc_targetFile : option TargetFile;
  mc_relevantFiles : option (list string);
}.

Section buildMinimalContext.
(** [fileOps.fileExists] and [fileOps.readFile], which may throw, and the
    token counter. *)
Context (fileExists : string → Outcome bool).
Context (readFile : string → Outcome string).
Context (countTokens : string → nat).
Context (truncateToTokenLimit : string → nat → string).

(** The [try] block of [_buildMinimalContext]: an exception leaves the
    context without target file. *)
Definition read_target (target : string) : option TargetFile :=
  match fileExists target with
  | Return true =>
      match readFile target with
      | Return content =>
          let maxTokens := 500 in
          let tokens := countTokens content in
          if maxTokens <? tokens then
            Some {| tf_path := target;
                    tf_content := truncateToTokenLimit content maxTokens;
                    tf_truncated := true |}
          else
            Some {| tf_path := target; tf_content := content; tf_truncated := false |}
      | Throw _ => None
      end
  | Return false => None
  | Throw _ => None
  end.

(** [_buildMinimalContext(subtask, globalContext, previousResults)], on
    [globalContext.relevantFiles]. *)
Definition _buildMinimalContext (subtask : Subtask) (relevantFiles : option (list string))
    (previousResults : list ResultEntry) : MinimalContext :=
  {| mc_task := description subtask;
     mc_type := type subtask;
     mc_target := target subtask;
     mc_dependencies :=
       if decide (0 < length (depends subtask)) then
         Some ((λ r, (description (r_subtask r), r_result r))
                 <$> filter (λ r, id (r_subtask r) ∈ depends subtask) previousResults)
       else None;
     mc_targetFile :=
       if decide (type subtask = "edit"%string ∨ type subtask = "read"%string)
       then read_target (target subtask) else None;
     mc_relevantFiles := take 2 <$> relevantFiles |}.
End buildMinimalContext.

Record Progress := {
  p_completed : nat;
  p_total : nat;
  p_progress : option Q;              (* [None] for the NaN of 0 / 0 *)
  p_currentSubtask : option Subtask;
}.

(** [t.status === s] *)
Definition has_status (s : Status) (t : Subtask) : bool :=
  match status t, s with
  | completed, completed | pending, pending => true
  | _, _ => false
  end.

(** [getProgress()] while a plan is set, on [currentPlan.subtasks]. *)
Definition getProgress (subtasks : list Subtask) : Progress :=
  let completed := length (filter (λ t, has_status completed t = true) subtasks) in
  let total := length subtasks in
  {| p_completed := completed;
     p_total := total;
     p_progress := ratio (inject_Z (Z.of_nat completed)) total;
     p_currentSubtask := snd <$> list_find (λ t, has_status pending t = true) subtasks |}.

End MicroagentExecutor.

(** ** Sample inputs *)

Module Samples.
Import CodeClusterer ResponseValidator VotingManager TaskDecomposer MicroagentExecutor.

(** A validator whose checks 2 to 6 raise no flag, and one that flags every
    response as a syntax error. *)
Definition lenient : string → ValidationResult := validate (λ code, code) (λ _, []).

Definition strict : string → ValidationResult :=
  validate (λ code, code) (λ _, [ {| flag_type := "syntax_error"; severity := critical;
                         message := "Syntax error" |} ]).

(** Responses compared as one-token sets. *)
Definition one_token (code : string) : gset string := {[ code ]}.

Definition candidate (i : nat) (code : string) : Candidate :=
  {| c_index := i; content := code; temperature := 0.7; tokens := None |}.

Definition subtask (i : Z) (deps : list Z) : Subtask :=
  {| id := i; action := "create"; description := "step"; type := "create";
     target := "unknown"; depends := deps; status := pending;
     estimatedTokens := 101 |}.

(** The plan of a task decomposed into a single subtask. *)
Definition single_plan : Plan :=
  {| subtasks := [subtask 1 []];
     dependencyGraph :=
       {[ 1%Z := {| task := subtask 1 []; dependsOn := []; requiredBy := [] |} ]};
     executionOrder := [1%Z];
     complexity := {| totalSteps := 1; totalTokens := 101; parallelizable := 1 |} |}.

Definition plain_options : Options :=
  {| baseReliability := None; criticalTask := false; o_maxCandidates := None;
     o_temperature := None; requireHighConfidence := false; stopOnError := false |}.

Definition critical_options : Options :=
  {| baseReliability := None; criticalTask := true; o_maxCandidates := None;
     o_temperature := None; requireHighConfidence := false; stopOnError := false |}.

(** The plan of two subtasks, the first of which depends on the second. *)
Definition forward_plan : Plan :=
  {| subtasks := [subtask 1 [2%Z]; subtask 2 []];
     dependencyGraph :=
       <[ 1%Z := {| task := subtask 1 [2%Z]; dependsOn := [2%Z]; requiredBy := [] |} ]>
         {[ 2%Z := {| task := subtask 2 []; dependsOn := []; requiredBy := [1%Z] |} ]};
     executionOrder := [2%Z; 1%Z];
     complexity := {| totalSteps := 2; totalTokens := 202; parallelizable := 1 |} |}.

(** A completion provider that gives the same answer to every request,
    and one whose first request throws and whose second comes back empty. *)
Definition same_answer (i : nat) (temperature : Q) : Outcome (option Response) :=
  Return (Some {| res_content := Some "f()"%string; res_completion_tokens := Some 3 |}).

Definition flaky (i : nat) (temperature : Q) : Outcome (option Response) :=
  match i with
  | 0 => Throw "connect ECONNREFUSED"
  | 1 => Return (Some {| res_content := Some ""%string; res_completion_tokens := None |})
  | _ => Return (Some {| res_content := Some "f()"%string; res_completion_tokens := Some 3 |})
  end.

Definition large_critical_task : Task :=
  {| t_estimatedSteps := Some 100%Z; t_critical := true; t_baseReliability := None |}.

(** A provider that fails on every request, and one that answers once. *)
Definition silent (i : nat) (t : Subtask) (vo : VotingOptions) : list Candidate := [].

Definition single_answer (i : nat) (t : Subtask) (vo : VotingOptions) : list Candidate :=
  [candidate 0 "const x = 1;"].

(** Options that ask for a reliable vote at every step, and options that
    stop at the first error. *)
Definition demanding_options : Options :=
  {| baseReliability := None; criticalTask := false; o_maxCandidates := None;
     o_temperature := None; requireHighConfidence := true; stopOnError := false |}.

Definition stopping_options : Options :=
  {| baseReliability := None; criticalTask := false; o_maxCandidates := None;
     o_temperature := None; requireHighConfidence := true; stopOnError := true |}.

(** A provider that gives the same two answers at every step. *)
Definition agreeing (i : nat) (t : Subtask) (vo : VotingOptions) : list Candidate :=
  [candidate 0 "const x = 1;"; candidate 1 "const x = 1;"].

(** The plan of two subtasks, the second of which depends on the first. *)
Definition chain_plan : Plan :=
  {| subtasks := [subtask 1 []; subtask 2 [1%Z]];
     dependencyGraph :=
       <[ 1%Z := {| task := subtask 1 []; dependsOn := []; requiredBy := [2%Z] |} ]>
         {[ 2%Z := {| task := subtask 2 [1%Z]; dependsOn := [1%Z]; requiredBy := [] |} ]};
     executionOrder := [1%Z; 2%Z];
     complexity := {| totalSteps := 2; totalTokens := 202; parallelizable := 1 |} |}.

(** The features of a text that declares one class without methods, for
    every response. *)
Definition empty_class (code : string) : Similarity.Features :=
  {| Similarity.syntaxValid := true; Similarity.functions := [];
     Similarity.classes := [0]; Similarity.imports := [];
     Similarity.tokens := {[ "A"%string ]};
     Similarity.structure :=
       {| Similarity.functionCount := 0; Similarity.classCount := 1;
          Similarity.importCount := 0; Similarity.exportCount := 0;
          Similarity.variableCount := 0 |} |}.

End Samples.

(** * Properties *)

(** ** Jaccard similarity *)

Section jaccard.

Lemma intersection_sym (set1 set2 : gset string) :
  filter (λ x, x ∈ set2) set1 = filter (λ x, x ∈ set1) set2.
Proof. apply set_eq. intros x. rewrite !elem_of_filter. tauto. Qed.

Lemma intersection_size_le (set1 set2 : gset string) :
  size (filter (λ x, x ∈ set2) set1) ≤ size (set1 ∪ set2).
Proof.
  apply subseteq_size. intros x [_ Hx]%elem_of_filter.
  apply elem_of_union. by left.
Qed.

Lemma union_size_pos (set1 set2 : gset string) :
  ¬ (size set1 = 0 ∧ size set2 = 0) → 0 < size (set1 ∪ set2).
Proof.
  intros Hz. destruct (decide (size (set1 ∪ set2) = 0)) as [He|]; [|lia].
  apply size_empty_inv in He. destruct Hz.
  split; apply size_empty_iff; set_solver.
Qed.

Lemma ratio_bounds (a b : nat) :
  a ≤ b → 0 < b →
  (0 <= inject_Z (Z.of_nat a) / inject_Z (Z.of_nat b) <= 1)%Q.
Proof.
  intros Hab Hb.
  assert (0 < inject_Z (Z.of_nat b))%Q as Hpos.
  { change 0%Q with (inject_Z 0). rewrite <- Zlt_Qlt. lia. }
  split.
  - apply Qle_shift_div_l; [done|]. rewrite Qmult_0_l.
    change 0%Q with (inject_Z 0). rewrite <- Zle_Qle. lia.
  - apply Qle_shift_div_r; [done|]. rewrite Qmult_1_l.
    rewrite <- Zle_Qle. lia.
Qed.

Lemma nonempty_size (set1 : gset string) : set1 ≠ ∅ → 0 < size set1.
Proof.
  intros Hne. destruct (decide (size set1 = 0)) as [Hz|]; [|lia].
  apply size_empty_inv in Hz. apply leibniz_equiv in Hz. done.
Qed.

(** C9: the Jaccard similarity of two token sets does not depend on the
    order of its arguments, lies between 0 and 1, is 1 for two identical
    non-empty sets and 0 for two disjoint non-empty sets. *)
Theorem jaccard_similarity_properties (set1 set2 : gset string) :
  CodeClusterer._jaccardSimilarity set1 set2 = CodeClusterer._jaccardSimilarity set2 set1
  ∧ (0 <= CodeClusterer._jaccardSimilarity set1 set2 <= 1)%Q
  ∧ (set1 ≠ ∅ → (CodeClusterer._jaccardSimilarity set1 set1 == 1)%Q)
  ∧ (set1 ≠ ∅ → set2 ≠ ∅ → set1 ## set2 → (CodeClusterer._jaccardSimilarity set1 set2 == 0)%Q).
Proof.
  unfold CodeClusterer._jaccardSimilarity. split; [|split; [|split]].
  - rewrite (intersection_sym set1 set2), (union_comm_L set1 set2).
    repeat case_bool_decide; try done; tauto.
  - case_bool_decide as Hz; [done|].
    apply ratio_bounds; [apply intersection_size_le|by apply union_size_pos].
  - intros Hne. pose proof (nonempty_size _ Hne).
    case_bool_decide; [lia|].
    replace (filter (λ x, x ∈ set1) set1) with set1
      by (apply set_eq; intros x; rewrite elem_of_filter; tauto).
    rewrite union_idemp_L. apply Qmult_inv_r.
    intros Hz. change 0%Q with (inject_Z 0) in Hz.
    apply (proj1 (inject_Z_injective _ _)) in Hz. lia.
  - intros Hne1 Hne2 Hdisj. pose proof (nonempty_size _ Hne1).
    case_bool_decide; [lia|].
    replace (filter (λ x, x ∈ set2) set1) with (∅ : gset string).
    2:{ apply set_eq. intros x. rewrite elem_of_filter, elem_of_empty.
        split; [done|intros [Hx2 Hx1]; exact (Hdisj x Hx1 Hx2)]. }
    rewrite size_empty. unfold Qdiv. apply Qmult_0_l.
Qed.

Lemma jaccard_similarity_witness :
  (CodeClusterer._jaccardSimilarity {[ "a"%string ]} {[ "a"%string ]} == 1)%Q
  ∧ (CodeClusterer._jaccardSimilarity {[ "a"%string ]} {[ "b"%string ]} == 0)%Q.
Proof.
  destruct (jaccard_similarity_properties {[ "a"%string ]} {[ "b"%string ]})
    as (_ & _ & Hsame & Hdisjoint).
  split.
  - apply Hsame. set_solver.
  - apply Hdisjoint; set_solver.
Defined.
End jaccard.

(** ** The voting threshold *)

Section optimal_k.
Import VotingManager.

Lemma reliabilityFactor_nonneg (r : Q) : (0 <= Qmax 1 (2 * (1 - r)))%Q.
Proof. apply Qle_trans with 1%Q; [done|]. apply Q.le_max_l. Qed.

Lemma calculateOptimalK_range (steps : Z) (b : option Q) :
  (2 ≤ calculateOptimalK steps b ≤ 10)%Z.
Proof. unfold calculateOptimalK. lia. Qed.

Lemma calculateOptimalK_mono (steps steps' : Z) (b : option Q) :
  (steps ≤ steps')%Z →
  (calculateOptimalK steps b ≤ calculateOptimalK steps' b)%Z.
Proof.
  intros Hle. unfold calculateOptimalK.
  assert (Qceiling (inject_Z (Z.log2_up (steps + 1)) * Qmax 1 (2 * (1 - default 0.7%Q b)))
          ≤ Qceiling (inject_Z (Z.log2_up (steps' + 1)) * Qmax 1 (2 * (1 - default 0.7%Q b))))%Z
    as Hceil.
  { apply Qceiling_resp_le, Qmult_le_compat_r; [|apply reliabilityFactor_nonneg].
    rewrite <- Zle_Qle. apply Z.log2_up_le_mono. lia. }
  lia.
Qed.

(** C3: for a base reliability between 0 and 1 and non-negative step
    counts, [calculateOptimalK] lies between 2 and 10 and does not decrease
    when the number of steps grows. *)
Theorem calculateOptimalK_bounded_monotone (steps steps' : Z) (baseReliability : Q) :
  (0 <= baseReliability <= 1)%Q →
  (0 ≤ steps)%Z →
  (steps ≤ steps')%Z →
  (2 ≤ calculateOptimalK steps (Some baseReliability) ≤ 10)%Z
  ∧ (calculateOptimalK steps (Some baseReliability)
     ≤ calculateOptimalK steps' (Some baseReliability))%Z.
Proof.
  intros _ _ Hle. split.
  - apply calculateOptimalK_range.
  - by apply calculateOptimalK_mono.
Qed.

Lemma calculateOptimalK_bounded_monotone_witness :
  (2 ≤ calculateOptimalK 7 (Some 0.25%Q) ≤ 10)%Z
  ∧ (calculateOptimalK 7 (Some 0.25%Q) ≤ calculateOptimalK 100 (Some 0.25%Q))%Z.
Proof.
  apply (calculateOptimalK_bounded_monotone 7 100 0.25%Q).
  - split; vm_compute; discriminate.
  - lia.
  - lia.
Defined.

(** Sample values: 1 step gives the lower bound, 7 steps at the default
    reliability give 3, a low reliability reaches the upper bound. *)
Example calculateOptimalK_samples :
  calculateOptimalK 1 None = 2%Z
  ∧ calculateOptimalK 7 None = 3%Z
  ∧ calculateOptimalK 7 (Some 0.25%Q) = 5%Z
  ∧ calculateOptimalK 1000 (Some 0.25%Q) = 10%Z.
Proof. repeat split; vm_compute; reflexivity. Qed.
End optimal_k.

(** ** The executor *)

Section executor.
Import ResponseValidator VotingManager TaskDecomposer MicroagentExecutor.
Context (validate : string → ValidationResult).
Context {Features : Type}.
Context (extractFeatures : string → Features).
Context (_compareFeaturesEnhanced : Features → Features → Q).
Context (generateCandidates : nat → Subtask → VotingOptions → list Candidate).

Abbreviation iteration :=
  (iteration validate extractFeatures _compareFeaturesEnhanced generateCandidates).
Abbreviation run :=
  (run validate extractFeatures _compareFeaturesEnhanced generateCandidates).
Abbreviation executeTask :=
  (executeTask validate extractFeatures _compareFeaturesEnhanced generateCandidates).

Lemma on_error_voteCalls options taskId subtask msg st :
  s_voteCalls (state_of (on_error options taskId subtask msg st)) = s_voteCalls st.
Proof. unfold on_error. by destruct (stopOnError options). Qed.

Lemma iteration_voteCalls options k i st taskId :
  Forall (λ vo, vo_k vo = passed_k options k) (s_voteCalls st) →
  Forall (λ vo, vo_k vo = passed_k options k)
         (s_voteCalls (state_of (iteration options k i st taskId))).
Proof.
  intros Hst. unfold MicroagentExecutor.iteration.
  destruct (find (s_subtasks st) taskId) as [subtask|]; [|done].
  assert (Forall (λ vo, vo_k vo = passed_k options k)
            (s_voteCalls st ++
               [ {| vo_k := passed_k options k;
                    vo_maxCandidates := or_nat (o_maxCandidates options) 5;
                    vo_temperature := or_Q (o_temperature options) 0.7%Q |} ])) as Hcall.
  { apply Forall_app. split; [done|]. by apply Forall_singleton. }
  destruct (_executeSubtask _ _ _ _ _ _ _) as [r|msg].
  - destruct (votingResult_reliable r); [done|].
    destruct (requireHighConfidence options); [|done].
    by rewrite on_error_voteCalls.
  - by rewrite on_error_voteCalls.
Qed.

Lemma run_voteCalls options k order : ∀ i st,
  Forall (λ vo, vo_k vo = passed_k options k) (s_voteCalls st) →
  Forall (λ vo, vo_k vo = passed_k options k)
         (s_voteCalls (state_of (run options k i order st))).
Proof.
  induction order as [|taskId order IH]; intros i st Hst; [done|].
  simpl. pose proof (iteration_voteCalls options k i st taskId Hst) as Hit.
  destruct (iteration options k i st taskId) as [st'|msg st']; [|done].
  by apply IH.
Qed.

(** C8 (as amended): every call of [vote] that [executeTask] makes gets the
    threshold [calculateOptimalK(totalSteps, baseReliability || 0.7)] plus 1
    when [criticalTask] is set (a single increment, at the call), and that
    threshold itself when it is not. *)
Theorem executeTask_vote_threshold (plan : Plan) (options : Options) :
  Forall (λ vo, vo_k vo =
                if criticalTask options
                then (calculateOptimalK (Z.of_nat (totalSteps (complexity plan)))
                                        (Some (or_Q (baseReliability options) 0.7%Q)) + 1)%Z
                else calculateOptimalK (Z.of_nat (totalSteps (complexity plan)))
                                       (Some (or_Q (baseReliability options) 0.7%Q)))
         (s_voteCalls (executeTask plan options).2).
Proof.
  unfold MicroagentExecutor.executeTask.
  pose proof (run_voteCalls options (base_k plan options) (executionOrder plan) 0
                (initial plan) (Forall_nil_2 _)) as Hrun.
  by destruct (run _ _ _ _ _) as [st|msg st].
Qed.

(** Every iteration that finds its subtask calls [vote] exactly once. *)
Lemma iteration_calls_vote options k i st taskId subtask :
  find (s_subtasks st) taskId = Some subtask →
  ∃ vo, s_voteCalls (state_of (iteration options k i st taskId)) = s_voteCalls st ++ [vo].
Proof.
  intros Hfind. unfold MicroagentExecutor.iteration. rewrite Hfind.
  eexists. destruct (_executeSubtask _ _ _ _ _ _ _) as [r|msg].
  - destruct (votingResult_reliable r); [done|].
    destruct (requireHighConfidence options); [|done].
    by rewrite on_error_voteCalls.
  - by rewrite on_error_voteCalls.
Qed.

Lemma find_completeSubtask subtasks taskId subtask :
  find subtasks taskId = Some subtask →
  find (completeSubtask subtasks taskId) taskId = Some (set_status completed subtask).
Proof.
  unfold find, completeSubtask.
  induction subtasks as [|t subtasks IH]; [done|].
  rewrite fmap_cons. cbn [list_find].
  destruct (decide (id t = taskId)) as [Heq|Hne].
  - rewrite decide_True by done. simpl. congruence.
  - rewrite decide_False by done.
    destruct (list_find _ subtasks) as [[j u]|] eqn:Hj; [|done].
    simpl. intros [= ->]. specialize (IH eq_refl).
    destruct (list_find _ (_ <$> subtasks)) as [[j' u']|]; simpl in *; congruence.
Qed.

(** C4 (as amended): an iteration after which the loop goes on, on a subtask
    of the plan, adds one entry to the log; when the entry says success or
    warning the subtask has been marked completed, when it says error
    (an exception caught with [stopOnError] unset) the subtasks are as
    they were. *)
Theorem iteration_marks_completed options k i st taskId subtask st' :
  find (s_subtasks st) taskId = Some subtask →
  iteration options k i st taskId = Continue st' →
  ∃ entry,
    s_executionLog st' = s_executionLog st ++ [entry]
    ∧ l_taskId entry = taskId
    ∧ match l_status entry with
      | success | warning =>
          s_subtasks st' = completeSubtask (s_subtasks st) taskId
          ∧ status <$> find (s_subtasks st') taskId = Some completed
      | error => s_subtasks st' = s_subtasks st
      end.
Proof.
  intros Hfind. unfold MicroagentExecutor.iteration. rewrite Hfind.
  destruct (_executeSubtask _ _ _ _ _ _ _) as [r|msg].
  - destruct (votingResult_reliable r).
    + intros [= <-]. eexists. split; [done|]. split; [done|]. simpl.
      split; [done|]. by rewrite (find_completeSubtask _ _ _ Hfind).
    + destruct (requireHighConfidence options).
      * unfold on_error. destruct (stopOnError options); [done|].
        intros [= <-]. eexists. split; [done|]. by split.
      * intros [= <-]. eexists. split; [done|]. split; [done|]. simpl.
        split; [done|]. by rewrite (find_completeSubtask _ _ _ Hfind).
  - unfold on_error. destruct (stopOnError options); [done|].
    intros [= <-]. eexists. split; [done|]. by split.
Qed.
End executor.

Section executor_samples.
Import ResponseValidator VotingManager TaskDecomposer MicroagentExecutor Samples.

Example single_plan_decomposed : decompose [subtask 7 [3%Z]] = Some single_plan.
Proof. vm_compute. reflexivity. Qed.

(** C8, the claim as stated fails: with [criticalTask] set and a base
    threshold of 2, [vote] is called with 3, not with 4. *)
Lemma critical_threshold_counterexample :
  criticalTask critical_options = true
  ∧ calculateOptimalK (Z.of_nat (totalSteps (complexity single_plan)))
                      (Some (or_Q (baseReliability critical_options) 0.7%Q)) = 2%Z
  ∧ vo_k <$> s_voteCalls (executeTask lenient one_token CodeClusterer._jaccardSimilarity
                                      silent single_plan critical_options).2 = [3%Z].
Proof. repeat split; vm_compute; reflexivity. Qed.

(** C4, the claim as stated fails: when [vote] throws and [stopOnError] is
    unset, the error is logged, [executeTask] returns, and the subtask is
    still pending. *)
Lemma error_case_counterexample :
  let outcome := executeTask lenient one_token CodeClusterer._jaccardSimilarity
                             silent single_plan plain_options in
  (∃ summary, outcome.1 = Return summary)
  ∧ l_status <$> s_executionLog outcome.2 = [error]
  ∧ (id <$> s_subtasks outcome.2, status <$> s_subtasks outcome.2)
    = ([1%Z], [pending]).
Proof. split; [eexists|split]; vm_compute; reflexivity. Qed.

Lemma iteration_marks_completed_witness :
  ∃ entry,
    s_executionLog
      (state_of (iteration lenient one_token CodeClusterer._jaccardSimilarity
                           single_answer plain_options 2 0 (initial single_plan) 1))
    = s_executionLog (initial single_plan) ++ [entry]
    ∧ l_taskId entry = 1%Z
    ∧ match l_status entry with
      | success | warning =>
          s_subtasks
            (state_of (iteration lenient one_token CodeClusterer._jaccardSimilarity
                                 single_answer plain_options 2 0 (initial single_plan) 1))
          = completeSubtask (s_subtasks (initial single_plan)) 1
          ∧ status <$> find
              (s_subtasks
                 (state_of (iteration lenient one_token CodeClusterer._jaccardSimilarity
                                      single_answer plain_options 2 0
                                      (initial single_plan) 1))) 1
            = Some TaskDecomposer.completed
      | error =>
          s_subtasks
            (state_of (iteration lenient one_token CodeClusterer._jaccardSimilarity
                                 single_answer plain_options 2 0 (initial single_plan) 1))
          = s_subtasks (initial single_plan)
      end.
Proof.
  apply (iteration_marks_completed lenient one_token CodeClusterer._jaccardSimilarity
           single_answer plain_options 2 0 (initial single_plan) 1 (subtask 1 [])).
  - vm_compute. reflexivity.
  - vm_compute. reflexivity.
Defined.

(** In that run the entry is a warning and the subtask is completed. *)
Example single_answer_run :
  let st := state_of (iteration lenient one_token CodeClusterer._jaccardSimilarity
                                single_answer plain_options 2 0 (initial single_plan) 1) in
  l_status <$> s_executionLog st = [warning]
  ∧ status <$> s_subtasks st = [TaskDecomposer.completed].
Proof. split; vm_compute; reflexivity. Qed.
End executor_samples.

(** ** Normalization of subtasks *)

Section normalization.
Import TaskDecomposer.

Lemma validateSubtasks_length (subtasks : list Subtask) :
  length (_validateSubtasks subtasks) = length subtasks.
Proof. unfold _validateSubtasks. apply length_imap. Qed.

Lemma validateSubtasks_lookup (subtasks : list Subtask) (i : nat) (t' : Subtask) :
  _validateSubtasks subtasks !! i = Some t' →
  ∃ t, subtasks !! i = Some t
       ∧ id t' = (Z.of_nat i + 1)%Z
       ∧ depends t' =
           filter (λ d, 0 < d ∧ d ≤ Z.of_nat (length subtasks))%Z
             ((λ d, match findIndex subtasks d with
                    | Some oldIndex => (Z.of_nat oldIndex + 1)%Z
                    | None => d
                    end) <$> depends t).
Proof.
  unfold _validateSubtasks. rewrite list_lookup_imap.
  destruct (subtasks !! i) as [t|]; [|done].
  intros [= <-]. by exists t.
Qed.

Lemma validateSubtasks_ids (subtasks : list Subtask) :
  id <$> _validateSubtasks subtasks = seqZ 1 (Z.of_nat (length subtasks)).
Proof.
  apply list_eq. intros i. rewrite list_lookup_fmap.
  destruct (decide (i < length subtasks)) as [Hlt|Hge].
  - rewrite lookup_seqZ_lt by lia.
    destruct (_validateSubtasks subtasks !! i) as [t'|] eqn:Hi.
    + apply validateSubtasks_lookup in Hi as (t & _ & Hid & _).
      simpl. rewrite Hid. f_equal. lia.
    + apply lookup_ge_None in Hi. rewrite validateSubtasks_length in Hi. lia.
  - rewrite lookup_seqZ_ge by lia.
    rewrite (proj2 (lookup_ge_None _ _)); [done|].
    rewrite validateSubtasks_length. lia.
Qed.

Lemma findIndex_Some (subtasks : list Subtask) (d : Z) (j : nat) :
  findIndex subtasks d = Some j → j < length subtasks.
Proof.
  unfold findIndex. destruct (list_find _ subtasks) as [[j' u]|] eqn:Hfind; [|done].
  intros [= <-]. apply list_find_Some in Hfind as (Hj & _). simpl.
  by apply lookup_lt_Some in Hj.
Qed.

Lemma validateSubtasks_depends_valid (subtasks : list Subtask) (t' : Subtask) (d : Z) :
  t' ∈ _validateSubtasks subtasks → d ∈ depends t' →
  (1 ≤ d ≤ Z.of_nat (length subtasks))%Z
  ∧ ∃ u, u ∈ _validateSubtasks subtasks ∧ id u = d.
Proof.
  intros [i Hi]%list_elem_of_lookup Hd.
  apply validateSubtasks_lookup in Hi as (t & _ & _ & Hdeps).
  rewrite Hdeps in Hd. apply list_elem_of_filter in Hd as [Hrange _].
  split; [lia|].
  assert (seqZ 1 (Z.of_nat (length subtasks)) !! Z.to_nat (d - 1) = Some d) as Hseq.
  { rewrite lookup_seqZ_lt by lia. f_equal. lia. }
  rewrite <- validateSubtasks_ids, list_lookup_fmap in Hseq.
  destruct (_validateSubtasks subtasks !! Z.to_nat (d - 1)) as [u|] eqn:Hu; [|done].
  exists u. split; [by eapply list_elem_of_lookup_2|]. by injection Hseq.
Qed.

(** C5 (as amended): [_validateSubtasks] numbers its output 1..N in output
    order, and every entry left in a [depends] list is the id of a subtask
    of the output.  A reference to an id that a subtask of the input bears
    is remapped to the new id of the first such subtask and kept, wherever
    that subtask stands (before, after, or the referring subtask itself);
    any other reference is kept as it is when it lies in 1..N and dropped
    when it does not. *)
Theorem validateSubtasks_normalized (subtasks : list Subtask) :
  id <$> _validateSubtasks subtasks = seqZ 1 (Z.of_nat (length subtasks))
  ∧ (∀ t' d, t' ∈ _validateSubtasks subtasks → d ∈ depends t' →
       (1 ≤ d ≤ Z.of_nat (length subtasks))%Z
       ∧ ∃ u, u ∈ _validateSubtasks subtasks ∧ id u = d)
  ∧ (∀ i t t' d, subtasks !! i = Some t → _validateSubtasks subtasks !! i = Some t' →
       d ∈ depends t →
       match findIndex subtasks d with
       | Some j => (Z.of_nat j + 1)%Z ∈ depends t'
       | None => d ∈ depends t' ↔ (1 ≤ d ≤ Z.of_nat (length subtasks))%Z
       end).
Proof.
  split; [apply validateSubtasks_ids|]. split.
  - apply validateSubtasks_depends_valid.
  - intros i t t' d Hi Hi' Hd.
    apply validateSubtasks_lookup in Hi' as (t0 & Ht0 & _ & Hdeps).
    assert (t0 = t) as -> by congruence. rewrite Hdeps.
    destruct (findIndex subtasks d) as [j|] eqn:Hfind.
    + apply list_elem_of_filter. split.
      * apply findIndex_Some in Hfind. lia.
      * apply list_elem_of_fmap. exists d. by rewrite Hfind.
    + rewrite list_elem_of_filter. split.
      * intros [? _]. lia.
      * intros Hrange. split; [lia|].
        apply list_elem_of_fmap. exists d. by rewrite Hfind.
Qed.

(** C5, the claim as stated fails: the first subtask keeps a reference to
    itself and a reference to the subtask that follows it. *)
Lemma validateSubtasks_counterexample :
  id <$> _validateSubtasks [Samples.subtask 1 [1; 2]%Z; Samples.subtask 2 []] = [1; 2]%Z
  ∧ depends <$> _validateSubtasks [Samples.subtask 1 [1; 2]%Z; Samples.subtask 2 []]
    = [[1; 2]%Z; []].
Proof. split; vm_compute; reflexivity. Qed.

(** A reference that matches no id of the input is not dropped when it
    lies in 1..N: it then points at whichever subtask got that number. *)
Example validateSubtasks_retargets :
  depends <$> _validateSubtasks [Samples.subtask 5 [2]%Z; Samples.subtask 7 []]
  = [[2]%Z; []].
Proof. vm_compute. reflexivity. Qed.
End normalization.

(** ** Sorting *)

Section js_sort_facts.
Context {A : Type} (before : A → A → bool).

Lemma sort_insert_Permutation (x : A) (l : list A) :
  sort_insert before x l ≡ₚ x :: l.
Proof.
  induction l as [|y l IH]; [done|]. simpl.
  destruct (before y x); [|done].
  rewrite IH. apply perm_swap.
Qed.

Lemma js_sort_Permutation (l : list A) : js_sort before l ≡ₚ l.
Proof.
  induction l as [|x l IH]; [done|].
  unfold js_sort in *. simpl. by rewrite sort_insert_Permutation, IH.
Qed.

Lemma js_sort_length (l : list A) : length (js_sort before l) = length l.
Proof. by rewrite js_sort_Permutation. Qed.

Lemma js_sort_elem_of (x : A) (l : list A) : x ∈ js_sort before l ↔ x ∈ l.
Proof. by rewrite js_sort_Permutation. Qed.
End js_sort_facts.

(** Sorting with a comparison that decides a transitive relation [R]
    ("at least as large as"): every element of the result is related to
    the elements after it, so the head is a largest element. *)
Section js_sort_ordered.
Context {A : Type} (before : A → A → bool) (R : A → A → Prop).
Hypothesis R_trans : ∀ x y z, R x y → R y z → R x z.
Hypothesis before_true : ∀ x y, before x y = true → R x y.
Hypothesis before_false : ∀ x y, before x y = false → R y x.

Lemma ordered_by_cons (x : A) (l : list A) :
  ordered_by R (x :: l) ↔ (∀ y, y ∈ l → R x y) ∧ ordered_by R l.
Proof.
  split.
  - intros Hd. split.
    + intros y [j Hj]%list_elem_of_lookup. apply (Hd 0 (S j)); [done|done|lia].
    + intros i j a b Hi Hj Hlt. apply (Hd (S i) (S j)); [done|done|lia].
  - intros [Hhd Htl] i j a b Hi Hj Hlt.
    destruct i as [|i], j as [|j]; try lia; simpl in *.
    + injection Hi as <-. apply Hhd. by eapply list_elem_of_lookup_2.
    + apply (Htl i j); [done|done|lia].
Qed.

Lemma sort_insert_ordered (x : A) (l : list A) :
  ordered_by R l → ordered_by R (sort_insert before x l).
Proof.
  induction l as [|y l IH]; intros Hd.
  - simpl. apply ordered_by_cons. split; [|done]. by intros y ?%elem_of_nil.
  - simpl. apply ordered_by_cons in Hd as [Hhd Htl].
    destruct (before y x) eqn:Hyx.
    + apply ordered_by_cons. split; [|by apply IH].
      intros z Hz. rewrite sort_insert_Permutation in Hz.
      apply elem_of_cons in Hz as [->|Hz]; [by apply before_true|by apply Hhd].
    + apply before_false in Hyx. apply ordered_by_cons. split.
      * intros z [->|Hz]%elem_of_cons; [done|]. eapply R_trans; [done|by apply Hhd].
      * apply ordered_by_cons. by split.
Qed.

Lemma js_sort_ordered (l : list A) : ordered_by R (js_sort before l).
Proof.
  induction l as [|x l IH].
  - by intros i j x y ?.
  - unfold js_sort in *. simpl. by apply sort_insert_ordered.
Qed.

Lemma js_sort_head (l : list A) (x : A) (l' : list A) :
  js_sort before l = x :: l' → x ∈ l ∧ ∀ y, y ∈ l → y = x ∨ R x y.
Proof.
  intros Hsort. pose proof (js_sort_ordered l) as Hord.
  rewrite Hsort in Hord. apply ordered_by_cons in Hord as [Hhd _].
  split.
  - rewrite <- (js_sort_Permutation before l), Hsort. apply elem_of_cons. by left.
  - intros y Hy. rewrite <- (js_sort_Permutation before l), Hsort in Hy.
    apply elem_of_cons in Hy as [->|Hy]; [by left|right; by apply Hhd].
Qed.
End js_sort_ordered.

(** ** Clustering *)

Section clustering.
Context {Sc : Type} `{CodeClusterer.Score Sc} {Features : Type}.
Context (extractFeatures : string → Features).
Context (_compareFeaturesEnhanced : Features → Features → Sc).

Import CodeClusterer.
Local Abbreviation Cluster := (CodeClusterer.Cluster Sc).
Local Abbreviation Member := (CodeClusterer.Member Sc).
Local Abbreviation Entry := (CodeClusterer.Entry Features).

Lemma absorb_absorbing (features : list Entry) (simrow : list Sc) (threshold : Sc) n assigned0 st i :
  i < n → absorbing n assigned0 st →
  absorbing n assigned0 (absorb features simrow threshold st i).
Proof.
  intros Hi Hst. destruct st as [[ms sz] assigned].
  destruct Hst as (Hsz & Hnd & Hasg & Hnew). simpl in *.
  unfold absorb. destruct (decide (i ∈ assigned)) as [Hin|Hout]; [done|].
  destruct (simrow !! i) as [similarity|]; [|done].
  destruct (s_geb similarity threshold); [|done].
  assert ((i ∉ assigned0) ∧ (i ∉ (index <$> ms))) as [Hi0 Hims].
  { split; intros ?; apply Hout, Hasg; auto. }
  unfold absorbing. simpl. rewrite fmap_app. simpl.
  split; [|split; [|split]].
  - rewrite length_app. simpl. lia.
  - apply NoDup_app. split; [done|]. split; [|apply NoDup_singleton].
    by intros j Hj ->%list_elem_of_singleton.
  - intros j.
    rewrite elem_of_union, elem_of_singleton, Hasg, elem_of_app, list_elem_of_singleton.
    tauto.
  - intros j [Hj|Hj]%elem_of_app; [by apply Hnew|].
    by apply list_elem_of_singleton in Hj as ->.
Qed.

Lemma absorb_mono (features : list Entry) (simrow : list Sc) (threshold : Sc) st i :
  st.2 ⊆ (absorb features simrow threshold st i).2.
Proof.
  destruct st as [[ms sz] assigned]. unfold absorb. simpl.
  destruct (decide (i ∈ assigned)); [reflexivity|].
  destruct (simrow !! i) as [similarity|]; [|reflexivity].
  destruct (s_geb similarity threshold); [|reflexivity].
  simpl. intros j Hj. apply elem_of_union. by right.
Qed.

Lemma foldl_absorb_absorbing (features : list Entry) (simrow : list Sc) (threshold : Sc) n assigned0 l : ∀ st,
  Forall (λ i, i < n) l → absorbing n assigned0 st →
  absorbing n assigned0 (foldl (absorb features simrow threshold) st l)
  ∧ st.2 ⊆ (foldl (absorb features simrow threshold) st l).2.
Proof.
  induction l as [|i l IH]; intros st Hl Hst; [done|].
  apply Forall_cons in Hl as [Hi Hl]. simpl.
  destruct (IH (absorb features simrow threshold st i) Hl) as [Hinv Hsub].
  { by apply absorb_absorbing. }
  split; [done|]. etrans; [apply absorb_mono|done].
Qed.

Lemma member_indices_snoc (clusters : list Cluster) (c : Cluster) :
  member_indices (clusters ++ [c]) = member_indices clusters ++ (index <$> members c).
Proof. unfold member_indices. rewrite bind_app. simpl. by rewrite app_nil_r. Qed.

Lemma grow_clustered (features : list Entry) (similarityMatrix : list (list Sc)) (threshold : Sc)
    (st : list Cluster * gset nat) (candidate : Seed Sc) :
  seed_index candidate < length features →
  clustered (length features) st →
  clustered (length features) (grow features similarityMatrix threshold st candidate)
  ∧ seed_index candidate ∈ (grow features similarityMatrix threshold st candidate).2
  ∧ st.2 ⊆ (grow features similarityMatrix threshold st candidate).2.
Proof.
  intros Hc Hst. destruct st as [clusters assigned].
  unfold grow. destruct (decide (seed_index candidate ∈ assigned)) as [Hin|Hout]; [done|].
  destruct Hst as (Hsz & Hnd & Hasg & Hlt). simpl in *.
  match goal with |- context [foldl ?f ?s ?l] =>
    pose proof (foldl_absorb_absorbing features
                  (row similarityMatrix (seed_index candidate)) threshold
                  (length features) assigned l s) as Hinner;
    destruct (foldl f s l) as [[ms sz] assigned'] end.
  destruct Hinner as ((Hsz' & Hnd' & Hasg' & Hnew') & Hsub).
  { apply Forall_forall. intros i Hi%elem_of_seq. lia. }
  { unfold absorbing. simpl. split; [done|]. split; [apply NoDup_singleton|]. split.
    - intros i. rewrite elem_of_union, elem_of_singleton, list_elem_of_singleton. tauto.
    - by intros i ->%list_elem_of_singleton. }
  simpl in *. split; [|split].
  - unfold clustered. simpl. rewrite member_indices_snoc. simpl.
    split; [|split; [|split]].
    + apply Forall_app. split; [done|]. by apply Forall_singleton.
    + apply NoDup_app. split; [done|]. split; [|done].
      intros i Hi Hi'. apply Hnew' in Hi' as [Hi' _]. by apply Hi', Hasg.
    + intros i. rewrite Hasg', Hasg, elem_of_app. tauto.
    + intros i [Hi|Hi]%elem_of_app; [by apply Hlt|by apply Hnew'].
  - apply Hsub, elem_of_union_l, elem_of_singleton. done.
  - intros i Hi. apply Hasg'. by left.
Qed.
Lemma foldl_grow_clustered (features : list Entry) (similarityMatrix : list (list Sc))
    (threshold : Sc) (candidates : list (Seed Sc)) : ∀ st : list Cluster * gset nat,
  Forall (λ c, seed_index c < length features) candidates →
  clustered (length features) st →
  clustered (length features)
    (foldl (grow features similarityMatrix threshold) st candidates)
  ∧ (∀ c, c ∈ candidates →
       seed_index c ∈ (foldl (grow features similarityMatrix threshold) st candidates).2)
  ∧ st.2 ⊆ (foldl (grow features similarityMatrix threshold) st candidates).2.
Proof.
  induction candidates as [|c candidates IH]; intros st Hcs Hst.
  - split; [done|]. split; [|reflexivity]. by intros c ?%elem_of_nil.
  - apply Forall_cons in Hcs as [Hc Hcs]. simpl.
    destruct (grow_clustered features similarityMatrix threshold st c Hc Hst)
      as (Hst' & Hin & Hsub).
    destruct (IH _ Hcs Hst') as (Hfin & Hall & Hsub').
    split; [done|]. split.
    + intros c' [->|Hc']%elem_of_cons; [by apply Hsub'|by apply Hall].
    + by etrans.
Qed.

Lemma seeds_indices {B : Type} (g : nat → Sc) (l : list B) :
  seed_index <$> imap (λ i _, {| seed_index := i; seed_avgSimilarity := g i |}) l
  = seq 0 (length l).
Proof.
  rewrite fmap_imap. unfold compose. simpl.
  rewrite (imap_seq_0 l (λ j, j)). apply list_fmap_id.
Qed.

Lemma member_indices_Permutation (cs cs' : list Cluster) :
  cs ≡ₚ cs' → member_indices cs ≡ₚ member_indices cs'.
Proof.
  unfold member_indices. induction 1 as [|c cs cs' _ IH|c c' cs|cs cs' cs'' _ IH _ IH'].
  - done.
  - rewrite !bind_cons. by rewrite IH.
  - rewrite !bind_cons, !app_assoc. f_equiv. apply Permutation_app_comm.
  - by etrans.
Qed.

Lemma sum_sizes (cs : list Cluster) :
  Forall (λ c, size c = length (members c)) cs →
  sum_list (size <$> cs) = length (member_indices cs).
Proof.
  unfold member_indices. induction 1 as [|c cs Hc _ IH]; [done|].
  rewrite fmap_cons, bind_cons, length_app, length_fmap. simpl. lia.
Qed.

Lemma greedyCluster_partition (features : list Entry) (similarityMatrix : list (list Sc))
    (threshold : Sc) :
  Forall (λ c, size c = length (members c))
         (_greedyCluster features similarityMatrix threshold)
  ∧ member_indices (_greedyCluster features similarityMatrix threshold)
    ≡ₚ seq 0 (length features).
Proof.
  unfold _greedyCluster.
  match goal with |- context [foldl ?f ?s ?l] =>
    destruct (foldl_grow_clustered features similarityMatrix threshold l s)
      as ((Hsz & Hnd & Hasg & Hlt) & Hall & _) end.
  { apply Forall_forall. intros c Hc%js_sort_elem_of.
    assert (seed_index c ∈ seq 0 (length features)) as Hi%elem_of_seq; [|lia].
    rewrite <- (seeds_indices (λ i, s_divn (sum_scores (row similarityMatrix i))
                                           (length features)) features).
    by apply list_elem_of_fmap_2. }
  { unfold clustered, member_indices. simpl.
    split; [done|]. split; [apply NoDup_nil_2|]. split; [|by intros i ?%elem_of_nil].
    intros i. by rewrite elem_of_empty, elem_of_nil. }
  match type of Hsz with Forall _ ?cs => set (clusters := cs) in * end.
  split.
  - by rewrite js_sort_Permutation.
  - rewrite (member_indices_Permutation _ _ (js_sort_Permutation _ clusters)).
    apply NoDup_Permutation; [done|apply NoDup_seq|].
    intros i. rewrite elem_of_seq. split; [intros ?%Hlt; lia|].
    intros [_ Hi]. apply Hasg.
    assert (i ∈ seq 0 (length features)) as Hseq by (apply elem_of_seq; lia).
    rewrite <- (seeds_indices (λ i, s_divn (sum_scores (row similarityMatrix i))
                                           (length features)) features) in Hseq.
    apply list_elem_of_fmap in Hseq as (c & -> & Hc).
    apply Hall. by apply js_sort_elem_of.
Qed.

Lemma cluster_members (responses : list string) (threshold : Sc) :
  Forall (λ c, size c = length (members c))
         (cluster extractFeatures _compareFeaturesEnhanced responses threshold)
  ∧ member_indices (cluster extractFeatures _compareFeaturesEnhanced responses threshold)
    ≡ₚ seq 0 (length responses).
Proof.
  unfold cluster. destruct responses as [|r [|r' responses]].
  - done.
  - split; [by apply Forall_singleton|done].
  - match goal with |- context [_greedyCluster ?fs ?m ?t] =>
      destruct (greedyCluster_partition fs m t) as [Hsz Hperm];
      rewrite length_imap in Hperm end.
    done.
Qed.

(** C2: the clusters [cluster] returns are a partition of the responses:
    their sizes add up to the number of responses, no response index is in
    two clusters (or twice in one), and every index 0..n-1 is in one; the
    size of a cluster is the number of its members. *)
Theorem cluster_partition (responses : list string) (threshold : Sc) :
  sum_list (size <$> cluster extractFeatures _compareFeaturesEnhanced responses threshold)
  = length responses
  ∧ NoDup (member_indices
             (cluster extractFeatures _compareFeaturesEnhanced responses threshold))
  ∧ member_indices (cluster extractFeatures _compareFeaturesEnhanced responses threshold)
    ≡ₚ seq 0 (length responses)
  ∧ Forall (λ c, size c = length (members c))
           (cluster extractFeatures _compareFeaturesEnhanced responses threshold).
Proof.
  destruct (cluster_members responses threshold) as [Hsz Hperm].
  split; [|split; [|done]].
  - by rewrite (sum_sizes _ Hsz), Hperm, length_seq.
  - rewrite Hperm. apply NoDup_seq.
Qed.
End clustering.

(** ** Voting *)

Section voting.
Import CodeClusterer ResponseValidator VotingManager.
Context (validate : string → ValidationResult).
Context {Features : Type}.
Context (extractFeatures : string → Features).
Context (_compareFeaturesEnhanced : Features → Features → Q).

Local Abbreviation vote := (vote validate extractFeatures _compareFeaturesEnhanced).
Local Abbreviation confidence_of :=
  (λ c : Candidate, ResponseValidator.confidence (validate (content c))).

Lemma Qle_bool_false (x y : Q) : Qle_bool x y = false → (y <= x)%Q.
Proof.
  intros Hb. apply Qlt_le_weak, Qnot_le_lt. intros Hle.
  apply Qle_bool_iff in Hle. congruence.
Qed.

(** C6: when candidates were generated and none of them passes validation,
    [vote] returns the content of a candidate whose validator confidence no
    other candidate exceeds, with confidence 0.3, [reliable] false,
    [validCandidates] 0 and a warning that is not empty. *)
Theorem vote_all_invalid (options_k : option Z) (candidates : list Candidate) :
  candidates ≠ [] →
  (∀ c, c ∈ candidates → valid (validate (content c)) = false) →
  ∃ r best w,
    vote options_k candidates = Return r
    ∧ best ∈ candidates
    ∧ (∀ c, c ∈ candidates → (confidence_of c <= confidence_of best)%Q)
    ∧ winner r = content best
    ∧ VotingManager.confidence r = 0.3%Q
    ∧ reliable (votingStats r) = false
    ∧ validCandidates (votingStats r) = 0
    ∧ totalCandidates (votingStats r) = length candidates
    ∧ warning r = Some w ∧ w ≠ ""%string.
Proof.
  intros Hne Hinvalid. unfold VotingManager.vote.
  rewrite decide_False by (by destruct candidates).
  assert (filter (λ c, valid (validate (content c)) = true) candidates = []) as ->.
  { destruct (filter _ candidates) as [|c l] eqn:Hf; [done|].
    assert (c ∈ filter (λ c, valid (validate (content c)) = true) candidates) as Hc.
    { rewrite Hf. apply elem_of_cons. by left. }
    apply list_elem_of_filter in Hc as [Hv Hc]. rewrite (Hinvalid c Hc) in Hv. done. }
  rewrite decide_True by done.
  destruct (js_sort _ candidates) as [|best rest] eqn:Hsort.
  { apply (f_equal length) in Hsort. rewrite js_sort_length in Hsort.
    by destruct candidates. }
  apply (js_sort_head _ (λ x y, confidence_of y <= confidence_of x)%Q) in Hsort
    as [Hbest Hmax].
  - eexists _, best, _. repeat split; try done.
    intros c Hc. destruct (Hmax c Hc) as [->|Hle]; [apply Qle_refl|done].
  - intros x y z Hxy Hyz. by eapply Qle_trans.
  - intros x y Hb. apply negb_true_iff in Hb. by apply Qle_bool_false.
  - intros x y Hb. apply negb_false_iff in Hb. by apply Qle_bool_iff.
Qed.
Lemma two_or_more {A B : Type} (l : list A) (one : A → B) (many : B) :
  2 ≤ length l → match l with [x] => one x | _ => many end = many.
Proof. destruct l as [|x [|y l]]; simpl; [lia..|done]. Qed.

Lemma tally_spec (clusters : list (Cluster Q)) :
  v_cluster <$> tally clusters ≡ₚ clusters
  ∧ Forall (λ v, votes v = size (v_cluster v)
                 ∧ v_representative v = representative (v_cluster v)) (tally clusters)
  ∧ ordered_by (λ x y, votes y ≤ votes x) (tally clusters).
Proof.
  unfold tally. split; [|split].
  - rewrite js_sort_Permutation.
    match goal with |- ?l ≡ₚ _ => replace l with clusters; [done|] end.
    apply list_eq. intros i. rewrite list_lookup_fmap, list_lookup_imap.
    by destruct (clusters !! i).
  - apply Forall_forall. intros v Hv%js_sort_elem_of.
    apply list_elem_of_lookup in Hv as [i Hi]. rewrite list_lookup_imap in Hi.
    destruct (clusters !! i); [|done]. by injection Hi as <-.
  - apply js_sort_ordered.
    + intros x y z ? ?. lia.
    + intros x y Hb%Nat.ltb_lt. lia.
    + intros x y Hb%Nat.ltb_ge. done.
Qed.

Lemma max_list_ordered (l : list Vote) :
  ordered_by (λ x y, votes y ≤ votes x) l →
  from_option votes 0 (head l) = max_list (votes <$> l).
Proof.
  destruct l as [|v l]; [done|]. intros [Hhd _]%ordered_by_cons.
  change (votes v = votes v `max` max_list (votes <$> l)).
  symmetry. apply Nat.max_l.
  destruct (decide (votes <$> l = [])) as [->|Hne]; [simpl; lia|].
  apply max_list_elem_of in Hne. apply list_elem_of_fmap in Hne as (y & -> & Hy).
  by apply Hhd.
Qed.

(** C1: when at least two candidates pass validation, [vote] returns the
    representative of a cluster that has at least as many members as every
    other cluster; the runner-up votes are the largest size among the other
    clusters (0 when there is none), the margin is the difference of the
    two, and [reliable] is true exactly when the margin is at least [k]. *)
Theorem vote_winner (options_k : option Z) (candidates : list Candidate) :
  2 ≤ length (filter (λ c, valid (validate (content c)) = true) candidates) →
  ∃ r top others,
    vote options_k candidates = Return r
    ∧ cluster extractFeatures _compareFeaturesEnhanced
        (content <$> filter (λ c, valid (validate (content c)) = true) candidates)
        similarityThreshold ≡ₚ top :: others
    ∧ (∀ c, c ∈ others → size c ≤ size top)
    ∧ winner r = representative top
    ∧ winnerVotes (votingStats r) = Some (size top)
    ∧ runnerUpVotes (votingStats r) = Some (max_list (size <$> others))
    ∧ margin (votingStats r)
      = Some (Z.of_nat (size top) - Z.of_nat (max_list (size <$> others)))%Z
    ∧ votesNeeded (votingStats r) = or_default options_k defaultK
    ∧ reliable (votingStats r)
      = bool_decide (or_default options_k defaultK
                     ≤ Z.of_nat (size top) - Z.of_nat (max_list (size <$> others)))%Z.
Proof.
  intros Hvalid. unfold VotingManager.vote.
  pose proof (length_filter (λ c, valid (validate (content c)) = true) candidates)
    as Hlen.
  remember (filter (λ c, valid (validate (content c)) = true) candidates)
    as validCandidates eqn:Hvc. clear Hvc.
  rewrite decide_False by lia. rewrite decide_False by lia.
  rewrite two_or_more by done.
  set (clusters := cluster extractFeatures _compareFeaturesEnhanced
                     (content <$> validCandidates) similarityThreshold).
  destruct (tally_spec clusters) as (Hperm & Hfields & Hord).
  destruct (tally clusters) as [|w rest'] eqn:Htally.
  { destruct (cluster_members extractFeatures _compareFeaturesEnhanced
                (content <$> validCandidates) similarityThreshold) as (_ & Hall).
    fold clusters in Hall. simpl in Hperm. apply Permutation_nil_l in Hperm.
    rewrite <- Hperm in Hall. apply Permutation_length in Hall.
    rewrite length_seq, length_fmap in Hall. simpl in Hall. lia. }
  apply Forall_cons in Hfields as [[Hvotes Hrep] Hfields].
  assert (votes <$> rest' = size <$> (v_cluster <$> rest')) as Hsizes.
  { rewrite <- list_fmap_compose. apply Forall_fmap_ext_1.
    eapply Forall_impl; [done|]. by intros v [? _]. }
  pose proof (max_list_ordered rest') as Hmax.
  apply ordered_by_cons in Hord as [Hhd Hord]. specialize (Hmax Hord).
  eexists _, (v_cluster w), (v_cluster <$> rest').
  split; [done|]. simpl. rewrite Hmax, Hsizes, Hvotes.
  split; [by symmetry|]. split; [|done].
  intros c (v & -> & Hv)%list_elem_of_fmap. rewrite <- Hvotes.
  rewrite Forall_forall in Hfields. destruct (Hfields v Hv) as [<- _].
  by apply Hhd.
Qed.
End voting.

Section voting_samples.
Import CodeClusterer ResponseValidator VotingManager Samples.

Lemma strict_invalid (code : string) : valid (strict code) = false.
Proof. unfold strict, validate. by case_bool_decide. Qed.

Lemma vote_all_invalid_witness :
  ∃ r best,
    vote strict one_token _jaccardSimilarity (Some 3%Z)
         [candidate 0 "sorry"; candidate 1 "I apologize"] = Return r
    ∧ winner r = content best
    ∧ VotingManager.confidence r = 0.3%Q
    ∧ reliable (votingStats r) = false.
Proof.
  destruct (vote_all_invalid strict one_token _jaccardSimilarity (Some 3%Z)
              [candidate 0 "sorry"; candidate 1 "I apologize"])
    as (r & best & w & Hvote & _ & _ & Hwinner & Hconf & Hrel & _).
  - discriminate.
  - intros c _. apply strict_invalid.
  - exists r, best. split; [exact Hvote|]. split; [exact Hwinner|].
    split; [exact Hconf|exact Hrel].
Defined.

Lemma vote_winner_witness :
  ∃ (r : VotingResult) (top : Cluster Q),
    vote lenient one_token _jaccardSimilarity (Some 2%Z)
         [candidate 0 "f()"; candidate 1 "g()"; candidate 2 "f()"] = Return r
    ∧ winner r = representative top
    ∧ winnerVotes (votingStats r) = Some (size top).
Proof.
  destruct (vote_winner lenient one_token _jaccardSimilarity (Some 2%Z)
              [candidate 0 "f()"; candidate 1 "g()"; candidate 2 "f()"])
    as (r & top & others & Hvote & _ & _ & Hwinner & Hvotes & _).
  - vm_compute. lia.
  - exists r, top. split; [exact Hvote|]. split; [exact Hwinner|exact Hvotes].
Defined.

(** Five identical valid candidates and k = 3: one cluster of size 5, a
    margin of 5, a reliable winner. *)
Example vote_identical :
  (λ r, (winner r, clusterCount (votingStats r), margin (votingStats r),
         reliable (votingStats r), warning r))
    <$> returned (vote lenient one_token _jaccardSimilarity (Some 3%Z)
                       (imap candidate (replicate 5 "f()"%string)))
  = Some ("f()"%string, 1, Some 5%Z, true, None).
Proof. vm_compute. reflexivity. Qed.

(** Five valid candidates with nothing in common: five clusters of size 1,
    a margin of 0, no reliable winner. *)
Example vote_disjoint :
  (λ r, (clusterCount (votingStats r), margin (votingStats r),
         reliable (votingStats r), warning r))
    <$> returned (vote lenient one_token _jaccardSimilarity (Some 2%Z)
                       (imap candidate ["a"; "b"; "c"; "d"; "e"]%string))
  = Some (5, Some 0%Z, false,
          Some "Margin (0) below threshold (k=2) - result may be unreliable"%string).
Proof. vm_compute. reflexivity. Qed.

(** With the confidence the validator computes, every invalid candidate
    scores 0, and the stable sort leaves the first candidate in front. *)
Example least_bad_is_first :
  winner <$> returned (vote strict one_token _jaccardSimilarity None
                            [candidate 0 "sorry"; candidate 1 "I apologize"])
  = Some "sorry"%string.
Proof. vm_compute. reflexivity. Qed.

(** The clusters of three responses, two of them equal. *)
Example cluster_sample :
  (λ c, (representative c, index <$> members c, size c))
    <$> cluster one_token _jaccardSimilarity ["g()"; "f()"; "f()"]%string 0.7%Q
  = [("f()"%string, [1; 2], 2); ("g()"%string, [0], 1)].
Proof. vm_compute. reflexivity. Qed.
End voting_samples.

(** ** Execution order *)

Section topological_sort.
Import TaskDecomposer.
Context (graph : gmap Z Node).

Lemma visit_S (fuel : nat) (nodeId : Z) (st : gset Z * list Z) :
  visit graph (S fuel) nodeId st =
  if decide (nodeId ∈ st.1) then Some st
  else match graph !! nodeId with
       | Some node =>
           st' ← visit_all graph fuel (dependsOn node) ({[ nodeId ]} ∪ st.1, st.2);
           Some (st'.1, st'.2 ++ [nodeId])
       | None => Some ({[ nodeId ]} ∪ st.1, st.2)
       end.
Proof. reflexivity. Qed.

Lemma visit_all_nil (fuel : nat) (st : gset Z * list Z) :
  visit_all graph fuel [] st = Some st.
Proof. reflexivity. Qed.

Lemma visit_all_cons (fuel : nat) (d : Z) (l : list Z) (st : gset Z * list Z) :
  visit_all graph fuel (d :: l) st = visit graph fuel d st ≫= visit_all graph fuel l.
Proof.
  unfold visit_all. simpl. destruct (visit graph fuel d st) as [st'|]; [done|].
  simpl. induction l as [|x l IH]; [done|]. simpl. apply IH.
Qed.

Lemma emits_refl (st : gset Z * list Z) : emits graph st st.
Proof.
  split; [done|]. exists []. rewrite app_nil_r. split; [done|].
  split; [apply NoDup_nil_2|]. intros x. rewrite elem_of_nil. tauto.
Qed.

Lemma emits_trans (st1 st2 st3 : gset Z * list Z) :
  emits graph st1 st2 → emits graph st2 st3 → emits graph st1 st3.
Proof.
  intros (Hsub1 & new1 & Ho1 & Hnd1 & Hnew1) (Hsub2 & new2 & Ho2 & Hnd2 & Hnew2).
  split; [by etrans|]. exists (new1 ++ new2).
  split; [by rewrite Ho2, Ho1, app_assoc|]. split.
  - apply NoDup_app. split; [done|]. split; [|done].
    intros x Hx1 Hx2. apply Hnew1 in Hx1 as (Hx1 & _). apply Hnew2 in Hx2 as (_ & Hx2 & _).
    done.
  - intros x. rewrite elem_of_app, Hnew1, Hnew2. split.
    + intros [(? & ? & ?)|(? & ? & ?)]; (split; [|split]); auto.
    + intros (Hx3 & Hx1 & Hdom). destruct (decide (x ∈ st2.1)); auto.
Qed.

(** What [visit] and [visit_all] do when they return. *)
Lemma visit_emits (fuel : nat) : ∀ (n : Z) (st st' : gset Z * list Z),
  visit graph fuel n st = Some st' → emits graph st st' ∧ n ∈ st'.1.
Proof.
  induction fuel as [|fuel IH]; intros n st st'; [done|].
  assert (∀ l st1 st2, visit_all graph fuel l st1 = Some st2 → emits graph st1 st2)
    as IHall.
  { induction l as [|d l IHl]; intros st1 st2.
    - rewrite visit_all_nil. intros [= <-]. apply emits_refl.
    - rewrite visit_all_cons. destruct (visit graph fuel d st1) as [st1'|] eqn:Hd; [|done].
      simpl. intros Hl. eapply emits_trans; [by apply (IH d)|by apply IHl]. }
  rewrite visit_S. destruct (decide (n ∈ st.1)) as [Hin|Hout].
  { intros [= <-]. split; [apply emits_refl|done]. }
  destruct (graph !! n) as [node|] eqn:Hn.
  - destruct (visit_all graph fuel _ _) as [st1|] eqn:Hall; [|done].
    simpl. intros [= <-]. apply IHall in Hall as (Hsub & new & Ho & Hnd & Hnew).
    simpl in *. assert (n ∈ st1.1) as Hn1 by (apply Hsub, elem_of_union_l, elem_of_singleton; done).
    split; [|done]. split.
    + simpl. intros x Hx. apply Hsub, elem_of_union_r, Hx.
    + exists (new ++ [n]). simpl. split; [by rewrite Ho, app_assoc|]. split.
      * apply NoDup_app. split; [done|]. split; [|apply NoDup_singleton].
        intros x Hx ->%list_elem_of_singleton. apply Hnew in Hx as (_ & Hx & _).
        apply Hx, elem_of_union_l, elem_of_singleton. done.
      * intros x. rewrite elem_of_app, list_elem_of_singleton, Hnew.
        rewrite elem_of_union, elem_of_singleton. split.
        -- intros [(? & ? & ?)| ->]; [tauto|].
           split; [done|]. split; [done|]. apply elem_of_dom. by eexists.
        -- intros (? & ? & ?). destruct (decide (x = n)); [by right|left]. tauto.
  - intros [= <-]. simpl. split; [|apply elem_of_union_l, elem_of_singleton; done].
    split; [simpl; apply union_subseteq_r|]. exists []. simpl.
    rewrite app_nil_r. split; [done|]. split; [apply NoDup_nil_2|].
    intros x. rewrite elem_of_nil, elem_of_union, elem_of_singleton. split; [done|].
    intros ([->|?] & ? & Hdom); [|done].
    apply elem_of_dom in Hdom as [? ?]. congruence.
Qed.

Lemma visit_all_emits (fuel : nat) : ∀ (l : list Z) (st st' : gset Z * list Z),
  visit_all graph fuel l st = Some st' →
  emits graph st st' ∧ ∀ d, d ∈ l → d ∈ st'.1.
Proof.
  induction l as [|d l IHl]; intros st st'.
  - rewrite visit_all_nil. intros [= <-]. split; [apply emits_refl|].
    by intros d ?%elem_of_nil.
  - rewrite visit_all_cons. destruct (visit graph fuel d st) as [st1|] eqn:Hd; [|done].
    simpl. intros Hl. apply visit_emits in Hd as [Hd Hin].
    apply IHl in Hl as [Hl Hall]. split; [by eapply emits_trans|].
    intros x [->|Hx]%elem_of_cons; [|by apply Hall].
    destruct Hl as [Hsub _]. by apply Hsub.
Qed.
(** [visit] returns when it has more fuel than there are nodes of the
    graph left to visit. *)
Lemma unvisited_mono (V V' : gset Z) :
  V ⊆ V' → size (dom graph ∖ V') ≤ size (dom graph ∖ V).
Proof.
  intros Hsub. apply subseteq_size. intros x [Hx Hout]%elem_of_difference.
  apply elem_of_difference. split; [done|]. intros Hin. by apply Hout, Hsub.
Qed.

Lemma unvisited_less (n : Z) (V : gset Z) :
  n ∈ dom graph → n ∉ V → size (dom graph ∖ ({[ n ]} ∪ V)) < size (dom graph ∖ V).
Proof.
  intros Hdom Hout. apply subset_size. split.
  - intros x [Hx Hx']%elem_of_difference. apply elem_of_difference.
    split; [done|]. intros Hin. by apply Hx', elem_of_union_r.
  - intros Hsub. assert (n ∈ dom graph ∖ ({[ n ]} ∪ V)) as Hn.
    { apply Hsub, elem_of_difference. by split. }
    apply elem_of_difference in Hn as [_ Hn].
    apply Hn, elem_of_union_l, elem_of_singleton. done.
Qed.

Lemma visit_returns (fuel : nat) : ∀ (n : Z) (st : gset Z * list Z),
  size (dom graph ∖ st.1) < fuel → is_Some (visit graph fuel n st).
Proof.
  induction fuel as [|fuel IH]; intros n st Hfuel; [lia|].
  assert (∀ l st1, size (dom graph ∖ st1.1) < fuel →
                   is_Some (visit_all graph fuel l st1)) as IHall.
  { induction l as [|d l IHl]; intros st1 Hst1.
    - by rewrite visit_all_nil.
    - rewrite visit_all_cons.
      destruct (IH d st1 Hst1) as [st1' Hd]. rewrite Hd. simpl.
      apply IHl. apply visit_emits in Hd as [[Hsub _] _].
      pose proof (unvisited_mono _ _ Hsub). lia. }
  rewrite visit_S. destruct (decide (n ∈ st.1)) as [Hin|Hout]; [done|].
  destruct (graph !! n) as [node|] eqn:Hn; [|done].
  destruct (IHall (dependsOn node) ({[ n ]} ∪ st.1, st.2)) as [st1 Hall].
  { simpl. assert (n ∈ dom graph) as Hdom by (apply elem_of_dom; by eexists).
    pose proof (unvisited_less n st.1 Hdom Hout). lia. }
  by rewrite Hall.
Qed.

Lemma visit_all_returns (fuel : nat) : ∀ (l : list Z) (st : gset Z * list Z),
  size (dom graph ∖ st.1) < fuel → is_Some (visit_all graph fuel l st).
Proof.
  induction l as [|d l IHl]; intros st Hst.
  - by rewrite visit_all_nil.
  - rewrite visit_all_cons.
    destruct (visit_returns fuel d st Hst) as [st' Hd]. rewrite Hd. simpl.
    apply IHl. apply visit_emits in Hd as [[Hsub _] _].
    pose proof (unvisited_mono _ _ Hsub). lia.
Qed.

(** More fuel does not change what [visit] returns. *)
Lemma visit_fuel_mono (fuel : nat) : ∀ (n : Z) (st st' : gset Z * list Z),
  visit graph fuel n st = Some st' → visit graph (S fuel) n st = Some st'.
Proof.
  induction fuel as [|fuel IH]; intros n st st'; [done|].
  assert (∀ l st1 st2, visit_all graph fuel l st1 = Some st2 →
                       visit_all graph (S fuel) l st1 = Some st2) as IHall.
  { induction l as [|d l IHl]; intros st1 st2; [done|].
    rewrite !visit_all_cons.
    destruct (visit graph fuel d st1) as [st1'|] eqn:Hd; [|done].
    rewrite (IH _ _ _ Hd). simpl. apply IHl. }
  rewrite (visit_S fuel), (visit_S (S fuel)).
  destruct (decide (n ∈ st.1)); [done|].
  destruct (graph !! n) as [node|]; [|done].
  destruct (visit_all graph fuel _ _) as [st1|] eqn:Hall; [|done].
  by rewrite (IHall _ _ _ Hall).
Qed.

Lemma visit_all_fuel_mono (fuel : nat) : ∀ (l : list Z) (st st' : gset Z * list Z),
  visit_all graph fuel l st = Some st' → visit_all graph (S fuel) l st = Some st'.
Proof.
  induction l as [|d l IHl]; intros st st'; [done|].
  rewrite !visit_all_cons.
  destruct (visit graph fuel d st) as [st1|] eqn:Hd; [|done].
  rewrite (visit_fuel_mono _ _ _ _ Hd). simpl. apply IHl.
Qed.

Lemma object_keys_elem_of (n : Z) : n ∈ object_keys graph ↔ n ∈ dom graph.
Proof. unfold object_keys. by rewrite merge_sort_Permutation, elem_of_elements. Qed.

Lemma topologicalSort_returns :
  ∃ order, _topologicalSort graph = Some order
           ∧ NoDup order
           ∧ (∀ n, n ∈ order ↔ n ∈ dom graph).
Proof.
  unfold _topologicalSort.
  destruct (visit_all_returns (S (size graph)) (object_keys graph) (∅, [])) as [st Hst].
  { simpl. rewrite difference_empty_L, size_dom. lia. }
  rewrite Hst. exists st.2. split; [done|].
  apply visit_all_emits in Hst as [(_ & new & Ho & Hnd & Hnew) Hkeys].
  simpl in Ho. subst new. split; [done|].
  intros n. rewrite Hnew. simpl. split; [tauto|]. intros Hn.
  split; [by apply Hkeys, object_keys_elem_of|]. split; [apply not_elem_of_empty|done].
Qed.

(** The bound on the fuel is not felt: any larger one gives the same
    order. *)
Lemma topologicalSort_fuel (extra : nat) :
  snd <$> visit_all graph (extra + S (size graph)) (object_keys graph) (∅, [])
  = _topologicalSort graph.
Proof.
  destruct topologicalSort_returns as (order & Hsort & _). rewrite Hsort.
  unfold _topologicalSort in Hsort.
  destruct (visit_all graph (S (size graph)) _ _) as [st|] eqn:Hst; [|done].
  induction extra as [|extra IH]; simpl.
  - by rewrite Hst.
  - destruct (visit_all graph (extra + S (size graph)) _ _) as [st'|] eqn:Hst'; [|done].
    by rewrite (visit_all_fuel_mono _ _ _ _ Hst').
Qed.

(** C10: on every dependency graph, with or without cycles,
    [_topologicalSort] returns, and the list it returns holds every node id
    of the graph exactly once (and nothing else). *)
Theorem topologicalSort_total :
  ∃ order, _topologicalSort graph = Some order
           ∧ NoDup order
           ∧ (∀ n, n ∈ order ↔ n ∈ dom graph)
           ∧ order ≡ₚ object_keys graph.
Proof.
  destruct topologicalSort_returns as (order & Hsort & Hnd & Hdom).
  exists order. split; [done|]. split; [done|]. split; [done|].
  apply NoDup_Permutation; [done| |].
  - unfold object_keys. rewrite merge_sort_Permutation. apply NoDup_elements.
  - intros n. by rewrite Hdom, object_keys_elem_of.
Qed.
Lemma precedes_app (order new : list Z) (d n : Z) :
  precedes order d n → precedes (order ++ new) d n.
Proof.
  intros (i & j & Hi & Hj & Hlt). exists i, j.
  split; [by apply lookup_app_l_Some|]. split; [by apply lookup_app_l_Some|done].
Qed.

Lemma emits_accounted (pending : gset Z) (st st' : gset Z * list Z) :
  emits graph st st' → accounted graph pending st → accounted graph pending st'.
Proof.
  intros (Hsub & new & Ho & _ & Hnew) Hacc x Hx Hdom. rewrite Ho.
  destruct (decide (x ∈ st.1)) as [Hin|Hout].
  - destruct (Hacc x Hin Hdom) as [Hxo|Hxp]; [left|by right].
    apply elem_of_app. by left.
  - left. apply elem_of_app. right. by apply Hnew.
Qed.

Section acyclic.
Hypothesis graph_acyclic : acyclic graph.

(** On a graph without a cycle, a dependency of the node being visited is
    never one of the pending nodes, so it is in [order] when the node is
    added. *)
Lemma visit_respects (fuel : nat) :
  ∀ (n : Z) (st st' : gset Z * list Z) (pending : gset Z),
  visit graph fuel n st = Some st' →
  accounted graph pending st →
  (∀ a, a ∈ pending → tc (edge graph) a n) →
  respects graph st.2 →
  respects graph st'.2.
Proof.
  induction fuel as [|fuel IH]; intros n st st' pending; [done|].
  assert (∀ l st1 st2 pending', visit_all graph fuel l st1 = Some st2 →
            accounted graph pending' st1 →
            (∀ a d, a ∈ pending' → d ∈ l → tc (edge graph) a d) →
            respects graph st1.2 → respects graph st2.2) as IHall.
  { induction l as [|d l IHl]; intros st1 st2 pending'.
    - rewrite visit_all_nil. by intros [= <-].
    - rewrite visit_all_cons. destruct (visit graph fuel d st1) as [st1'|] eqn:Hd; [|done].
      simpl. intros Hl Hacc Hreach Hres.
      apply (IHl st1' st2 pending' Hl).
      + eapply emits_accounted; [|done]. by eapply visit_emits.
      + intros a x Ha Hx. apply Hreach; [done|]. apply elem_of_cons. by right.
      + eapply (IH d st1 st1' pending'); [done..| |done].
        intros a Ha. apply Hreach; [done|]. apply elem_of_cons. by left. }
  rewrite visit_S. destruct (decide (n ∈ st.1)) as [Hin|Hout].
  { by intros [= <-]. }
  destruct (graph !! n) as [node|] eqn:Hn; [|by intros [= <-]].
  destruct (visit_all graph fuel _ _) as [st1|] eqn:Hall; [|done].
  simpl. intros [= <-] Hacc Hreach Hres. simpl.
  assert (accounted graph ({[ n ]} ∪ pending) ({[ n ]} ∪ st.1, st.2)) as Hacc0.
  { intros x Hx Hdom. simpl in *.
    apply elem_of_union in Hx as [->%elem_of_singleton|Hx].
    - right. apply elem_of_union_l, elem_of_singleton. done.
    - destruct (Hacc x Hx Hdom); [by left|right]. by apply elem_of_union_r. }
  assert (∀ a d, a ∈ ({[ n ]} ∪ pending : gset Z) → d ∈ dependsOn node →
                 tc (edge graph) a d) as Hreach0.
  { intros a d [->%elem_of_singleton|Ha]%elem_of_union Hd.
    - apply tc_once. by exists node.
    - eapply tc_r; [by apply Hreach|]. by exists node. }
  pose proof (IHall _ _ _ _ Hall Hacc0 Hreach0 Hres) as Hres1.
  apply visit_all_emits in Hall as [Hemits Hdeps].
  pose proof (emits_accounted _ _ _ Hemits Hacc0) as Hacc1.
  intros x d [Hx| ->%list_elem_of_singleton]%elem_of_app Hedge Hdom.
  - apply precedes_app. by apply Hres1.
  - destruct Hedge as (node' & Hn' & Hd). assert (node' = node) as -> by congruence.
    destruct (Hacc1 d (Hdeps d Hd) Hdom) as [Hdo|[->%elem_of_singleton|Hdp]%elem_of_union].
    + apply list_elem_of_lookup in Hdo as [i Hi]. exists i, (length st1.2).
      split; [by apply lookup_app_l_Some|]. split.
      * rewrite lookup_app_r by done. by rewrite Nat.sub_diag.
      * by apply lookup_lt_Some in Hi.
    + destruct (graph_acyclic n). apply tc_once. by exists node.
    + destruct (graph_acyclic d). eapply tc_r; [by apply Hreach|]. by exists node.
Qed.

Lemma visit_all_respects (fuel : nat) : ∀ (l : list Z) (st st' : gset Z * list Z),
  visit_all graph fuel l st = Some st' →
  accounted graph ∅ st → respects graph st.2 → respects graph st'.2.
Proof.
  induction l as [|d l IHl]; intros st st'.
  - rewrite visit_all_nil. by intros [= <-].
  - rewrite visit_all_cons. destruct (visit graph fuel d st) as [st1|] eqn:Hd; [|done].
    simpl. intros Hl Hacc Hres. apply (IHl st1 st' Hl).
    + eapply emits_accounted; [|done]. by eapply visit_emits.
    + apply (visit_respects fuel d st st1 ∅ Hd Hacc); [|done].
      by intros a ?%not_elem_of_empty.
Qed.

(** On a graph without a cycle, the order [_topologicalSort] returns lists
    every node after those of its dependencies that are nodes. *)
Lemma topologicalSort_respects (order : list Z) :
  _topologicalSort graph = Some order → respects graph order.
Proof.
  unfold _topologicalSort.
  destruct (visit_all graph _ _ _) as [st|] eqn:Hst; [|done].
  intros [= <-]. apply (visit_all_respects _ _ _ _ Hst).
  - by intros x ?%not_elem_of_empty.
  - by intros n d ?%elem_of_nil.
Qed.
End acyclic.
End topological_sort.

(** ** The execution order of a plan *)

Section plan_order.
Import TaskDecomposer.

Lemma alter_requiredBy_dependsOn (graph : gmap Z Node) (v d n : Z) :
  dependsOn <$> alter (push_requiredBy v) d graph !! n = dependsOn <$> graph !! n.
Proof.
  destruct (decide (d = n)) as [->|Hne].
  - rewrite lookup_alter_eq. by destruct (graph !! n).
  - by rewrite lookup_alter_ne.
Qed.

Lemma reverse_edges_dependsOn (subtasks : list Subtask) : ∀ (graph : gmap Z Node) (n : Z),
  dependsOn <$>
    foldl (λ (graph : gmap Z Node) t,
             foldl (λ (graph : gmap Z Node) depId,
                      alter (push_requiredBy (id t)) depId graph)
                   graph (depends t))
          graph subtasks !! n
  = dependsOn <$> graph !! n.
Proof.
  induction subtasks as [|t subtasks IH]; intros graph n; [done|].
  simpl. rewrite IH. generalize (depends t). intros deps. revert graph.
  induction deps as [|d deps IHd]; intros graph; [done|].
  simpl. by rewrite IHd, alter_requiredBy_dependsOn.
Qed.

Lemma forward_edges (subtasks : list Subtask) : ∀ (graph : gmap Z Node),
  let graph' :=
    foldl (λ (graph : gmap Z Node) t,
             <[ id t := {| task := t; dependsOn := depends t; requiredBy := [] |} ]> graph)
          graph subtasks in
  (∀ n deps, dependsOn <$> graph' !! n = Some deps →
             dependsOn <$> graph !! n = Some deps
             ∨ ∃ t, t ∈ subtasks ∧ id t = n ∧ deps = depends t)
  ∧ (∀ n, is_Some (graph !! n) ∨ (∃ t, t ∈ subtasks ∧ id t = n) → is_Some (graph' !! n)).
Proof.
  induction subtasks as [|t subtasks IH]; intros graph; simpl.
  - split; [by left|]. intros n [Hn|(t & Ht%elem_of_nil & _)]; done.
  - destruct (IH (<[ id t := {| task := t; dependsOn := depends t; requiredBy := [] |} ]>
                    graph)) as [Hdeps Hdom].
    split.
    + intros n deps Hn. destruct (Hdeps n deps Hn) as [Hins|(u & Hu & Hid & Hd)].
      * destruct (decide (id t = n)) as [Heq|Hne].
        -- rewrite Heq, lookup_insert_eq in Hins. injection Hins as <-.
           right. exists t. split; [apply elem_of_cons; by left|done].
        -- rewrite lookup_insert_ne in Hins by done. by left.
      * right. exists u. split; [apply elem_of_cons; by right|done].
    + intros n Hn. apply Hdom. destruct (decide (id t = n)) as [Heq|Hne].
      * left. rewrite Heq, lookup_insert_eq. by eexists.
      * destruct Hn as [Hn|(u & [->|Hu]%elem_of_cons & Hid)].
        -- left. by rewrite lookup_insert_ne.
        -- done.
        -- right. by exists u.
Qed.

(** The nodes of the graph of a list of subtasks are their ids, and the
    [dependsOn] list of a node is the [depends] list of a subtask with
    that id. *)
Lemma buildDependencyGraph_lookup (subtasks : list Subtask) (n : Z) (node : Node) :
  _buildDependencyGraph subtasks !! n = Some node →
  ∃ t, t ∈ subtasks ∧ id t = n ∧ dependsOn node = depends t.
Proof.
  intros Hn. apply (f_equal (fmap dependsOn)) in Hn.
  unfold _buildDependencyGraph in Hn. rewrite reverse_edges_dependsOn in Hn.
  destruct (forward_edges subtasks ∅) as [Hdeps _].
  by destruct (Hdeps n _ Hn) as [Hempty|Ht].
Qed.

Lemma buildDependencyGraph_dom (subtasks : list Subtask) (t : Subtask) :
  t ∈ subtasks → id t ∈ dom (_buildDependencyGraph subtasks).
Proof.
  intros Ht. apply elem_of_dom. destruct (forward_edges subtasks ∅) as [_ Hdom].
  destruct (Hdom (id t)) as [node Hnode]; [right; by exists t|].
  unfold _buildDependencyGraph.
  match type of Hnode with ?g !! _ = _ =>
    pose proof (reverse_edges_dependsOn subtasks g (id t)) as Hrev end.
  rewrite Hnode in Hrev.
  match type of Hrev with _ <$> ?o = _ => by destruct o end.
Qed.

(** [decompose] always yields a plan. *)
Lemma decompose_total (decomposed : list Subtask) : is_Some (decompose decomposed).
Proof.
  unfold decompose.
  destruct (topologicalSort_returns
              (_buildDependencyGraph (_validateSubtasks decomposed)))
    as (order & -> & _).
  by eexists.
Qed.

(** Edges along which a rank decreases cannot form a cycle. *)
Lemma ranked_acyclic (rank : Z → nat) (graph : gmap Z Node) :
  map_Forall (λ n node, Forall (λ d, rank d < rank n) (dependsOn node)) graph →
  acyclic graph.
Proof.
  intros Hrank.
  assert (∀ n d, tc (edge graph) n d → rank d < rank n) as Htc.
  { induction 1 as [n d (node & Hn & Hd)|n m d (node & Hn & Hm) _ IH].
    - specialize (Hrank n node Hn). rewrite Forall_forall in Hrank. by apply Hrank.
    - specialize (Hrank n node Hn). rewrite Forall_forall in Hrank.
      specialize (Hrank m Hm). lia. }
  intros n Hn. apply Htc in Hn. lia.
Qed.

(** C7: in every plan whose dependency graph has no cycle, the execution
    order lists each subtask after every id of its [dependsOn] list. *)
Theorem executionOrder_respects_dependencies (decomposed : list Subtask) (plan : Plan) :
  decompose decomposed = Some plan →
  acyclic (dependencyGraph plan) →
  ∀ n node d,
    dependencyGraph plan !! n = Some node → d ∈ dependsOn node →
    precedes (executionOrder plan) d n.
Proof.
  unfold decompose. intros Hplan.
  destruct (_topologicalSort _) as [order|] eqn:Hsort; [|done].
  injection Hplan as <-. simpl. intros Hacyclic n node d Hn Hd.
  apply (topologicalSort_respects _ Hacyclic order Hsort).
  - destruct (topologicalSort_returns
                (_buildDependencyGraph (_validateSubtasks decomposed)))
      as (order' & Hsort' & _ & Hdom).
    assert (order' = order) as -> by congruence.
    apply Hdom, elem_of_dom. by eexists.
  - by exists node.
  - apply buildDependencyGraph_lookup in Hn as (t & Ht & _ & Hdeps).
    rewrite Hdeps in Hd.
    destruct (validateSubtasks_depends_valid decomposed t d Ht Hd) as (_ & u & Hu & <-).
    by apply buildDependencyGraph_dom.
Qed.
End plan_order.

Section plan_samples.
Import TaskDecomposer Samples.

Lemma executionOrder_respects_dependencies_witness :
  precedes (executionOrder forward_plan) 2 1.
Proof.
  apply (executionOrder_respects_dependencies
           [subtask 4 [9%Z]; subtask 9 []] forward_plan)
    with (node := {| task := subtask 1 [2%Z]; dependsOn := [2%Z]; requiredBy := [] |}).
  - vm_compute. reflexivity.
  - apply (ranked_acyclic (λ n, if decide (n = 1%Z) then 1 else 0)).
    apply (bool_decide_unpack _). vm_compute. exact I.
  - vm_compute. reflexivity.
  - apply elem_of_cons. by left.
Defined.

(** Plans with a cycle are put in some order all the same: here two
    subtasks that depend on each other, and one that depends on itself. *)
Example executionOrder_cyclic :
  executionOrder <$> decompose [subtask 1 [2%Z]; subtask 2 [1%Z]] = Some [2%Z; 1%Z]
  ∧ executionOrder <$> decompose [subtask 1 [1%Z]] = Some [1%Z].
Proof. split; vm_compute; reflexivity. Qed.

(** A dependency that is not a node of the graph is visited and left out
    of the order. *)
Example topologicalSort_dangling :
  _topologicalSort
    {[ 1%Z := {| task := subtask 1 [5%Z]; dependsOn := [5%Z]; requiredBy := [] |} ]}
  = Some [1%Z].
Proof. vm_compute. reflexivity. Qed.
End plan_samples.

Section normalization_samples.
Import TaskDecomposer Samples.

Lemma validateSubtasks_normalized_witness :
  (1 ≤ 2 ≤ Z.of_nat (length [subtask 1 [1; 2]%Z; subtask 2 []]))%Z
  ∧ ∃ u, u ∈ _validateSubtasks [subtask 1 [1; 2]%Z; subtask 2 []] ∧ id u = 2%Z.
Proof.
  destruct (validateSubtasks_normalized [subtask 1 [1; 2]%Z; subtask 2 []])
    as (_ & Hvalid & _).
  apply (Hvalid (subtask 1 [1; 2]%Z) 2%Z).
  - vm_compute. apply elem_of_cons. by left.
  - apply elem_of_cons. right. apply elem_of_cons. by left.
Defined.
End normalization_samples.

(** ** The shape of clusters *)

Section cluster_shape.
Context {Sc : Type} `{CodeClusterer.Score Sc} {Features : Type}.
Context (extractFeatures : string → Features).
Context (_compareFeaturesEnhanced : Features → Features → Sc).

Import CodeClusterer.
Local Abbreviation Cluster := (CodeClusterer.Cluster Sc).
Local Abbreviation Member := (CodeClusterer.Member Sc).
Local Abbreviation Entry := (CodeClusterer.Entry Features).

Lemma absorb_seeded (features : list Entry) (similarityMatrix : list (list Sc))
    (threshold : Sc) (c : nat) (representative : string)
    (st : list Member * nat * gset nat) (i : nat) :
  (∃ first rest, st.1.1 = first :: rest ∧ index first = c) →
  seeded features similarityMatrix threshold representative st.1.1 →
  (∃ first rest, (absorb features (row similarityMatrix c) threshold st i).1.1
                 = first :: rest ∧ index first = c)
  ∧ seeded features similarityMatrix threshold representative
           (absorb features (row similarityMatrix c) threshold st i).1.1.
Proof.
  destruct st as [[ms sz] assigned]. simpl.
  intros (first & rest & -> & Hc) Hseeded. unfold absorb.
  destruct (decide (i ∈ assigned)); [by eauto|].
  destruct (row similarityMatrix c !! i) as [sim|] eqn:Hrow; [|by eauto].
  destruct (s_geb sim threshold) eqn:Hge; [|by eauto].
  simpl. split; [by eauto|].
  destruct Hseeded as (first' & rest' & [= <- <-] & Hrep & Hone & Hcodes & Hrest).
  exists first, (rest ++ [ {| code := code_at features i; index := i; similarity := sim |} ]).
  split; [done|]. split; [done|]. split; [done|]. split.
  - rewrite app_comm_cons. apply Forall_app. split; [done|]. by apply Forall_singleton.
  - apply Forall_app. split; [done|]. apply Forall_singleton. simpl. by rewrite Hc.
Qed.

Lemma foldl_absorb_seeded (features : list Entry) (similarityMatrix : list (list Sc))
    (threshold : Sc) (c : nat) (representative : string) (l : list nat) :
  ∀ st : list Member * nat * gset nat,
  (∃ first rest, st.1.1 = first :: rest ∧ index first = c) →
  seeded features similarityMatrix threshold representative st.1.1 →
  seeded features similarityMatrix threshold representative
         (foldl (absorb features (row similarityMatrix c) threshold) st l).1.1.
Proof.
  induction l as [|i l IH]; intros st Hfirst Hseeded; [done|].
  simpl. destruct (absorb_seeded features similarityMatrix threshold c representative
                     st i Hfirst Hseeded) as [Hfirst' Hseeded'].
  by apply IH.
Qed.

Lemma grow_seeded (features : list Entry) (similarityMatrix : list (list Sc))
    (threshold : Sc) (st : list Cluster * gset nat) (candidate : Seed Sc) :
  Forall (λ c, seeded features similarityMatrix threshold (representative c) (members c))
         st.1 →
  Forall (λ c, seeded features similarityMatrix threshold (representative c) (members c))
         (grow features similarityMatrix threshold st candidate).1.
Proof.
  destruct st as [clusters assigned]. simpl. intros Hst. unfold grow.
  destruct (decide (seed_index candidate ∈ assigned)); [done|].
  match goal with |- context [foldl ?f ?s ?l] =>
    pose proof (foldl_absorb_seeded features similarityMatrix threshold
                  (seed_index candidate)
                  (code_at features (seed_index candidate)) l s) as Hinner;
    destruct (foldl f s l) as [[ms sz] assigned'] end.
  simpl in *. apply Forall_app. split; [done|]. apply Forall_singleton. simpl.
  apply Hinner.
  - by eexists _, _.
  - eexists _, []. split; [done|]. split; [done|]. split; [done|].
    split; [by apply Forall_singleton|done].
Qed.

Lemma greedyCluster_seeded (features : list Entry) (similarityMatrix : list (list Sc))
    (threshold : Sc) :
  Forall (λ c, seeded features similarityMatrix threshold (representative c) (members c))
         (_greedyCluster features similarityMatrix threshold).
Proof.
  unfold _greedyCluster. rewrite js_sort_Permutation.
  generalize (js_sort (λ a b : Seed Sc, s_ltb (seed_avgSimilarity b) (seed_avgSimilarity a))
    (imap (λ i _, {| seed_index := i;
                     seed_avgSimilarity :=
                       s_divn (sum_scores (row similarityMatrix i)) (length features) |})
          features)).
  intros candidates.
  assert (∀ st : list Cluster * gset nat,
            Forall (λ c, seeded features similarityMatrix threshold
                                (representative c) (members c)) st.1 →
            Forall (λ c, seeded features similarityMatrix threshold
                                (representative c) (members c))
                   (foldl (grow features similarityMatrix threshold) st candidates).1)
    as Hfold.
  { induction candidates as [|c candidates IH]; intros st Hst; [done|].
    simpl. apply IH. by apply grow_seeded. }
  by apply Hfold.
Qed.
Lemma buildSimilarityMatrix_lookup (features : list Entry) (i j : nat) (fi fj : Entry) :
  features !! i = Some fi → features !! j = Some fj →
  row (_buildSimilarityMatrix _compareFeaturesEnhanced features) i !! j
  = Some (if decide (i = j) then s_one
          else if decide (i < j)
               then _compareFeaturesEnhanced (e_features fi) (e_features fj)
               else _compareFeaturesEnhanced (e_features fj) (e_features fi)).
Proof.
  intros Hi Hj. unfold row, _buildSimilarityMatrix.
  rewrite list_lookup_imap, Hi. simpl. by rewrite list_lookup_imap, Hj.
Qed.

Lemma cluster_seeded (responses : list string) (threshold : Sc) :
  let features :=
    imap (λ index code, {| e_index := index; e_code := code;
                           e_features := extractFeatures code |}) responses in
  Forall (λ c, seeded features (_buildSimilarityMatrix _compareFeaturesEnhanced features)
                      threshold (representative c) (members c))
         (cluster extractFeatures _compareFeaturesEnhanced responses threshold).
Proof.
  unfold cluster. destruct responses as [|r [|r' responses]]; simpl.
  - done.
  - apply Forall_singleton. eexists _, []. simpl.
    split; [done|]. split; [done|]. split; [done|].
    split; [by apply Forall_singleton|done].
  - apply greedyCluster_seeded.
Qed.

Lemma features_lookup (responses : list string) (i : nat) (r : string) :
  responses !! i = Some r →
  imap (λ index code, {| e_index := index; e_code := code;
                         e_features := extractFeatures code |}) responses !! i
  = Some {| e_index := i; e_code := r; e_features := extractFeatures r |}.
Proof. intros Hi. by rewrite list_lookup_imap, Hi. Qed.

Lemma cluster_indices_lt (responses : list string) (threshold : Sc) :
  Forall (λ c, NoDup (index <$> members c)
               ∧ Forall (λ m, index m < length responses) (members c))
         (cluster extractFeatures _compareFeaturesEnhanced responses threshold).
Proof.
  destruct (cluster_members extractFeatures _compareFeaturesEnhanced responses threshold)
    as [_ Hperm].
  assert (NoDup (member_indices
            (cluster extractFeatures _compareFeaturesEnhanced responses threshold)))
    as Hnd by (rewrite Hperm; apply NoDup_seq).
  assert (∀ i, i ∈ member_indices
            (cluster extractFeatures _compareFeaturesEnhanced responses threshold) →
               i < length responses) as Hlt.
  { intros i. rewrite Hperm, elem_of_seq. lia. }
  revert Hnd Hlt.
  generalize (cluster extractFeatures _compareFeaturesEnhanced responses threshold).
  unfold member_indices. induction l as [|c l IH]; intros Hnd Hlt; [done|].
  rewrite bind_cons in Hnd, Hlt. apply NoDup_app in Hnd as (Hc & _ & Hl).
  apply Forall_cons. split.
  - split; [done|]. apply Forall_forall. intros m Hm. apply Hlt, elem_of_app. left.
    by apply list_elem_of_fmap_2.
  - apply IH; [done|]. intros i Hi. apply Hlt, elem_of_app. by right.
Qed.

(** X1: every cluster that [cluster] returns has a first member, which is
    its representative and has similarity 1.0, and every member carries the
    text of the response at its index. *)
Theorem cluster_members_from_input (responses : list string) (threshold : Sc) :
  Forall (λ c, (∃ first rest, members c = first :: rest
                              ∧ representative c = code first
                              ∧ similarity first = s_one)
               ∧ 1 ≤ size c
               ∧ Forall (λ m, responses !! index m = Some (code m)) (members c))
         (cluster extractFeatures _compareFeaturesEnhanced responses threshold).
Proof.
  pose proof (cluster_seeded responses threshold) as Hseeded.
  pose proof (cluster_indices_lt responses threshold) as Hlt.
  destruct (cluster_members extractFeatures _compareFeaturesEnhanced responses threshold)
    as [Hsz _].
  simpl in Hseeded. apply Forall_forall. intros c Hc.
  rewrite Forall_forall in Hseeded, Hlt, Hsz.
  destruct (Hseeded c Hc) as (first & rest & Hms & Hrep & Hone & Hcodes & _).
  destruct (Hlt c Hc) as [_ Hidx]. specialize (Hsz c Hc).
  split; [by eauto|]. split; [rewrite Hsz, Hms; simpl; lia|].
  apply Forall_forall. intros m Hm.
  rewrite Forall_forall in Hcodes, Hidx.
  specialize (Hcodes m Hm). specialize (Hidx m Hm).
  apply lookup_lt_is_Some in Hidx as [r Hr]. rewrite Hr. f_equal.
  rewrite Hcodes. unfold code_at. by rewrite (features_lookup _ _ _ Hr).
Qed.

(** X2: every member of a cluster other than the representative was
    absorbed on its score against the representative: the similarity it
    records is what [_compareFeaturesEnhanced] gives for the features of the
    two responses, the one with the smaller index first, and it reaches the
    threshold. *)
Theorem cluster_members_reach_threshold (responses : list string) (threshold : Sc) :
  Forall (λ c, ∃ first rest,
            members c = first :: rest
            ∧ Forall (λ m, index m ≠ index first
                           ∧ s_geb (similarity m) threshold = true
                           ∧ ∃ a b,
                               responses !! (index first `min` index m) = Some a
                               ∧ responses !! (index first `max` index m) = Some b
                               ∧ similarity m
                                 = _compareFeaturesEnhanced (extractFeatures a)
                                                            (extractFeatures b)) rest)
         (cluster extractFeatures _compareFeaturesEnhanced responses threshold).
Proof.
  pose proof (cluster_seeded responses threshold) as Hseeded.
  pose proof (cluster_indices_lt responses threshold) as Hlt.
  simpl in Hseeded. apply Forall_forall. intros c Hc.
  rewrite Forall_forall in Hseeded, Hlt.
  destruct (Hseeded c Hc) as (first & rest & Hms & _ & _ & _ & Hrest).
  destruct (Hlt c Hc) as [Hnd Hidx]. rewrite Hms in Hnd, Hidx.
  exists first, rest. split; [done|].
  rewrite fmap_cons in Hnd. apply NoDup_cons in Hnd as [Hfirst _].
  apply Forall_cons in Hidx as [Hi Hidx].
  apply Forall_forall. intros m Hm. rewrite Forall_forall in Hrest, Hidx.
  destruct (Hrest m Hm) as [Hrow Hge]. specialize (Hidx m Hm).
  assert (index m ≠ index first) as Hne.
  { intros Heq. apply Hfirst. rewrite <- Heq. by apply list_elem_of_fmap_2. }
  split; [done|]. split; [done|].
  apply lookup_lt_is_Some in Hi as [ri Hri]. apply lookup_lt_is_Some in Hidx as [rm Hrm].
  rewrite (buildSimilarityMatrix_lookup _ _ _ _ _ (features_lookup _ _ _ Hri)
             (features_lookup _ _ _ Hrm)) in Hrow.
  rewrite decide_False in Hrow by done. simpl in Hrow.
  destruct (decide (index first < index m)) as [Hlt'|Hge'].
  - exists ri, rm. rewrite Nat.min_l, Nat.max_r by lia. by injection Hrow as <-.
  - exists rm, ri. rewrite Nat.min_r, Nat.max_l by lia. by injection Hrow as <-.
Qed.

(** X3: [cluster] returns its clusters by size, largest first. *)
Theorem cluster_sorted_by_size (responses : list string) (threshold : Sc) :
  ordered_by (λ a b : Cluster, size b ≤ size a)
             (cluster extractFeatures _compareFeaturesEnhanced responses threshold).
Proof.
  unfold cluster. destruct responses as [|r [|r' responses]].
  - by intros i j a b ?.
  - intros i j a b Hi Hj Hlt. destruct i, j; simpl in *; done || lia.
  - unfold _greedyCluster. apply js_sort_ordered.
    + intros x y z ? ?. lia.
    + intros x y Hb%Nat.ltb_lt. lia.
    + intros x y Hb%Nat.ltb_ge. done.
Qed.
End cluster_shape.

(** ** The result of a vote *)

Section vote_results.
Import CodeClusterer ResponseValidator VotingManager.
Context (validate : string → ValidationResult).
Context {Features : Type}.
Context (extractFeatures : string → Features).
Context (_compareFeaturesEnhanced : Features → Features → Q).

Local Abbreviation vote := (vote validate extractFeatures _compareFeaturesEnhanced).
Local Abbreviation passes :=
  (λ c : Candidate, valid (validate (content c)) = true).

Lemma js_sort_cons {A : Type} (before : A → A → bool) (l : list A) :
  l ≠ [] → ∃ x l', js_sort before l = x :: l'.
Proof.
  intros Hne. destruct (js_sort before l) as [|x l'] eqn:Hsort; [|by eauto].
  apply (f_equal length) in Hsort. rewrite js_sort_length in Hsort. by destruct l.
Qed.

Lemma sum_list_max_list (l : list nat) : max_list l ≤ sum_list l.
Proof. induction l as [|x l IH]; simpl; lia. Qed.

(** The fourth case of [vote]: two valid candidates or more. *)
Lemma vote_many (options_k : option Z) (candidates : list Candidate) :
  2 ≤ length (filter passes candidates) →
  ∃ r top others,
    vote options_k candidates = Return r
    ∧ cluster extractFeatures _compareFeaturesEnhanced
        (content <$> filter passes candidates) similarityThreshold ≡ₚ top :: others
    ∧ (∀ c, c ∈ others → size c ≤ size top)
    ∧ winner r = representative top
    ∧ votingStats r =
        {| totalCandidates := length candidates;
           validCandidates := length (filter passes candidates);
           clusterCount := S (length others);
           winnerVotes := Some (size top);
           runnerUpVotes := Some (max_list (size <$> others));
           margin := Some (Z.of_nat (size top) - Z.of_nat (max_list (size <$> others)))%Z;
           votesNeeded := or_default options_k defaultK;
           reliable :=
             bool_decide (or_default options_k defaultK
                          ≤ Z.of_nat (size top) - Z.of_nat (max_list (size <$> others)))%Z |}
    ∧ (warning r = None ↔ reliable (votingStats r) = true)
    ∧ (0.1 <= VotingManager.confidence r <= 1)%Q.
Proof.
  intros Hvalid. unfold VotingManager.vote.
  pose proof (length_filter passes candidates) as Hlen.
  remember (filter passes candidates) as validCandidates eqn:Hvc. clear Hvc.
  rewrite decide_False by lia. rewrite decide_False by lia.
  rewrite two_or_more by done.
  set (clusters := cluster extractFeatures _compareFeaturesEnhanced
                     (content <$> validCandidates) similarityThreshold).
  destruct (tally_spec clusters) as (Hperm & Hfields & Hord).
  destruct (tally clusters) as [|w rest'] eqn:Htally.
  { destruct (cluster_members extractFeatures _compareFeaturesEnhanced
                (content <$> validCandidates) similarityThreshold) as (_ & Hall).
    fold clusters in Hall. simpl in Hperm. apply Permutation_nil_l in Hperm.
    rewrite <- Hperm in Hall. apply Permutation_length in Hall.
    rewrite length_seq, length_fmap in Hall. simpl in Hall. lia. }
  apply Forall_cons in Hfields as [[Hvotes Hrep] Hfields].
  assert (votes <$> rest' = size <$> (v_cluster <$> rest')) as Hsizes.
  { rewrite <- list_fmap_compose. apply Forall_fmap_ext_1.
    eapply Forall_impl; [done|]. by intros v [? _]. }
  pose proof (max_list_ordered rest') as Hmax.
  apply ordered_by_cons in Hord as [Hhd Hord]. specialize (Hmax Hord).
  assert (length clusters = S (length rest')) as Hcount.
  { rewrite <- Hperm. simpl. by rewrite length_fmap. }
  eexists _, (v_cluster w), (v_cluster <$> rest').
  split; [done|]. simpl. rewrite Hmax, Hsizes, Hvotes, Hcount, length_fmap.
  split; [by symmetry|]. split.
  { intros c (v & -> & Hv)%list_elem_of_fmap. rewrite <- Hvotes.
    rewrite Forall_forall in Hfields. destruct (Hfields v Hv) as [<- _].
    by apply Hhd. }
  split; [done|]. split; [done|]. split.
  - by case_bool_decide.
  - unfold _calculateConfidence. split; [apply Q.le_max_l|].
    apply Q.max_lub; [done|apply Q.le_min_l].
Qed.
Lemma sum_list_Permutation (l k : list nat) : l ≡ₚ k → sum_list l = sum_list k.
Proof. induction 1; simpl; lia. Qed.

Lemma winner_and_runner_up (top : Cluster Q) (others : list (Cluster Q))
    (responses : list string) :
  cluster extractFeatures _compareFeaturesEnhanced responses similarityThreshold
  ≡ₚ top :: others →
  size top + max_list (size <$> others) ≤ length responses.
Proof.
  intros Hperm.
  destruct (cluster_members extractFeatures _compareFeaturesEnhanced responses
              similarityThreshold) as [Hsz Hall].
  pose proof (sum_sizes _ Hsz) as Hsum. apply Permutation_length in Hall.
  rewrite length_seq in Hall. rewrite Hall in Hsum.
  rewrite (sum_list_Permutation _ _ (fmap_Permutation size _ _ Hperm)) in Hsum.
  change (size top + sum_list (size <$> others) = length responses) in Hsum.
  pose proof (sum_list_max_list (size <$> others)). lia.
Qed.

Lemma vote_throws_or_counts (options_k : option Z) (candidates : list Candidate)
    (r : VotingResult) :
  vote options_k candidates = Return r →
  totalCandidates (votingStats r) = length candidates
  ∧ votesNeeded (votingStats r) = or_default options_k defaultK.
Proof.
  destruct (decide (2 ≤ length (filter passes candidates))) as [Hmany|Hfew].
  { destruct (vote_many options_k candidates Hmany)
      as (r' & top & others & -> & _ & _ & _ & Hstats & _).
    intros [= <-]. by rewrite Hstats. }
  unfold VotingManager.vote. destruct (decide (length candidates = 0)); [done|].
  destruct (filter passes candidates) as [|only [|c2 rest]] eqn:Hvc.
  - rewrite decide_True by done. destruct (js_sort _ candidates); [done|].
    by intros [= <-].
  - rewrite decide_False by done. by intros [= <-].
  - simpl in Hfew. lia.
Qed.

(** X4: [vote] throws only when no candidate was generated; with at least
    one candidate it returns a result, whatever the validator and the
    clusterer do, and the result counts the candidates it was given. *)
Theorem vote_throws_only_without_candidates (options_k : option Z)
    (candidates : list Candidate) :
  match candidates with
  | [] => vote options_k candidates = Throw "Failed to generate any candidates"
  | _ => ∃ r, vote options_k candidates = Return r
              ∧ totalCandidates (votingStats r) = length candidates
              ∧ validCandidates (votingStats r) = length (filter passes candidates)
              ∧ votesNeeded (votingStats r) = or_default options_k defaultK
  end.
Proof.
  assert (candidates ≠ [] →
          ∃ r, vote options_k candidates = Return r
               ∧ totalCandidates (votingStats r) = length candidates
               ∧ validCandidates (votingStats r) = length (filter passes candidates)
               ∧ votesNeeded (votingStats r) = or_default options_k defaultK) as Hsome;
    [|destruct candidates; [done|by apply Hsome]].
  intros Hne.
  destruct (decide (2 ≤ length (filter passes candidates))) as [Hmany|Hfew].
  { destruct (vote_many options_k candidates Hmany)
      as (r & top & others & Hvote & _ & _ & _ & Hstats & _).
    exists r. by rewrite Hstats. }
  unfold VotingManager.vote. rewrite decide_False by (by destruct candidates).
  destruct (filter passes candidates) as [|only [|c2 rest]] eqn:Hvc.
  - rewrite decide_True by done.
    destruct (js_sort_cons (λ a b, negb (Qle_bool
                (ResponseValidator.confidence (validate (content a)))
                (ResponseValidator.confidence (validate (content b))))) candidates Hne)
      as (best & rest & ->).
    by eexists.
  - rewrite decide_False by done. by eexists.
  - simpl in Hfew. lia.
Qed.

Lemma vote_stats (options_k : option Z) (candidates : list Candidate)
    (r : VotingResult) :
  vote options_k candidates = Return r →
  (warning r = None ↔ reliable (votingStats r) = true)
  ∧ (reliable (votingStats r) = true →
     ∃ w ru, winnerVotes (votingStats r) = Some w
             ∧ runnerUpVotes (votingStats r) = Some ru
             ∧ margin (votingStats r) = Some (Z.of_nat w - Z.of_nat ru)%Z
             ∧ (or_default options_k defaultK ≤ Z.of_nat w - Z.of_nat ru)%Z
             ∧ w + ru ≤ validCandidates (votingStats r)
             ∧ 2 ≤ validCandidates (votingStats r)
             ∧ validCandidates (votingStats r) ≤ length candidates).
Proof.
  destruct (decide (2 ≤ length (filter passes candidates))) as [Hmany|Hfew].
  { destruct (vote_many options_k candidates Hmany)
      as (r' & top & others & -> & Hperm & _ & _ & Hstats & Hwarn & _).
    intros [= <-]. split; [done|]. rewrite Hstats. simpl.
    intros Hrel%bool_decide_eq_true. eexists _, _.
    split; [done|]. split; [done|]. split; [done|]. split; [done|].
    split; [|split; [done|apply length_filter]].
    rewrite <- (length_fmap content). by apply winner_and_runner_up. }
  unfold VotingManager.vote. destruct (decide (length candidates = 0)); [done|].
  destruct (filter passes candidates) as [|only [|c2 rest]] eqn:Hvc.
  - rewrite decide_True by done. destruct (js_sort _ candidates); [done|].
    intros [= <-]. by split.
  - rewrite decide_False by done. intros [= <-]. by split.
  - simpl in Hfew. lia.
Qed.

(** X5: when [vote] calls its result reliable, at least two candidates
    passed validation, the winner has at least [k] votes more than the
    runner-up, and the two together have no more votes than there are valid
    candidates; the result carries a warning exactly when it is not
    reliable. *)
Theorem vote_reliable_stats (options_k : option Z) (candidates : list Candidate)
    (r : VotingResult) :
  vote options_k candidates = Return r →
  (warning r = None ↔ reliable (votingStats r) = true)
  ∧ (reliable (votingStats r) = true →
     ∃ w ru, winnerVotes (votingStats r) = Some w
             ∧ runnerUpVotes (votingStats r) = Some ru
             ∧ margin (votingStats r) = Some (Z.of_nat w - Z.of_nat ru)%Z
             ∧ (or_default options_k defaultK ≤ Z.of_nat w - Z.of_nat ru)%Z
             ∧ w + ru ≤ validCandidates (votingStats r)
             ∧ 2 ≤ validCandidates (votingStats r)
             ∧ validCandidates (votingStats r) ≤ length candidates).
Proof. apply vote_stats. Qed.

End vote_results.

Section vote_results_samples.
Import CodeClusterer ResponseValidator VotingManager Samples.

Lemma vote_reliable_stats_witness :
  ∃ r, vote lenient one_token _jaccardSimilarity (Some 2%Z)
            [candidate 0 "f()"; candidate 1 "f()"; candidate 2 "f()"] = Return r
       ∧ reliable (votingStats r) = true
       ∧ warning r = None.
Proof.
  eexists. split; [vm_compute; reflexivity|].
  match goal with |- reliable (votingStats ?r) = _ ∧ _ =>
    destruct (vote_reliable_stats lenient one_token _jaccardSimilarity (Some 2%Z)
                [candidate 0 "f()"; candidate 1 "f()"; candidate 2 "f()"] r)
      as [Hwarn _] end.
  - vm_compute. reflexivity.
  - split; [reflexivity|]. apply Hwarn. reflexivity.
Defined.
End vote_results_samples.

(** ** Candidate generation and the voting modes *)

Section voting_rounds.
Import CodeClusterer ResponseValidator VotingManager.
Context (validate : string → ValidationResult).
Context {Features : Type}.
Context (extractFeatures : string → Features).
Context (_compareFeaturesEnhanced : Features → Features → Q).
Context (random : nat → Q).
Context (complete : nat → Q → Outcome (option Response)).

Local Abbreviation generateCandidates := (generateCandidates random complete).
Local Abbreviation generate_one := (generate_one random complete).
Local Abbreviation variedTemp := (variedTemp random).
Local Abbreviation passes :=
  (λ c : Candidate, valid (validate (content c)) = true).

(** What request [i] contributes to the candidates. *)
Lemma generate_one_cases (t : option Q) (candidates : list Candidate) (i : nat) :
  (generate_one t candidates i = candidates
   ∧ ¬ ∃ response text,
         complete i (Qmax 0.1 (Qmin 1 (variedTemp t i))) = Return (Some response)
         ∧ res_content response = Some text ∧ text ≠ ""%string)
  ∨ ∃ response text,
      complete i (Qmax 0.1 (Qmin 1 (variedTemp t i))) = Return (Some response)
      ∧ res_content response = Some text ∧ text ≠ ""%string
      ∧ generate_one t candidates i
        = candidates ++ [ {| c_index := i; content := text;
                             temperature := variedTemp t i;
                             tokens := res_completion_tokens response |} ].
Proof.
  unfold VotingManager.generate_one.
  destruct (complete i _) as [[response|]|msg] eqn:Hc.
  - destruct (res_content response) as [text|] eqn:Ht.
    + destruct (decide (text = ""%string)) as [->|Hne].
      * left. split; [done|]. intros (r' & t' & [= <-] & Ht' & Hne). congruence.
      * right. by exists response, text.
    + left. split; [done|]. intros (r' & t' & [= <-] & Ht' & Hne). congruence.
  - left. split; [done|]. by intros (r' & t' & [= ] & _).
  - left. split; [done|]. by intros (r' & t' & [= ] & _).
Qed.

Lemma ordered_by_snoc {A : Type} (R : A → A → Prop) (l : list A) (x : A) :
  ordered_by R l → (∀ y, y ∈ l → R y x) → ordered_by R (l ++ [x]).
Proof.
  intros Hl Hx i j a b Hi Hj Hlt.
  destruct (decide (j < length l)) as [Hj'|Hj'].
  - rewrite lookup_app_l in Hi, Hj by lia. by eapply Hl.
  - assert (i < length l) as Hi'.
    { apply lookup_lt_Some in Hj. rewrite length_app in Hj. simpl in Hj. lia. }
    rewrite lookup_app_l in Hi by lia. rewrite lookup_app_r in Hj by lia.
    apply list_lookup_singleton_Some in Hj as [_ <-].
    apply Hx. by eapply list_elem_of_lookup_2.
Qed.

Lemma generate_one_generated (t : option Q) (candidates : list Candidate) (i : nat) :
  generated random complete t i candidates →
  generated random complete t (S i) (generate_one t candidates i).
Proof.
  intros (Hlen & Hord & Hall & Hcomplete).
  destruct (generate_one_cases t candidates i)
    as [[-> Hno]|(response & text & Hc & Ht & Hne & ->)].
  - split; [lia|]. split; [done|]. split.
    + eapply Forall_impl; [done|]. intros c (? & ? & ? & ?). split; [lia|done].
    + intros j response text Hj Hc Ht Hne.
      destruct (decide (j = i)) as [->|Hji]; [destruct Hno; by eauto|].
      apply (Hcomplete j response text); [lia|done..].
  - split; [rewrite length_app; simpl; lia|]. split; [|split].
    + apply ordered_by_snoc; [done|]. intros c Hc'. simpl.
      rewrite Forall_forall in Hall. by destruct (Hall c Hc') as [? _].
    + apply Forall_app. split.
      * eapply Forall_impl; [done|]. intros c (? & ? & ? & ?). split; [lia|done].
      * apply Forall_singleton. simpl. split; [lia|]. split; [done|]. split; [done|].
        by exists response.
    + intros j response' text' Hj Hc' Ht' Hne'.
      destruct (decide (j = i)) as [->|Hji].
      * eexists. split; [apply elem_of_app; right; by apply list_elem_of_singleton|].
        simpl. split; [done|]. congruence.
      * destruct (Hcomplete j response' text') as (c & Hin & ? & ?); [lia|done..|].
        exists c. split; [apply elem_of_app; by left|done].
Qed.

Lemma generateCandidates_generated (count : nat) (t : option Q) :
  generated random complete t count (generateCandidates count t).
Proof.
  unfold VotingManager.generateCandidates.
  assert (∀ n a acc, generated random complete t a acc →
            generated random complete t (a + n) (foldl (generate_one t) acc (seq a n)))
    as Hfold.
  { induction n as [|n IH]; intros a acc Hacc; simpl.
    - by rewrite Nat.add_0_r.
    - replace (a + S n) with (S a + n) by lia. apply IH.
      by apply generate_one_generated. }
  apply (Hfold count 0 []).
  split; [done|]. split; [by intros i j a b ?|]. split; [done|]. intros; lia.
Qed.

Lemma generateCandidates_length (count : nat) (t : option Q) :
  length (generateCandidates count t) ≤ count.
Proof. by destruct (generateCandidates_generated count t) as [? _]. Qed.

(** X6: [generateCandidates] makes [count] requests and never throws; its
    candidates are, in request order, exactly the requests that were answered
    with a non-empty content: a request that fails, or comes back empty, is
    skipped, and the ones after it are still made. *)
Theorem generateCandidates_answers (count : nat) (t : option Q) :
  length (generateCandidates count t) ≤ count
  ∧ ordered_by (λ a b, c_index a < c_index b) (generateCandidates count t)
  ∧ Forall (λ c, c_index c < count
                 ∧ content c ≠ ""%string
                 ∧ temperature c = variedTemp t (c_index c)
                 ∧ ∃ response,
                     complete (c_index c) (Qmax 0.1 (Qmin 1 (variedTemp t (c_index c))))
                     = Return (Some response)
                     ∧ res_content response = Some (content c)
                     ∧ tokens c = res_completion_tokens response)
           (generateCandidates count t)
  ∧ ∀ i response text,
      i < count →
      complete i (Qmax 0.1 (Qmin 1 (variedTemp t i))) = Return (Some response) →
      res_content response = Some text → text ≠ ""%string →
      ∃ c, c ∈ generateCandidates count t ∧ c_index c = i ∧ content c = text.
Proof. apply generateCandidates_generated. Qed.
Lemma cluster_size_pos (responses : list string) (threshold : Q) :
  Forall (λ c : Cluster Q, 1 ≤ size c)
         (cluster extractFeatures _compareFeaturesEnhanced responses threshold).
Proof.
  pose proof (cluster_seeded extractFeatures _compareFeaturesEnhanced responses threshold)
    as Hseeded.
  destruct (cluster_members extractFeatures _compareFeaturesEnhanced responses threshold)
    as [Hsz _].
  simpl in Hseeded. apply Forall_forall. intros c Hc.
  rewrite Forall_forall in Hseeded, Hsz.
  destruct (Hseeded c Hc) as (first & rest & Hms & _). rewrite (Hsz c Hc), Hms.
  simpl. lia.
Qed.

Lemma max_list_zero (l : list nat) :
  Forall (λ n, 1 ≤ n) l → max_list l = 0 → l = [].
Proof. destruct 1 as [|n l Hn _]; [done|]. simpl. lia. Qed.

Lemma Qceiling_ge (z : Z) (x : Q) : (inject_Z z <= x)%Q → (z ≤ Qceiling x)%Z.
Proof. intros Hle. rewrite <- (Qceiling_Z z). by apply Qceiling_resp_le. Qed.



Lemma adaptiveVote_requests_eq (task : Task) (options_temperature : option Q) :
  adaptiveVote validate extractFeatures _compareFeaturesEnhanced random complete
               task options_temperature
  = vote validate extractFeatures _compareFeaturesEnhanced (Some (adaptive_k task))
         (generateCandidates 10 (Some (or_temperature options_temperature))).
Proof.
  unfold adaptiveVote, vote_round, adaptive_maxCandidates, maxCandidates.
  replace (Z.to_nat (Z.min (Z.max (adaptive_k task + 2) 5 * 2) (Z.of_nat 10))) with 10
    by lia.
  done.
Qed.


Lemma critical_k_large (task : Task) (steps : Z) :
  t_critical task = true → t_estimatedSteps task = Some steps → (64 ≤ steps)%Z →
  (11 ≤ adaptive_k task)%Z.
Proof.
  intros Hcritical Hsteps Hlarge. unfold adaptive_k. rewrite Hcritical, Hsteps.
  unfold or_default. rewrite decide_False by lia.
  assert (7 ≤ calculateOptimalK steps (t_baseReliability task))%Z as Hk.
  { unfold calculateOptimalK.
    assert (7 ≤ Z.log2_up (steps + 1))%Z as Hlog.
    { destruct (decide (Z.log2_up (steps + 1) ≤ 6)%Z) as [Hle|]; [|lia].
      apply Z.log2_up_le_pow2 in Hle; [|lia]. change (2 ^ 6)%Z with 64%Z in Hle. lia. }
    assert (7 ≤ Qceiling (inject_Z (Z.log2_up (steps + 1))
                          * Qmax 1 (2 * (1 - default 0.7%Q (t_baseReliability task)))))%Z;
      [|lia].
    apply Qceiling_ge.
    assert (inject_Z 7 <= inject_Z (Z.log2_up (steps + 1)))%Q
      by (rewrite <- Zle_Qle; lia).
    pose proof (Q.le_max_l 1 (2 * (1 - default 0.7%Q (t_baseReliability task)))).
    change (inject_Z 7) with 7%Q in *. nra. }
  assert (11 ≤ Qceiling (10.5))%Z as H11 by (vm_compute; discriminate).
  etrans; [exact H11|]. apply Qceiling_resp_le.
  assert (inject_Z 7 <= inject_Z (calculateOptimalK steps (t_baseReliability task)))%Q
    by (rewrite <- Zle_Qle; lia).
  change (inject_Z 7) with 7%Q in *. lra.
Qed.

(** X8: for a critical task of 64 estimated steps or more, [adaptiveVote]
    sets a threshold of at least 11 and asks for 10 candidates, so that
    its result is never reliable. *)
Theorem adaptiveVote_critical_never_reliable (task : Task) (steps : Z)
    (options_temperature : option Q) (r : VotingResult) :
  t_critical task = true → t_estimatedSteps task = Some steps → (64 ≤ steps)%Z →
  adaptiveVote validate extractFeatures _compareFeaturesEnhanced random complete
               task options_temperature = Return r →
  reliable (votingStats r) = false
  ∧ votesNeeded (votingStats r) = adaptive_k task
  ∧ (11 ≤ adaptive_k task)%Z
  ∧ totalCandidates (votingStats r) ≤ 10.
Proof.
  intros Hcritical Hsteps Hlarge.
  pose proof (critical_k_large task steps Hcritical Hsteps Hlarge) as Hk.
  rewrite (adaptiveVote_requests_eq task options_temperature).
  intros Hvote.
  pose proof (generateCandidates_length 10 (Some (or_temperature options_temperature)))
    as Hlen.
  pose proof (vote_throws_or_counts validate extractFeatures _compareFeaturesEnhanced
                (Some (adaptive_k task)) _ _ Hvote) as (Htotal & Hneeded).
  unfold or_default in Hneeded. rewrite decide_False in Hneeded by lia.
  split; [|split; [done|split; [done|lia]]].
  destruct (reliable (votingStats r)) eqn:Hrel; [|done].
  destruct (vote_stats validate extractFeatures _compareFeaturesEnhanced
              (Some (adaptive_k task)) _ _ Hvote) as [_ Hstats].
  destruct (Hstats Hrel) as (w & ru & _ & _ & _ & Hmargin & Hsum & _ & Hvalid).
  unfold or_default in Hmargin. rewrite decide_False in Hmargin by lia. lia.
Qed.
(** X9: [quickVote] (k = 2, three requests) calls its result reliable
    exactly when at least two candidates passed validation and they all
    fell into one cluster. *)
Theorem quickVote_reliable (options_temperature : option Q) (r : VotingResult) :
  quickVote validate extractFeatures _compareFeaturesEnhanced random complete
            options_temperature = Return r →
  totalCandidates (votingStats r) ≤ 3
  ∧ (reliable (votingStats r) = true
     ↔ clusterCount (votingStats r) = 1 ∧ 2 ≤ validCandidates (votingStats r)).
Proof.
  unfold quickVote, vote_round. simpl.
  set (candidates := generateCandidates 3 (Some (or_temperature options_temperature))).
  pose proof (generateCandidates_length 3 (Some (or_temperature options_temperature)))
    as Hlen. fold candidates in Hlen.
  pose proof (length_filter passes candidates) as Hvalid.
  destruct (decide (2 ≤ length (filter passes candidates))) as [Hmany|Hfew].
  - destruct (vote_many validate extractFeatures _compareFeaturesEnhanced (Some 2%Z)
                candidates Hmany)
      as (r' & top & others & -> & Hperm & _ & _ & Hstats & _).
    intros [= <-]. rewrite Hstats. simpl. split; [done|].
    pose proof (winner_and_runner_up extractFeatures _compareFeaturesEnhanced
                  top others _ Hperm) as Hsum.
    rewrite length_fmap in Hsum.
    pose proof (cluster_size_pos (content <$> filter passes candidates)
                  similarityThreshold) as Hpos.
    rewrite Hperm in Hpos. apply Forall_cons in Hpos as [Htop Hothers].
    pose proof (cluster_members extractFeatures _compareFeaturesEnhanced
                  (content <$> filter passes candidates) similarityThreshold)
      as [Hsz Hall].
    pose proof (sum_sizes _ Hsz) as Htotal. apply Permutation_length in Hall.
    rewrite length_seq, length_fmap in Hall. rewrite Hall in Htotal.
    rewrite (sum_list_Permutation _ _ (fmap_Permutation size _ _ Hperm)) in Htotal.
    change (size top + sum_list (size <$> others) = length (filter passes candidates))
      in Htotal.
    rewrite bool_decide_eq_true. unfold or_default. simpl. split.
    + intros Hmargin. split; [|done].
      assert (max_list (size <$> others) = 0) as Hzero by lia.
      apply max_list_zero in Hzero; [|by apply Forall_fmap].
      apply fmap_nil_inv in Hzero. by rewrite Hzero.
    + intros [Hone _]. destruct others; [|done]. simpl in *. lia.
  - unfold VotingManager.vote. destruct (decide (length candidates = 0)); [done|].
    destruct (filter passes candidates) as [|only [|c2 rest]] eqn:Hvc.
    + rewrite decide_True by done. destruct (js_sort _ candidates); [done|].
      intros [= <-]. simpl. split; [done|]. split; [done|]. intros [_ ?]. lia.
    + rewrite decide_False by done. intros [= <-]. simpl.
      split; [done|]. split; [done|]. intros [_ ?]. lia.
    + simpl in Hfew. lia.
Qed.
End voting_rounds.

Section voting_rounds_samples.
Import CodeClusterer ResponseValidator VotingManager Samples.

(** A provider that answers every request with the same text, and a task
    of 100 steps marked critical. *)
Lemma adaptiveVote_critical_never_reliable_witness :
  ∃ r, adaptiveVote lenient one_token _jaccardSimilarity (λ _, 0.5%Q) same_answer
                    large_critical_task None = Return r
       ∧ reliable (votingStats r) = false
       ∧ totalCandidates (votingStats r) = 10
       ∧ clusterCount (votingStats r) = 1.
Proof.
  eexists. split; [vm_compute; reflexivity|].
  match goal with |- reliable (votingStats ?r) = _ ∧ _ =>
    destruct (adaptiveVote_critical_never_reliable lenient one_token _jaccardSimilarity
                (λ _, 0.5%Q) same_answer large_critical_task 100 None r)
      as (Hrel & _) end.
  - reflexivity.
  - reflexivity.
  - lia.
  - vm_compute. reflexivity.
  - split; [exact Hrel|]. split; reflexivity.
Defined.

Lemma quickVote_reliable_witness :
  ∃ r, quickVote lenient one_token _jaccardSimilarity (λ _, 0.5%Q) same_answer None
       = Return r
       ∧ reliable (votingStats r) = true.
Proof.
  eexists. split; [vm_compute; reflexivity|].
  match goal with |- reliable (votingStats ?r) = _ =>
    destruct (quickVote_reliable lenient one_token _jaccardSimilarity
                (λ _, 0.5%Q) same_answer None r) as (_ & Hrel) end.
  - vm_compute. reflexivity.
  - apply Hrel. split; [reflexivity|]. vm_compute. lia.
Defined.

Lemma generateCandidates_answers_witness :
  ∃ c, c ∈ generateCandidates (λ _, 0.5%Q) flaky 3 None
       ∧ c_index c = 2 ∧ content c = "f()"%string.
Proof.
  destruct (generateCandidates_answers (λ _, 0.5%Q) flaky 3 None) as (_ & _ & _ & Hall).
  apply (Hall 2 {| res_content := Some "f()"%string; res_completion_tokens := Some 3 |}).
  - lia.
  - reflexivity.
  - reflexivity.
  - discriminate.
Defined.

(** The first request throws, the second comes back empty, the third is
    answered: one candidate, with index 2. *)
Example generateCandidates_flaky :
  (λ c, (c_index c, content c)) <$> generateCandidates (λ _, 0.5%Q) flaky 3 None
  = [(2, "f()"%string)].
Proof. vm_compute. reflexivity. Qed.
End voting_rounds_samples.

(** ** Bracket balance *)

Section brackets.
Import ResponseValidator.

Lemma pairs_closing (o c : ascii) :
  pairs o = Some c → pairs c = None ∧ is_closing c = true.
Proof.
  unfold pairs. repeat case_decide; intros [= <-]; by vm_compute.
Qed.

Lemma scan_well_bracketed (s : list ascii) :
  well_bracketed s →
  ∀ stack rest, scan_brackets stack (s ++ rest) = scan_brackets stack rest.
Proof.
  induction 1 as [|c s Hopen Hclose _ IH|o c s1 s2 Hpair _ IH1 _ IH2];
    intros stack rest.
  - done.
  - simpl. by rewrite Hopen, Hclose.
  - simpl. rewrite Hpair, <- app_assoc, IH1. simpl.
    destruct (pairs_closing o c Hpair) as [-> ->].
    by rewrite decide_True.
Qed.

Lemma well_bracketed_app (s t : list ascii) :
  well_bracketed s → well_bracketed t → well_bracketed (s ++ t).
Proof.
  induction 1 as [|c s Hopen Hclose _ IH|o c s1 s2 Hpair Hs1 _ _ IH2]; intros Ht.
  - done.
  - simpl. apply wb_other; auto.
  - simpl. rewrite <- app_assoc. simpl. apply wb_pair; auto.
Qed.

Lemma closes_prepend (stack : list ascii) (u s : list ascii) :
  well_bracketed u → closes stack s → closes stack (u ++ s).
Proof.
  intros Hu. destruct stack as [|o stack]; simpl.
  - by apply well_bracketed_app.
  - intros (c & s1 & s2 & Hpair & -> & Hs1 & Hs2).
    exists c, (u ++ s1), s2. rewrite <- app_assoc.
    split; [done|]. split; [done|]. split; [by apply well_bracketed_app|done].
Qed.

Lemma scan_closes (s : list ascii) : ∀ stack,
  scan_brackets stack s = balanced → closes stack s.
Proof.
  induction s as [|char s IH]; intros stack; simpl.
  - destruct stack; [intros _; apply wb_nil|done].
  - destruct (pairs char) as [c|] eqn:Hpair.
    + intros Hscan. apply IH in Hscan as (c' & s1 & s2 & Hpair' & -> & Hs1 & Hs2).
      assert (c' = c) as -> by congruence.
      replace (s1 ++ c :: s2) with ((s1 ++ [c]) ++ s2)
        by (by rewrite <- app_assoc).
      apply (closes_prepend stack (char :: s1 ++ [c]) s2); [|done].
      apply wb_pair; [done|done|apply wb_nil].
    + destruct (is_closing char) eqn:Hclose.
      * destruct stack as [|last stack]; [done|].
        destruct (decide (pairs last = Some char)) as [Hlast|]; [|done].
        intros Hscan. apply IH in Hscan. simpl.
        exists char, [], s. split; [done|]. split; [done|]. split; [apply wb_nil|done].
      * intros Hscan. apply IH in Hscan.
        apply (closes_prepend stack [char] s); [|done].
        apply wb_other; [done|done|apply wb_nil].
Qed.

(** X10: [_checkBalancedBrackets] finds a text balanced exactly when it is
    well bracketed: built from characters that are no brackets and from
    matching pairs ( ), [ ], { } around and in front of such texts. *)
Theorem checkBalancedBrackets_well_bracketed (code : string) :
  _checkBalancedBrackets code = balanced
  ↔ well_bracketed (String.list_ascii_of_string code).
Proof.
  unfold _checkBalancedBrackets. split.
  - apply (scan_closes _ []).
  - intros Hwb. rewrite <- (app_nil_r (String.list_ascii_of_string code)).
    by rewrite scan_well_bracketed.
Qed.

(** Samples: nesting is accepted, a crossing, a stray closer and a missing
    closer are reported with the character that gives them away. *)
Example checkBalancedBrackets_samples :
  _checkBalancedBrackets "f(a[0], {b: (c)})" = balanced
  ∧ _checkBalancedBrackets "f(a[0)]" = unexpected ")"
  ∧ _checkBalancedBrackets "}" = unexpected "}"
  ∧ _checkBalancedBrackets "if (x) { g(" = unclosed "(".
Proof. repeat split; vm_compute; reflexivity. Qed.
End brackets.

(** ** Validation *)

Section validation.
Import ResponseValidator.

Lemma penalty_grows (flags : list Flag) : ∀ acc : Q,
  (acc + 0.05 * inject_Z (Z.of_nat (length flags))
   <= foldl (λ penalty flag,
               match severity flag with
               | critical => penalty + 1
               | high => penalty + 0.3
               | medium => penalty + 0.1
               | low => penalty + 0.05
               end) acc flags)%Q.
Proof.
  induction flags as [|f flags IH]; intros acc.
  - simpl. change (inject_Z (Z.of_nat 0)) with 0%Q. lra.
  - cbn [foldl length]. eapply Qle_trans; [|apply IH].
    rewrite Nat2Z.inj_succ, <- Z.add_1_r, inject_Z_plus.
    change (inject_Z 1) with 1%Q. destruct (severity f); lra.
Qed.

Lemma penalty_critical (flags : list Flag) : ∀ acc : Q,
  existsb is_critical flags = true →
  (acc + 1
   <= foldl (λ penalty flag,
               match severity flag with
               | critical => penalty + 1
               | high => penalty + 0.3
               | medium => penalty + 0.1
               | low => penalty + 0.05
               end) acc flags)%Q.
Proof.
  induction flags as [|f flags IH]; intros acc; [done|].
  cbn [foldl existsb]. intros [Hf|Hflags]%orb_true_iff.
  - unfold is_critical in Hf. destruct (severity f); try done.
    pose proof (penalty_grows flags (acc + 1)) as Hgrow.
    assert (0 <= inject_Z (Z.of_nat (length flags)))%Q as Hpos.
    { change 0%Q with (inject_Z 0). rewrite <- Zle_Qle. lia. }
    lra.
  - eapply Qle_trans; [|apply IH; exact Hflags]. destruct (severity f); lra.
Qed.

Lemma calculateConfidence_range (flags : list Flag) :
  (0 <= _calculateConfidence flags <= 1)%Q
  ∧ (existsb is_critical flags = true → _calculateConfidence flags == 0)%Q
  ∧ (flags = [] ↔ _calculateConfidence flags == 1)%Q.
Proof.
  unfold _calculateConfidence. case_decide as Hlen.
  - apply length_zero_iff_nil in Hlen as ->. split; [lra|]. by split.
  - pose proof (penalty_grows flags 0) as Hgrow.
    assert (1 <= inject_Z (Z.of_nat (length flags)))%Q as Hpos.
    { change 1%Q with (inject_Z 1). rewrite <- Zle_Qle. lia. }
    match goal with |- context [Qmax 0 (1 - ?p)] => set (penalty := p) in * end.
    split; [|split].
    + split; [apply Q.le_max_l|]. apply Q.max_lub; lra.
    + intros Hcrit. pose proof (penalty_critical flags 0 Hcrit) as Hone.
      fold penalty in Hone. rewrite Q.max_l; [done|lra].
    + split; [by intros ->|]. intros Hmax.
      destruct (Q.max_spec 0 (1 - penalty)) as [[_ Heq]|[_ Heq]];
        rewrite Heq in Hmax; lra.
Qed.

Lemma validate_confidence_unit (trim : string → string) (checks : string → list Flag)
    (code : string) :
  (0 <= ResponseValidator.confidence (validate trim checks code) <= 1)%Q.
Proof.
  unfold validate. case_bool_decide; simpl; [lra|].
  apply calculateConfidence_range.
Qed.

Lemma validate_confidence_nonneg (trim : string → string) (checks : string → list Flag)
    (code : string) :
  (0 <= ResponseValidator.confidence (validate trim checks code))%Q.
Proof. apply validate_confidence_unit. Qed.

Lemma validate_confidence_zero (trim : string → string) (checks : string → list Flag)
    (code : string) :
  valid (validate trim checks code) = false →
  (ResponseValidator.confidence (validate trim checks code) <= 0)%Q
  ∧ (ResponseValidator.confidence (validate trim checks code) == 0)%Q.
Proof.
  unfold validate. case_bool_decide; simpl; [intros _; split; lra|].
  intros Hvalid%negb_false_iff.
  destruct (calculateConfidence_range (checks code)) as (_ & Hcrit & _).
  rewrite (Hcrit Hvalid). split; lra.
Qed.

(** X11: the validator's confidence lies between 0 and 1; it is 0 for every
    response [validate] finds invalid, and it is 1 exactly when no check
    raised a flag. *)
Theorem validate_confidence (trim : string → string) (checks : string → list Flag)
    (code : string) :
  let result := validate trim checks code in
  (0 <= ResponseValidator.confidence result <= 1)%Q
  ∧ (valid result = false → ResponseValidator.confidence result == 0)%Q
  ∧ (flags result = [] ↔ ResponseValidator.confidence result == 1)%Q.
Proof.
  unfold validate. case_bool_decide as Hempty; simpl.
  - split; [lra|]. split; [done|]. split; [done|]. intros Hq. lra.
  - destruct (calculateConfidence_range (checks code)) as (Hrange & Hcrit & Hnone).
    split; [done|]. split; [|done].
    intros Hvalid. apply Hcrit. by apply negb_false_iff.
Qed.

Section checks.
Context {Pattern : Type}.
Context (test : Pattern → string → bool).
Context (show : Pattern → string).
Context (hallucination_patterns incompleteness_patterns codeIndicators : list Pattern).
Context (function_pattern arrow_pattern class_pattern import_pattern export_pattern
         : Pattern).
Context (countTokens : string → nat).
Context (parse_module parse_script : string → option string).
Context (trim : string → string).

Local Abbreviation validate_task :=
  (ResponseValidator.validate_task test show hallucination_patterns
     incompleteness_patterns codeIndicators function_pattern arrow_pattern
     class_pattern import_pattern export_pattern countTokens parse_module
     parse_script trim).
Local Abbreviation filterValid :=
  (ResponseValidator.filterValid test show hallucination_patterns
     incompleteness_patterns codeIndicators function_pattern arrow_pattern
     class_pattern import_pattern export_pattern countTokens parse_module
     parse_script trim).
Local Abbreviation checks_syntax := (ResponseValidator.checks_syntax test codeIndicators).

Lemma checkHallucinations_critical (code : string) :
  existsb is_critical (_checkHallucinations test show hallucination_patterns code) = true
  ↔ ∃ pattern, pattern ∈ hallucination_patterns ∧ test pattern code = true.
Proof.
  unfold _checkHallucinations. rewrite existsb_exists. split.
  - intros (f & Hin & _). apply list_elem_of_In, list_elem_of_fmap in Hin
      as (pattern & _ & [Hp Htest]%list_elem_of_filter). by exists pattern.
  - intros (pattern & Hin & Htest).
    exists (flag "hallucination_marker" critical
                 ("Contains hallucination pattern: " +:+ show pattern)).
    split; [|reflexivity].
    apply list_elem_of_In, list_elem_of_fmap. exists pattern. split; [done|].
    by apply list_elem_of_filter.
Qed.

Lemma checkCompleteness_not_critical (code : string) :
  existsb is_critical (_checkCompleteness test show incompleteness_patterns code) = false.
Proof.
  unfold _checkCompleteness. rewrite existsb_app. apply orb_false_iff. split.
  - induction (filter _ incompleteness_patterns); [done|by simpl].
  - by destruct (_checkBalancedBrackets code).
Qed.

Lemma checkLength_not_critical (tokenCount : nat) (expected maxT minT : option nat) :
  existsb is_critical (_checkLength tokenCount expected maxT minT) = false.
Proof.
  unfold _checkLength. rewrite existsb_app.
  by repeat case_match.
Qed.

Lemma validateSyntax_critical (code : string) :
  existsb is_critical (_validateSyntax parse_module parse_script code) = true
  ↔ is_Some (parse_module code) ∧ is_Some (parse_script code).
Proof.
  unfold _validateSyntax.
  destruct (parse_module code), (parse_script code); simpl; split;
    try done; intros [[? [=]] [? [=]]] || intros [_ [? [=]]] || intros [[? [=]] _] || auto.
Qed.

Lemma checkFormat_not_critical (code format : string) :
  existsb is_critical
    (_checkFormat test function_pattern arrow_pattern class_pattern import_pattern
                  export_pattern code format) = false.
Proof. unfold _checkFormat. by repeat case_match. Qed.

(** X12: what makes [validate] reject a response.  A response is invalid
    exactly when it is empty or blank, or matches one of the hallucination
    patterns, or has its syntax checked (the task is of type code, or the
    text looks like code) and parses neither as a module nor as a script.
    Length, completeness, bracket balance and format never make a response
    invalid, whatever the thresholds. *)
Theorem validate_invalid_iff (task : ValidationTask) (options : ValidationOptions)
    (code : string) :
  valid (validate_task task options code) = false
  ↔ (code = ""%string ∨ String.length (trim code) = 0)
    ∨ (∃ pattern, pattern ∈ hallucination_patterns ∧ test pattern code = true)
    ∨ (checks_syntax task code = true
       ∧ is_Some (parse_module code) ∧ is_Some (parse_script code)).
Proof.
  unfold ResponseValidator.validate_task, validate.
  case_bool_decide as Hempty; simpl; [by split; [left|]|].
  rewrite negb_false_iff. unfold all_checks.
  rewrite !existsb_app, checkCompleteness_not_critical, checkLength_not_critical.
  assert (existsb is_critical
            match expectedFormat task with
            | Some format =>
                if decide (format = ""%string) then []
                else _checkFormat test function_pattern arrow_pattern class_pattern
                                  import_pattern export_pattern code format
            | None => []
            end = false) as ->.
  { destruct (expectedFormat task) as [format|]; [|done].
    case_decide; [done|apply checkFormat_not_critical]. }
  rewrite orb_false_r. simpl. rewrite orb_true_iff, checkHallucinations_critical.
  split.
  - intros [Hh|Hs]; [by right; left|]. right. right.
    destruct (ResponseValidator.checks_syntax _ _ task code); [|done].
    split; [done|]. by apply validateSyntax_critical.
  - intros [?|[Hh|(Hchk & Hm & Hs)]]; [done|by left|]. right.
    rewrite Hchk. by apply validateSyntax_critical.
Qed.

(** X13: the length check raises no flag exactly when the token count lies
    between the minimum and both the maximum and twice the expected length
    (the defaults are 5, 1500 and 200, also for a threshold given as 0); it
    raises at most two flags and none of them is critical, so a response is
    never invalid for its length. *)
Theorem checkLength_flags (tokenCount : nat) (expected maxT minT : option nat) :
  let flags := _checkLength tokenCount expected maxT minT in
  (flags = [] ↔ or_tokens minT 5 ≤ tokenCount
                ∧ tokenCount ≤ or_tokens maxT 1500
                ∧ tokenCount ≤ 2 * or_tokens expected 200)
  ∧ length flags ≤ 2
  ∧ Forall (λ f, severity f ≠ critical) flags
  ∧ (or_tokens maxT 1500 < tokenCount ↔ ∃ f, f ∈ flags ∧ flag_type f = "too_verbose"%string).
Proof.
  unfold _checkLength.
  destruct (Nat.ltb_spec (or_tokens maxT 1500) tokenCount) as [Hmax|Hmax];
    [|destruct (Nat.ltb_spec (or_tokens expected 200 * 2) tokenCount) as [Hexp|Hexp]];
    destruct (Nat.ltb_spec tokenCount (or_tokens minT 5)) as [Hmin|Hmin];
    cbn [app length].
  all: split;
    [split; [intros Heq; first [discriminate Heq|lia]|intros ?; first [reflexivity|lia]]|].
  all: split; [lia|].
  all: split; [repeat (apply Forall_cons; split; [done|]); apply Forall_nil|].
  all: split.
  all: try (intros ?; lia).
  all: try (intros _; eexists; split; [apply list_elem_of_here|reflexivity]).
  all: intros (f & Hf & Htype); exfalso.
  all: repeat (apply elem_of_cons in Hf as [->|Hf]; [discriminate Htype|]).
  all: by apply elem_of_nil in Hf.
Qed.

(** X14: [filterValid] keeps, in their order, exactly the responses that
    [validate] finds valid; every entry carries the position its response
    has in the input and the validation of that response. *)
Theorem filterValid_valid_responses (responses : list string) (task : ValidationTask)
    (options : ValidationOptions) :
  v_response <$> filterValid responses task options
  = filter (λ response, valid (validate_task task options response) = true) responses
  ∧ Forall (λ r, responses !! v_index r = Some (v_response r)
                 ∧ v_validation r = validate_task task options (v_response r)
                 ∧ valid (v_validation r) = true)
           (filterValid responses task options).
Proof.
  unfold ResponseValidator.filterValid, validateBatch. split.
  - assert (∀ (f : nat → nat) ,
      v_response <$> filter (λ r, valid (v_validation r) = true)
        (imap (λ index response,
                 {| v_index := f index; v_response := response;
                    v_validation := validate_task task options response |}) responses)
      = filter (λ response, valid (validate_task task options response) = true) responses)
      as Hgen.
    { induction responses as [|response responses IH]; intros f; [done|].
      rewrite imap_cons, !filter_cons. unfold compose. cbn beta.
      specialize (IH (λ index, f (S index))). cbn [v_validation].
      case_decide; [rewrite fmap_cons; cbn [v_response]; f_equal|]; apply IH. }
    apply (Hgen (λ i, i)).
  - apply Forall_forall. intros r [Hvalid Hr]%list_elem_of_filter.
    apply elem_of_lookup_imap in Hr as (i & response & -> & Hi). by simpl.
Qed.
End checks.
End validation.

(** ** Voting over validated responses *)

Section vote_validated.
Import CodeClusterer ResponseValidator VotingManager.
Context (trim : string → string) (checks : string → list Flag).
Context {Features : Type}.
Context (extractFeatures : string → Features).
Context (_compareFeaturesEnhanced : Features → Features → Q).

Local Abbreviation vote :=
  (vote (validate trim checks) extractFeatures _compareFeaturesEnhanced).

Lemma js_sort_unordered {A : Type} (before : A → A → bool) (l : list A) :
  (∀ x y, x ∈ l → y ∈ l → before x y = false) → js_sort before l = l.
Proof.
  induction l as [|x l IH]; intros Hnone; [done|].
  unfold js_sort in *. cbn [foldr]. rewrite IH.
  - destruct l as [|y l]; [done|]. simpl.
    rewrite Hnone; [done|apply elem_of_cons; right; apply list_elem_of_here
                        |apply list_elem_of_here].
  - intros a b Ha Hb. apply Hnone; apply elem_of_cons; by right.
Qed.

(** X15: the least bad option is the first one.  A response that [validate]
    rejects has confidence 0, so when every candidate is rejected the sort
    by validator confidence moves nothing and [vote] returns the content of
    the first candidate generated. *)
Theorem vote_all_invalid_returns_first (options_k : option Z) (first : Candidate)
    (rest : list Candidate) :
  (∀ c, c ∈ first :: rest → valid (validate trim checks (content c)) = false) →
  winner <$> returned (vote options_k (first :: rest)) = Some (content first).
Proof.
  intros Hinvalid. unfold VotingManager.vote.
  rewrite decide_False by done.
  assert (filter (λ c, valid (validate trim checks (content c)) = true) (first :: rest)
          = []) as ->.
  { destruct (filter _ (first :: rest)) as [|c l] eqn:Hf; [done|].
    assert (c ∈ filter (λ c, valid (validate trim checks (content c)) = true)
                  (first :: rest)) as Hc.
    { rewrite Hf. apply list_elem_of_here. }
    apply list_elem_of_filter in Hc as [Hv Hc]. by rewrite (Hinvalid c Hc) in Hv. }
  rewrite decide_True by done.
  rewrite js_sort_unordered; [done|].
  intros a b Ha Hb. apply negb_false_iff, Qle_bool_iff.
  destruct (validate_confidence_zero trim checks (content a) (Hinvalid a Ha)).
  pose proof (validate_confidence_nonneg trim checks (content b)). lra.
Qed.

(** X16: the confidence [vote] reports lies between 0 and 1 in every case, and
    is at least 0.1 unless a single candidate passed validation, in which
    case it is that candidate's validator confidence. *)
Theorem vote_confidence_range (options_k : option Z) (candidates : list Candidate)
    (r : VotingResult) :
  vote options_k candidates = Return r →
  (0 <= VotingManager.confidence r <= 1)%Q
  ∧ (validCandidates (votingStats r) ≠ 1 → (0.1 <= VotingManager.confidence r)%Q).
Proof.
  unfold VotingManager.vote. case_decide; [done|].
  case_decide.
  - destruct (js_sort _ candidates); [done|]. intros [= <-]. simpl.
    split; [split; lra|intros _; lra].
  - destruct (filter _ candidates) as [|only [|second more]] eqn:Hvalid; [done| |].
    + intros [= <-]. simpl. split; [|done].
      apply (validate_confidence_unit trim checks).
    + destruct (tally _) as [|best others]; [done|]. intros [= <-]. simpl.
      unfold VotingManager._calculateConfidence.
      match goal with |- context [Qmax 0.1 (Qmin 1 ?c)] => generalize c end.
      intros c.
      assert (0.1 <= Qmax 0.1 (Qmin 1 c) <= 1)%Q as Hrange.
      { split; [apply Q.le_max_l|]. apply Q.max_lub; [lra|apply Q.le_min_l]. }
      split; [split; lra|intros _; lra].
Qed.

End vote_validated.

Section vote_validated_samples.
Import CodeClusterer ResponseValidator VotingManager.

Lemma vote_all_invalid_returns_first_witness :
  winner <$> returned
    (VotingManager.vote Samples.strict Samples.one_token
       CodeClusterer._jaccardSimilarity None
       [Samples.candidate 0 "f("; Samples.candidate 1 "g()"])
  = Some "f("%string.
Proof.
  apply (vote_all_invalid_returns_first (λ code, code) _ Samples.one_token
           CodeClusterer._jaccardSimilarity None (Samples.candidate 0 "f(")
           [Samples.candidate 1 "g()"]).
  intros c Hc. apply elem_of_cons in Hc as [->|Hc]; [reflexivity|].
  apply list_elem_of_singleton in Hc as ->. reflexivity.
Defined.

Lemma vote_confidence_range_witness :
  ∃ r, VotingManager.vote Samples.lenient Samples.one_token
         CodeClusterer._jaccardSimilarity None
         [Samples.candidate 0 "f()"; Samples.candidate 1 "f()"] = Return r
       ∧ (0 <= VotingManager.confidence r <= 1)%Q.
Proof.
  eexists. split; [vm_compute; reflexivity|].
  refine (proj1 (vote_confidence_range (λ code, code) (λ _, []) Samples.one_token
                   CodeClusterer._jaccardSimilarity None
                   [Samples.candidate 0 "f()"; Samples.candidate 1 "f()"] _ _)).
  vm_compute. reflexivity.
Defined.
End vote_validated_samples.

(** ** Normal forms of subtask lists *)

Section normal_form.
Import TaskDecomposer.

Lemma sequential_lookup (l : list Subtask) (i : nat) (t : Subtask) :
  id <$> l = seqZ 1 (Z.of_nat (length l)) → l !! i = Some t →
  id t = (Z.of_nat i + 1)%Z.
Proof.
  intros Hids Hi. apply (f_equal (λ k, k !! i)) in Hids.
  rewrite list_lookup_fmap, Hi in Hids. simpl in Hids. symmetry in Hids.
  apply lookup_seqZ in Hids as [Hid _]. lia.
Qed.

Lemma sequential_find (l : list Subtask) (i : nat) (t : Subtask) :
  id <$> l = seqZ 1 (Z.of_nat (length l)) → l !! i = Some t →
  list_find (λ st, id st = (Z.of_nat i + 1)%Z) l = Some (i, t).
Proof.
  intros Hids Hi. apply list_find_Some. split; [done|].
  split; [by eapply sequential_lookup|].
  intros j y Hj Hlt Hy. rewrite (sequential_lookup l j y Hids Hj) in Hy. lia.
Qed.

Lemma sequential_find_id (l : list Subtask) (d : Z) :
  id <$> l = seqZ 1 (Z.of_nat (length l)) → (1 ≤ d ≤ Z.of_nat (length l))%Z →
  ∃ t, l !! Z.to_nat (d - 1) = Some t
       ∧ list_find (λ st, id st = d) l = Some (Z.to_nat (d - 1), t).
Proof.
  intros Hids Hd.
  destruct (lookup_lt_is_Some_2 l (Z.to_nat (d - 1))) as [t Ht]; [lia|].
  exists t. split; [done|].
  pose proof (sequential_find l _ t Hids Ht) as Hfind.
  by replace (Z.of_nat (Z.to_nat (d - 1)) + 1)%Z with d in Hfind by lia.
Qed.

Lemma filter_fmap_fixed {A : Type} (P : A → Prop) `{∀ x, Decision (P x)}
    (g : A → A) (l : list A) :
  (∀ x, x ∈ l → g x = x ∧ P x) → filter P (g <$> l) = l.
Proof.
  induction l as [|a l IH]; intros Hall; [done|].
  destruct (Hall a) as [Hg HP]; [apply list_elem_of_here|].
  rewrite fmap_cons, filter_cons, Hg, decide_True by done.
  f_equal. apply IH. intros x Hx. apply Hall, elem_of_cons. by right.
Qed.

Lemma validateSubtasks_fixed (l : list Subtask) :
  id <$> l = seqZ 1 (Z.of_nat (length l)) →
  (∀ t d, t ∈ l → d ∈ depends t → (1 ≤ d ≤ Z.of_nat (length l))%Z) →
  _validateSubtasks l = l.
Proof.
  intros Hids Hdeps. apply list_eq. intros i. unfold _validateSubtasks.
  rewrite list_lookup_imap. destruct (l !! i) as [t|] eqn:Hi; [|done].
  simpl. f_equal. rewrite filter_fmap_fixed.
  - rewrite <- (sequential_lookup l i t Hids Hi). by destruct t.
  - intros d Hd.
    pose proof (Hdeps t d (list_elem_of_lookup_2 _ _ _ Hi) Hd) as Hrange.
    destruct (sequential_find_id l d Hids Hrange) as (u & _ & Hfind).
    unfold findIndex. rewrite Hfind. simpl. split; lia.
Qed.

(** X17: [_validateSubtasks] is idempotent, and the lists it leaves unchanged
    are exactly those numbered 1..N in order whose [depends] entries all lie
    in 1..N. *)
Theorem validateSubtasks_normal_form (subtasks : list Subtask) :
  _validateSubtasks (_validateSubtasks subtasks) = _validateSubtasks subtasks
  ∧ (_validateSubtasks subtasks = subtasks
     ↔ id <$> subtasks = seqZ 1 (Z.of_nat (length subtasks))
       ∧ Forall (λ t, Forall (λ d, 1 ≤ d ≤ Z.of_nat (length subtasks))%Z (depends t))
                subtasks).
Proof.
  split; [|split].
  - apply validateSubtasks_fixed.
    + by rewrite validateSubtasks_ids, validateSubtasks_length.
    + intros t d Ht Hd. rewrite validateSubtasks_length.
      by destruct (validateSubtasks_depends_valid subtasks t d Ht Hd).
  - intros Hfixed. split.
    + rewrite <- Hfixed at 1. apply validateSubtasks_ids.
    + apply Forall_forall. intros t Ht. apply Forall_forall. intros d Hd.
      rewrite <- Hfixed in Ht.
      by destruct (validateSubtasks_depends_valid subtasks t d Ht Hd).
  - intros [Hids Hdeps]. apply validateSubtasks_fixed; [done|].
    intros t d Ht Hd. rewrite Forall_forall in Hdeps.
    specialize (Hdeps t Ht). rewrite Forall_forall in Hdeps. by apply Hdeps.
Qed.
End normal_form.

(** ** Plans whose dependencies point backwards *)

Section listing_order.
Import TaskDecomposer.

Lemma visit_all_visited (graph : gmap Z Node) (fuel : nat) (deps : list Z)
    (st : gset Z * list Z) :
  (∀ d, d ∈ deps → d ∈ st.1) → visit_all graph (S fuel) deps st = Some st.
Proof.
  induction deps as [|d deps IH]; intros Hdeps; [done|].
  rewrite visit_all_cons, visit_S, decide_True; [|apply Hdeps, list_elem_of_here].
  simpl. apply IH. intros x Hx. apply Hdeps, elem_of_cons. by right.
Qed.

Lemma visit_fresh (graph : gmap Z Node) (fuel : nat) (k : Z) (st : gset Z * list Z)
    (node : Node) :
  graph !! k = Some node → k ∉ st.1 → (∀ d, d ∈ dependsOn node → d ∈ st.1) →
  visit graph (S (S fuel)) k st = Some ({[ k ]} ∪ st.1, st.2 ++ [k]).
Proof.
  intros Hnode Hk Hdeps. rewrite visit_S, decide_False, Hnode by done.
  rewrite visit_all_visited; [done|].
  intros d Hd. simpl. apply elem_of_union. right. by apply Hdeps.
Qed.

Lemma visit_all_seq (graph : gmap Z Node) (fuel m : nat) : ∀ (a : Z) (st : gset Z * list Z),
  (∀ x, x ∈ st.1 ↔ (1 ≤ x < a)%Z) →
  (∀ k, (a ≤ k < a + Z.of_nat m)%Z →
        ∃ node, graph !! k = Some node ∧ ∀ d, d ∈ dependsOn node → (1 ≤ d < k)%Z) →
  (1 ≤ a)%Z →
  ∃ st', visit_all graph (S (S fuel)) (seqZ a (Z.of_nat m)) st = Some st'
         ∧ st'.2 = st.2 ++ seqZ a (Z.of_nat m).
Proof.
  induction m as [|m IH]; intros a st Hvisited Hnodes Ha.
  - exists st. split; [done|]. by rewrite app_nil_r.
  - rewrite seqZ_cons by lia.
    replace (Z.pred (Z.of_nat (S m))) with (Z.of_nat m) by lia.
    destruct (Hnodes a) as (node & Hnode & Hdeps); [lia|].
    rewrite visit_all_cons, (visit_fresh graph fuel a st node Hnode).
    + simpl. destruct (IH (Z.succ a) ({[ a ]} ∪ st.1, st.2 ++ [a]))
        as (st' & Hst' & Horder).
      * intros x. simpl. rewrite elem_of_union, elem_of_singleton, Hvisited. lia.
      * intros k Hk. apply Hnodes. lia.
      * lia.
      * exists st'. split; [done|]. rewrite Horder. simpl. by rewrite <- app_assoc.
    + rewrite Hvisited. lia.
    + intros d Hd. apply Hvisited. by apply Hdeps.
Qed.

Lemma Sorted_seqZ (m : nat) : ∀ a : Z, Sorted Z.le (seqZ a (Z.of_nat m)).
Proof.
  induction m as [|m IH]; intros a; [constructor|].
  rewrite seqZ_cons by lia.
  replace (Z.pred (Z.of_nat (S m))) with (Z.of_nat m) by lia.
  constructor; [apply IH|].
  destruct m as [|m]; [constructor|].
  rewrite seqZ_cons by lia. constructor. lia.
Qed.

Lemma object_keys_seq (graph : gmap Z Node) (n : nat) :
  (∀ k, k ∈ dom graph ↔ (1 ≤ k ≤ Z.of_nat n)%Z) →
  object_keys graph = seqZ 1 (Z.of_nat n).
Proof.
  intros Hdom. unfold object_keys.
  apply (Sorted_unique Z.le).
  - apply Sorted_merge_sort. apply _.
  - apply Sorted_seqZ.
  - rewrite merge_sort_Permutation.
    apply NoDup_Permutation; [apply NoDup_elements|apply NoDup_seqZ|].
    intros k. rewrite elem_of_elements, Hdom, elem_of_seqZ. lia.
Qed.

Lemma topologicalSort_seq (graph : gmap Z Node) (n : nat) :
  (∀ k, k ∈ dom graph ↔ (1 ≤ k ≤ Z.of_nat n)%Z) →
  (∀ k node d, graph !! k = Some node → d ∈ dependsOn node → (1 ≤ d < k)%Z) →
  _topologicalSort graph = Some (seqZ 1 (Z.of_nat n)).
Proof.
  intros Hdom Hdeps.
  rewrite <- (topologicalSort_fuel graph 1), (object_keys_seq graph n Hdom).
  destruct (visit_all_seq graph (size graph) n 1 (∅, [])) as (st' & Hst' & Horder).
  - intros x. simpl. rewrite elem_of_empty. lia.
  - intros k Hk. assert (k ∈ dom graph) as [node Hnode]%elem_of_dom by (apply Hdom; lia).
    exists node. split; [done|]. intros d Hd. by apply (Hdeps k node d).
  - lia.
  - simpl. rewrite Hst'. simpl. by rewrite Horder.
Qed.

Lemma backward_order (decomposed : list Subtask) :
  Forall (λ t, Forall (λ d, d < id t)%Z (depends t)) (_validateSubtasks decomposed) →
  _topologicalSort (_buildDependencyGraph (_validateSubtasks decomposed))
  = Some (id <$> _validateSubtasks decomposed).
Proof.
  intros Hback. rewrite validateSubtasks_ids.
  apply topologicalSort_seq.
  - intros k. split.
    + intros [node Hnode]%elem_of_dom.
      apply buildDependencyGraph_lookup in Hnode as (t & [i Hi]%list_elem_of_lookup & <- & _).
      pose proof (lookup_lt_Some _ _ _ Hi) as Hlt. rewrite validateSubtasks_length in Hlt.
      apply validateSubtasks_lookup in Hi as (_ & _ & -> & _). lia.
    + intros Hk.
      destruct (lookup_lt_is_Some_2 (_validateSubtasks decomposed) (Z.to_nat (k - 1)))
        as [t Ht]; [rewrite validateSubtasks_length; lia|].
      replace k with (id t).
      * apply buildDependencyGraph_dom. by eapply list_elem_of_lookup_2.
      * apply validateSubtasks_lookup in Ht as (_ & _ & -> & _). lia.
  - intros k node d Hnode Hd.
    apply buildDependencyGraph_lookup in Hnode as (t & Ht & <- & Hdeps).
    rewrite Hdeps in Hd.
    destruct (validateSubtasks_depends_valid decomposed t d Ht Hd) as [Hrange _].
    rewrite Forall_forall in Hback. specialize (Hback t Ht).
    rewrite Forall_forall in Hback. specialize (Hback d Hd). lia.
Qed.

(** X18: a plan in which every subtask depends on earlier subtasks only is
    executed in listing order: when, after normalization, every entry of a
    [depends] list is smaller than the id of its subtask, the execution
    order is 1, 2, ..., N. *)
Theorem backward_plan_runs_in_listing_order (decomposed : list Subtask) (plan : Plan) :
  decompose decomposed = Some plan →
  Forall (λ t, Forall (λ d, d < id t)%Z (depends t)) (subtasks plan) →
  executionOrder plan = id <$> subtasks plan
  ∧ executionOrder plan = seqZ 1 (Z.of_nat (length decomposed)).
Proof.
  unfold decompose. intros Hplan.
  destruct (_topologicalSort _) as [order|] eqn:Hsort; [|done].
  injection Hplan as <-. simpl. intros Hback.
  rewrite (backward_order decomposed Hback) in Hsort. injection Hsort as <-.
  split; [done|apply validateSubtasks_ids].
Qed.
End listing_order.

Section listing_order_samples.
Import TaskDecomposer Samples.

Lemma backward_plan_runs_in_listing_order_witness :
  executionOrder <$> decompose [subtask 3 []; subtask 5 [3%Z]; subtask 9 [3%Z; 5%Z]]
  = Some [1%Z; 2%Z; 3%Z].
Proof.
  destruct (decompose [subtask 3 []; subtask 5 [3%Z]; subtask 9 [3%Z; 5%Z]])
    as [plan|] eqn:Hplan; [|by vm_compute in Hplan].
  simpl. f_equal.
  refine (proj2 (backward_plan_runs_in_listing_order _ plan Hplan _)).
  vm_compute in Hplan. injection Hplan as <-. simpl.
  repeat constructor.
Defined.
End listing_order_samples.

(** ** Rule-based decomposition *)

Section rule_based.
Import TaskDecomposer.
Context {Pattern : Type}.
Context (test : Pattern → string → bool).
Context (create_pattern read_pattern edit_pattern delete_pattern : Pattern).
Context (split_sentences : string → list string).
Context (mentions_operations : string → bool).
Context (split_operations : string → list string).
Context (trim : string → string).
Context (countTokens : string → nat).

Local Abbreviation _decomposeRuleBased :=
  (TaskDecomposer._decomposeRuleBased test create_pattern read_pattern edit_pattern
     delete_pattern split_sentences mentions_operations split_operations trim
     countTokens).
Local Abbreviation operation_type :=
  (TaskDecomposer.operation_type test create_pattern read_pattern edit_pattern
     delete_pattern).

(** The subtasks of a chain: numbered from 1 on, each one after the first
    depending on the one before it and on nothing else. *)
Local Abbreviation chain type :=
  (λ l : list Subtask,
     id <$> l = seqZ 1 (Z.of_nat (length l))
     ∧ depends <$> l = imap (λ idx _, if decide (0 < idx) then [Z.of_nat idx] else []) l
     ∧ Forall (λ t, status t = pending ∧ action t = type ∧ TaskDecomposer.type t = type) l).

Lemma chain_steps (type target : string) (texts : list string) :
  chain type (imap (chain_step trim countTokens type target) texts).
Proof.
  split; [|split].
  - apply list_eq. intros i. rewrite list_lookup_fmap, list_lookup_imap, length_imap.
    destruct (texts !! i) as [text|] eqn:Hi; simpl.
    + apply lookup_lt_Some in Hi. rewrite lookup_seqZ_lt by lia. f_equal. lia.
    + apply lookup_ge_None in Hi. by rewrite lookup_seqZ_ge by lia.
  - apply list_eq. intros i. rewrite list_lookup_fmap, !list_lookup_imap.
    by destruct (texts !! i).
  - apply Forall_forall. intros t (i & text & -> & _)%elem_of_lookup_imap. done.
Qed.

Lemma chain_backward (type : string) (l : list Subtask) :
  chain type l →
  Forall (λ t, Forall (λ d, 1 ≤ d < id t)%Z (depends t)) l.
Proof.
  intros (Hids & Hdeps & _). apply Forall_forall. intros t [i Hi]%list_elem_of_lookup.
  apply (f_equal (λ k, k !! i)) in Hdeps.
  rewrite list_lookup_fmap, list_lookup_imap, Hi in Hdeps. simpl in Hdeps.
  injection Hdeps as ->. rewrite (sequential_lookup l i t Hids Hi).
  case_decide; [|constructor]. repeat constructor; lia.
Qed.

Lemma chain_fixed (type : string) (l : list Subtask) :
  chain type l → _validateSubtasks l = l.
Proof.
  intros Hchain. pose proof (chain_backward type l Hchain) as Hback.
  destruct Hchain as (Hids & _). apply validateSubtasks_fixed; [done|].
  intros t d Ht Hd. rewrite Forall_forall in Hback. specialize (Hback t Ht).
  rewrite Forall_forall in Hback. specialize (Hback d Hd).
  apply list_elem_of_lookup in Ht as [i Hi].
  rewrite (sequential_lookup l i t Hids Hi) in Hback.
  apply lookup_lt_Some in Hi. lia.
Qed.

Lemma decomposeRuleBased_chain_steps (taskDescription : string) (files : list string) :
  chain (operation_type taskDescription) (_decomposeRuleBased taskDescription files).
Proof.
  unfold TaskDecomposer._decomposeRuleBased.
  destruct (bool_decide _ && mentions_operations taskDescription);
    [apply chain_steps|].
  case_decide; [apply chain_steps|].
  split; [done|]. split; [done|]. by repeat constructor.
Qed.

(** X19: the rule-based decomposition yields a chain: subtasks numbered
    1..N in order, all pending and all of the operation type found in the
    description, the first without dependency and every other one depending
    on the one before it.  Normalization leaves the chain as it is, and the
    plan made of it is executed in listing order.  The decomposition is
    empty only if the description is a single sentence that mentions a
    conjunction and the split on conjunctions gives no part. *)
Theorem decomposeRuleBased_chain (taskDescription : string) (files : list string) :
  let subtasks := _decomposeRuleBased taskDescription files in
  id <$> subtasks = seqZ 1 (Z.of_nat (length subtasks))
  ∧ depends <$> subtasks
    = imap (λ idx _, if decide (0 < idx) then [Z.of_nat idx] else []) subtasks
  ∧ Forall (λ t, status t = pending
                 ∧ action t = operation_type taskDescription
                 ∧ TaskDecomposer.type t = operation_type taskDescription) subtasks
  ∧ _validateSubtasks subtasks = subtasks
  ∧ executionOrder <$> decompose subtasks = Some (seqZ 1 (Z.of_nat (length subtasks)))
  ∧ (subtasks ≠ []
     ∨ mentions_operations taskDescription = true
       ∧ split_operations taskDescription = []).
Proof.
  intros subtasks.
  pose proof (decomposeRuleBased_chain_steps taskDescription files) as Hchain.
  fold subtasks in Hchain.
  pose proof (chain_fixed _ subtasks Hchain) as Hfixed.
  pose proof (chain_backward _ subtasks Hchain) as Hback.
  destruct Hchain as (Hids & Hdeps & Hall).
  split; [done|]. split; [done|]. split; [done|]. split; [done|]. split.
  - unfold decompose.
    rewrite backward_order, Hfixed; [by rewrite Hids|]. rewrite Hfixed.
    eapply Forall_impl; [exact Hback|]. intros t Ht. simpl in Ht.
    eapply Forall_impl; [exact Ht|]. intros d Hd. simpl in Hd. lia.
  - unfold subtasks, TaskDecomposer._decomposeRuleBased.
    destruct (mentions_operations taskDescription).
    + rewrite andb_true_r. case_bool_decide as Hone.
      * destruct (split_operations taskDescription); [by right|by left].
      * case_decide; [|by left]. left. intros Hnil.
        match goal with H : 0 < length ?l |- _ => rewrite Hnil in H; simpl in H; lia end.
    + rewrite andb_false_r. case_decide; [|by left]. left. intros Hnil.
      match goal with H : 0 < length ?l |- _ => rewrite Hnil in H; simpl in H; lia end.
Qed.
End rule_based.

(** ** Reverse dependencies *)

Section reverse_dependencies.
Import TaskDecomposer.

Lemma push_all_requiredBy (v d : Z) (deps : list Z) : ∀ graph : gmap Z Node,
  requiredBy <$> foldl (λ (graph : gmap Z Node) depId,
                          alter (push_requiredBy v) depId graph) graph deps !! d
  = (λ r, r ++ (depId ← deps; if decide (depId = d) then [v] else []))
      <$> (requiredBy <$> graph !! d).
Proof.
  induction deps as [|depId deps IH]; intros graph.
  - simpl. destruct (graph !! d); simpl; [|done]. by rewrite app_nil_r.
  - cbn [foldl]. rewrite IH, bind_cons. destruct (decide (depId = d)) as [->|Hne].
    + rewrite lookup_alter_eq. destruct (graph !! d); simpl; [|done].
      by rewrite <- app_assoc.
    + rewrite lookup_alter_ne by done. by destruct (graph !! d).
Qed.

Lemma reverse_edges_requiredBy (d : Z) (subtasks : list Subtask) : ∀ graph : gmap Z Node,
  requiredBy <$>
    foldl (λ (graph : gmap Z Node) t,
             foldl (λ (graph : gmap Z Node) depId,
                      alter (push_requiredBy (id t)) depId graph)
                   graph (depends t))
          graph subtasks !! d
  = (λ r, r ++ (t ← subtasks; depId ← depends t;
                if decide (depId = d) then [id t] else []))
      <$> (requiredBy <$> graph !! d).
Proof.
  induction subtasks as [|t subtasks IH]; intros graph.
  - simpl. destruct (graph !! d); simpl; [|done]. by rewrite app_nil_r.
  - cbn [foldl]. rewrite IH, push_all_requiredBy, bind_cons.
    destruct (graph !! d); simpl; [|done]. by rewrite <- app_assoc.
Qed.

Lemma forward_edges_requiredBy (subtasks : list Subtask) : ∀ (graph : gmap Z Node),
  map_Forall (λ _ node, requiredBy node = []) graph →
  map_Forall (λ _ node, requiredBy node = [])
    (foldl (λ (graph : gmap Z Node) t,
              <[ id t := {| task := t; dependsOn := depends t; requiredBy := [] |} ]> graph)
           graph subtasks).
Proof.
  induction subtasks as [|t subtasks IH]; intros graph Hgraph; [done|].
  simpl. apply IH. by apply map_Forall_insert_2.
Qed.

(** X20: [requiredBy] is [depends] read backwards.  In the graph of any list
    of subtasks, the [requiredBy] list of node [d] holds the id of every
    subtask that lists [d] in its [depends], in listing order, once for each
    time it lists it, and nothing else. *)
Theorem buildDependencyGraph_requiredBy (subtasks : list Subtask) (d : Z) :
  requiredBy <$> _buildDependencyGraph subtasks !! d
  = if decide (d ∈ id <$> subtasks)
    then Some (t ← subtasks; depId ← depends t;
               if decide (depId = d) then [id t] else [])
    else None.
Proof.
  unfold _buildDependencyGraph. rewrite reverse_edges_requiredBy.
  pose proof (forward_edges_requiredBy subtasks ∅ (map_Forall_empty _)) as Hnone.
  destruct (forward_edges subtasks ∅) as [Hdeps Hdom]. simpl in Hdeps, Hdom.
  match goal with |- context [?g !! d] => destruct (g !! d) as [node|] eqn:Hnode end.
  - simpl. rewrite (Hnone d node Hnode). simpl.
    rewrite decide_True; [done|].
    destruct (Hdeps d (dependsOn node)) as [Hempty|(t & Ht & <- & _)];
      [by rewrite Hnode|done|].
    apply list_elem_of_fmap. by exists t.
  - simpl. rewrite decide_False; [done|].
    intros (t & -> & Ht)%list_elem_of_fmap.
    destruct (Hdom (id t)) as [node Hsome]; [right; by exists t|]. congruence.
Qed.

(** The reverse edges of a diamond, and of a subtask that names the same
    dependency twice. *)
Example buildDependencyGraph_requiredBy_samples :
  requiredBy <$> _buildDependencyGraph
    [Samples.subtask 1 []; Samples.subtask 2 [1%Z]; Samples.subtask 3 [1%Z];
     Samples.subtask 4 [2%Z; 3%Z]] !! 1%Z = Some [2%Z; 3%Z]
  ∧ requiredBy <$> _buildDependencyGraph
      [Samples.subtask 1 []; Samples.subtask 2 [1%Z; 1%Z]] !! 1%Z = Some [2%Z; 2%Z].
Proof. split; vm_compute; reflexivity. Qed.
End reverse_dependencies.

(** ** Ready subtasks *)

Section ready_subtasks.
Import TaskDecomposer.

Lemma first_pending (l : list Subtask) :
  Exists (λ t, status t = pending) l →
  ∃ i t, l !! i = Some t ∧ status t = pending
         ∧ ∀ j u, l !! j = Some u → j < i → status u = completed.
Proof.
  induction l as [|t l IH]; intros Hex; [by apply Exists_nil in Hex|].
  destruct (status t) eqn:Ht.
  - exists 0, t. split; [done|]. split; [done|]. intros j u _ Hj. lia.
  - apply Exists_cons in Hex as [Hex|Hex]; [congruence|].
    destruct (IH Hex) as (i & u & Hi & Hu & Hbefore).
    exists (S i), u. split; [done|]. split; [done|].
    intros [|j] v Hj Hlt; [by injection Hj as <-|].
    apply (Hbefore j v Hj). lia.
Qed.

(** X21: no deadlock in a plan whose dependencies point backwards.  When the
    subtasks are numbered 1..N in order and every subtask depends on
    earlier ones only, then as long as a subtask is pending
    [getReadySubtasks] offers at least one: the first pending subtask. *)
Theorem getReadySubtasks_progress (subtasks : list Subtask) :
  id <$> subtasks = seqZ 1 (Z.of_nat (length subtasks)) →
  Forall (λ t, Forall (λ d, 1 ≤ d < id t)%Z (depends t)) subtasks →
  Exists (λ t, status t = pending) subtasks →
  ∃ i t, subtasks !! i = Some t
         ∧ (∀ j u, subtasks !! j = Some u → j < i → status u = completed)
         ∧ t ∈ getReadySubtasks subtasks.
Proof.
  intros Hids Hback Hex.
  destruct (first_pending subtasks Hex) as (i & t & Hi & Hpending & Hbefore).
  exists i, t. split; [done|]. split; [done|].
  apply list_elem_of_filter. split; [|by eapply list_elem_of_lookup_2].
  unfold ready. rewrite Hpending. apply forallb_forall. intros d Hd%list_elem_of_In.
  rewrite Forall_forall in Hback.
  specialize (Hback t (list_elem_of_lookup_2 _ _ _ Hi)).
  rewrite Forall_forall in Hback. specialize (Hback d Hd).
  rewrite (sequential_lookup subtasks i t Hids Hi) in Hback.
  pose proof (lookup_lt_Some _ _ _ Hi) as Hlt.
  destruct (sequential_find_id subtasks d Hids) as (u & Hu & Hfind); [lia|].
  unfold dependency_completed, find. rewrite Hfind. simpl.
  rewrite (Hbefore _ u Hu); [done|lia].
Qed.

Lemma completeSubtask_lookup (l : list Subtask) (taskId : Z) (i : nat) (u : Subtask) :
  completeSubtask l taskId !! i = Some u →
  ∃ t, l !! i = Some t ∧ id u = id t ∧ depends u = depends t.
Proof.
  unfold completeSubtask. rewrite list_lookup_fmap.
  destruct (l !! i) as [t|]; [|done]. simpl. intros [= <-].
  exists t. split; [done|]. by case_decide.
Qed.

Lemma completed_lookup (ids : list Z) : ∀ (l : list Subtask) (i : nat) (u : Subtask),
  foldl completeSubtask l ids !! i = Some u →
  ∃ t, l !! i = Some t ∧ id u = id t ∧ depends u = depends t.
Proof.
  induction ids as [|taskId ids IH]; intros l i u; simpl.
  - intros Hu. by exists u.
  - intros (t' & Ht' & -> & ->)%IH.
    apply completeSubtask_lookup in Ht' as (t & Ht & -> & ->). by exists t.
Qed.

(** X22: a subtask that lists itself among its dependencies is never ready.
    In a list numbered 1..N in order, whatever subtasks have been marked
    completed since, [getReadySubtasks] never offers the subtask that
    depends on itself. *)
Theorem getReadySubtasks_never_self_dependent (subtasks : list Subtask) (t : Subtask)
    (completions : list Z) :
  id <$> subtasks = seqZ 1 (Z.of_nat (length subtasks)) →
  t ∈ subtasks → id t ∈ depends t →
  id t ∉ id <$> getReadySubtasks (foldl completeSubtask subtasks completions).
Proof.
  intros Hids [i Hi]%list_elem_of_lookup Hself
         (u & Hid & [Hready [j Hj]%list_elem_of_lookup]%list_elem_of_filter)%list_elem_of_fmap.
  set (now := foldl completeSubtask subtasks completions) in *.
  assert (∀ j' v, now !! j' = Some v → id v = (Z.of_nat j' + 1)%Z) as Hnow.
  { intros j' v (t' & Ht' & -> & _)%completed_lookup.
    by apply (sequential_lookup subtasks). }
  pose proof Hj as (t' & Ht' & Hidu & Hdeps)%completed_lookup.
  assert (j = i) as ->.
  { pose proof (sequential_lookup subtasks j t' Hids Ht').
    pose proof (sequential_lookup subtasks i t Hids Hi). lia. }
  assert (t' = t) as -> by congruence.
  unfold ready in Hready. destruct (status u) eqn:Hstatus; [|done].
  rewrite forallb_forall in Hready.
  specialize (Hready (id u)). rewrite Hdeps, <- Hid in Hready.
  specialize (Hready (proj1 (list_elem_of_In _ _) Hself)).
  unfold dependency_completed, find in Hready.
  assert (list_find (λ st, id st = id t) now = Some (i, u)) as Hfind.
  { apply list_find_Some. split; [done|]. split; [congruence|].
    intros j' v Hv Hlt Heq. rewrite (Hnow j' v Hv) in Heq.
    rewrite (sequential_lookup subtasks i t Hids Hi) in Heq. lia. }
  rewrite Hfind in Hready. simpl in Hready. by rewrite Hstatus in Hready.
Qed.
End ready_subtasks.

Section ready_subtasks_samples.
Import TaskDecomposer Samples.

Lemma getReadySubtasks_progress_witness :
  ∃ i t, completeSubtask [subtask 1 []; subtask 2 [1%Z]; subtask 3 [1%Z]] 1 !! i = Some t
         ∧ id t = 2%Z
         ∧ t ∈ getReadySubtasks
                 (completeSubtask [subtask 1 []; subtask 2 [1%Z]; subtask 3 [1%Z]] 1).
Proof.
  assert (id <$> completeSubtask [subtask 1 []; subtask 2 [1%Z]; subtask 3 [1%Z]] 1
          = seqZ 1 (Z.of_nat (length (completeSubtask
                      [subtask 1 []; subtask 2 [1%Z]; subtask 3 [1%Z]] 1)))) as Hids.
  { vm_compute. reflexivity. }
  assert (Forall (λ t, Forall (λ d, 1 ≤ d < id t)%Z (depends t))
            (completeSubtask [subtask 1 []; subtask 2 [1%Z]; subtask 3 [1%Z]] 1))
    as Hback.
  { simpl. repeat (constructor; try (simpl; lia)). }
  assert (Exists (λ t, status t = pending)
            (completeSubtask [subtask 1 []; subtask 2 [1%Z]; subtask 3 [1%Z]] 1))
    as Hex.
  { apply Exists_cons_tl, Exists_cons_hd. reflexivity. }
  destruct (getReadySubtasks_progress _ Hids Hback Hex)
    as (i & t & Hi & Hbefore & Hready).
  exists i, t. split; [exact Hi|]. split; [|exact Hready].
  destruct i as [|[|[|i]]]; simpl in Hi.
  - apply list_elem_of_filter in Hready as [Hready _].
    injection Hi as <-. vm_compute in Hready. discriminate Hready.
  - injection Hi as <-. reflexivity.
  - assert (1 < 2) as Hlt by lia.
    specialize (Hbefore 1 _ eq_refl Hlt). vm_compute in Hbefore.
    discriminate Hbefore.
  - discriminate Hi.
Defined.

Lemma getReadySubtasks_never_self_dependent_witness :
  2%Z ∉ id <$> getReadySubtasks
                 (foldl completeSubtask [subtask 1 []; subtask 2 [1%Z; 2%Z]] [1%Z]).
Proof.
  apply (getReadySubtasks_never_self_dependent
           [subtask 1 []; subtask 2 [1%Z; 2%Z]] (subtask 2 [1%Z; 2%Z]) [1%Z]).
  - vm_compute. reflexivity.
  - apply elem_of_cons. right. apply list_elem_of_here.
  - apply elem_of_cons. right. apply list_elem_of_here.
Defined.
End ready_subtasks_samples.

(** ** Runs of the executor *)

Section executor_runs.
Import ResponseValidator VotingManager TaskDecomposer MicroagentExecutor.
Context (validate : string → ValidationResult).
Context {Features : Type}.
Context (extractFeatures : string → Features).
Context (_compareFeaturesEnhanced : Features → Features → Q).
Context (generateCandidates : nat → Subtask → VotingOptions → list Candidate).

Abbreviation iteration :=
  (iteration validate extractFeatures _compareFeaturesEnhanced generateCandidates).
Abbreviation run :=
  (run validate extractFeatures _compareFeaturesEnhanced generateCandidates).
Abbreviation executeTask :=
  (executeTask validate extractFeatures _compareFeaturesEnhanced generateCandidates).
Abbreviation vote := (VotingManager.vote validate extractFeatures _compareFeaturesEnhanced).

(** The options of the call of [vote], and the state once the call is
    recorded. *)
Abbreviation votingOptions options k :=
  {| vo_k := passed_k options k;
     vo_maxCandidates := or_nat (o_maxCandidates options) 5;
     vo_temperature := or_Q (o_temperature options) 0.7%Q |}.
Abbreviation called st vo :=
  {| s_subtasks := s_subtasks st; s_executionLog := s_executionLog st;
     s_completedCount := s_completedCount st; s_errorCount := s_errorCount st;
     s_results := s_results st; s_completedSubtasks := s_completedSubtasks st;
     s_voteCalls := s_voteCalls st ++ [vo] |}.
Abbreviation is_error :=
  (λ e : LogEntry, match l_status e with error => true | _ => false end).

Lemma vote_returns (options_k : option Z) (candidates : list Candidate) :
  candidates ≠ [] → ∃ r, vote options_k candidates = Return r.
Proof.
  intros Hne.
  destruct (decide (2 ≤ length (filter (λ c, valid (validate (content c)) = true)
                                       candidates))) as [Hmany|Hfew].
  { destruct (vote_many validate extractFeatures _compareFeaturesEnhanced
                options_k candidates Hmany) as (r & _ & _ & Hvote & _).
    by exists r. }
  unfold VotingManager.vote. rewrite decide_False by (by destruct candidates).
  destruct (filter _ candidates) as [|only [|c2 rest]] eqn:Hvc.
  - rewrite decide_True by done.
    destruct (js_sort_cons (λ a b, negb (Qle_bool
                (ResponseValidator.confidence (validate (content a)))
                (ResponseValidator.confidence (validate (content b))))) candidates Hne)
      as (best & rest & ->).
    by eexists.
  - rewrite decide_False by done. by eexists.
  - simpl in Hfew. lia.
Qed.

Lemma find_id (l : list Subtask) (taskId : Z) (t : Subtask) :
  find l taskId = Some t → id t = taskId ∧ t ∈ l.
Proof.
  unfold find. destruct (list_find _ l) as [[i u]|] eqn:Hfind; [|done].
  intros [= <-]. apply list_find_Some in Hfind as (Hi & Hid & _).
  split; [done|]. by eapply list_elem_of_lookup_2.
Qed.

(** What an iteration that finds its subtask does: it records the call of
    [vote], and either logs a warning and completes the subtask, or takes
    the [catch] block. *)
Lemma iteration_effect options k i st taskId subtask :
  find (s_subtasks st) taskId = Some subtask →
  (∃ r, requireHighConfidence options = false
        ∧ generateCandidates i subtask (votingOptions options k) ≠ []
        ∧ iteration options k i st taskId
          = Continue (on_result taskId subtask r warning
                                (called st (votingOptions options k))))
  ∨ (∃ msg, (requireHighConfidence options = true
             ∨ generateCandidates i subtask (votingOptions options k) = [])
            ∧ iteration options k i st taskId
              = on_error options taskId subtask msg (called st (votingOptions options k))).
Proof.
  intros Hfind. unfold MicroagentExecutor.iteration, _executeSubtask. rewrite Hfind.
  cbn [vo_k].
  destruct (generateCandidates i subtask (votingOptions options k)) as [|c cs] eqn:Hgen.
  - right. eexists. split; [by right|]. reflexivity.
  - destruct (vote_returns (Some (passed_k options k)) (c :: cs)) as [r ->]; [done|].
    unfold votingResult_reliable.
    destruct (requireHighConfidence options) eqn:Hhigh.
    + right. eexists. split; [by left|]. reflexivity.
    + left. exists r. by split.
Qed.

Lemma run_accounting options k order : ∀ i st,
  let st' := state_of (run options k i order st) in
  ∃ entries new,
    s_executionLog st' = s_executionLog st ++ entries
    ∧ s_results st' = s_results st ++ new
    ∧ sublist (l_taskId <$> entries) order
    ∧ Forall (λ e, l_status e ≠ success) entries
    ∧ (λ r, id (r_subtask r)) <$> new
      = l_taskId <$> filter (λ e, is_error e = false) entries
    ∧ s_completedCount st' = s_completedCount st + length new
    ∧ s_errorCount st' = s_errorCount st + length (filter (λ e, is_error e = true) entries)
    ∧ length (s_voteCalls st') = length (s_voteCalls st) + length entries
    ∧ (requireHighConfidence options = true →
       new = [] ∧ s_subtasks st' = s_subtasks st).
Proof.
  induction order as [|taskId order IH]; intros i st; simpl.
  { exists [], []. rewrite !app_nil_r. repeat split; try done; lia. }
  destruct (find (s_subtasks st) taskId) as [subtask|] eqn:Hfind.
  - destruct (find_id _ _ _ Hfind) as [Hid _].
    destruct (iteration_effect options k i st taskId subtask Hfind)
      as [(r & Hhigh & _ & ->)|(msg & _ & ->)].
    + destruct (IH (S i) (on_result taskId subtask r warning
                                    (called st (votingOptions options k))))
        as (entries & new & Hlog & Hres & Hsub & Hnot & Hids & Hc & He & Hv & _).
      simpl in *.
      eexists (_ :: entries), (_ :: new).
      rewrite Hlog, Hres, <- !app_assoc. split; [done|]. split; [done|].
      split; [by apply sublist_skip|]. split; [by constructor|].
      rewrite filter_cons_True by done. rewrite !fmap_cons, Hids. simpl.
      split; [by rewrite Hid|]. split; [lia|].
      rewrite filter_cons_False by done. split; [done|].
      split; [rewrite length_app in Hv; simpl in *; lia|].
      intros Hhigh'. congruence.
    + unfold on_error. destruct (stopOnError options).
      * simpl. eexists [_], []. rewrite app_nil_r.
        split; [done|]. split; [done|]. split.
        { apply sublist_skip, sublist_nil_l. }
        split; [by repeat constructor|]. split; [done|]. split; [simpl; lia|].
        split; [rewrite filter_cons_True by done; simpl; lia|].
        split; [rewrite length_app; simpl; lia|done].
      * match goal with |- context [run options k (S i) order ?s] =>
          destruct (IH (S i) s)
            as (entries & new & Hlog & Hres & Hsub & Hnot & Hids & Hc & He & Hv & Hhigh)
        end.
        simpl in *. eexists (_ :: entries), new.
        rewrite Hlog, <- !app_assoc. split; [done|]. split; [done|].
        split; [by apply sublist_skip|]. split; [by constructor|].
        rewrite filter_cons_False by done. split; [done|]. split; [done|].
        rewrite filter_cons_True by done. split; [simpl; lia|].
        split; [rewrite length_app in Hv; simpl in *; lia|done].
  - unfold MicroagentExecutor.iteration. rewrite Hfind.
    destruct (IH (S i) st)
      as (entries & new & Hlog & Hres & Hsub & Hnot & Hids & Hc & He & Hv & Hhigh).
    exists entries, new. repeat split; try done; try (by apply Hhigh).
    by apply sublist_cons.
Qed.

(** X23: the books of [executeTask] balance, however the run ends.  The log
    names, in execution order, subtasks of the execution order, one entry
    for each call of [vote]; the results are the subtasks of the entries
    that are no errors, in the same order; [completed] counts the results
    and [errors] the error entries.  No entry ever says success: the flag
    [executeTask] reads is not where [vote] puts it. *)
Theorem executeTask_accounting (plan : Plan) (options : Options) :
  let st := (executeTask plan options).2 in
  sublist (l_taskId <$> s_executionLog st) (executionOrder plan)
  ∧ (λ r, id (r_subtask r)) <$> s_results st
    = l_taskId <$> filter (λ e, is_error e = false) (s_executionLog st)
  ∧ s_completedCount st = length (s_results st)
  ∧ s_errorCount st = length (filter (λ e, is_error e = true) (s_executionLog st))
  ∧ length (s_voteCalls st) = length (s_executionLog st)
  ∧ Forall (λ e, l_status e ≠ success) (s_executionLog st).
Proof.
  unfold MicroagentExecutor.executeTask.
  destruct (run_accounting options (base_k plan options) (executionOrder plan) 0
              (initial plan))
    as (entries & new & Hlog & Hres & Hsub & Hnot & Hids & Hc & He & Hv & _).
  destruct (run _ _ _ _ _) as [st|msg st]; simpl in *;
    rewrite Hlog, Hres; by repeat split.
Qed.

(** X24: asking for high confidence makes every subtask fail.  With
    [requireHighConfidence] set, no subtask is ever applied or completed:
    the results stay empty, the subtasks stay as planned, and every entry
    of the log is an error. *)
Theorem executeTask_requireHighConfidence (plan : Plan) (options : Options) :
  requireHighConfidence options = true →
  let st := (executeTask plan options).2 in
  s_results st = []
  ∧ s_completedCount st = 0
  ∧ s_subtasks st = subtasks plan
  ∧ Forall (λ e, l_status e = error) (s_executionLog st)
  ∧ s_errorCount st = length (s_executionLog st).
Proof.
  intros Hhigh. unfold MicroagentExecutor.executeTask.
  destruct (run_accounting options (base_k plan options) (executionOrder plan) 0
              (initial plan))
    as (entries & new & Hlog & Hres & _ & Hnot & Hids & Hc & He & _ & Hnone).
  destruct (Hnone Hhigh) as [-> Hsub]. rewrite fmap_nil in Hids.
  symmetry in Hids. apply fmap_nil_inv in Hids.
  assert (Forall (λ e, l_status e = error) entries) as Herr.
  {
    apply Forall_forall. intros e He'.
    destruct (l_status e) eqn:Hs; [|exfalso|done].
    - rewrite Forall_forall in Hnot. by destruct (Hnot e He').
    - assert (e ∈ filter (λ e, is_error e = false) entries) as Hin.
      { apply list_elem_of_filter. split; [by rewrite Hs|done]. }
      cbv beta in Hin, Hids. rewrite Hids in Hin. by apply elem_of_nil in Hin. }
  assert (filter (λ e, is_error e = true) entries = entries) as Hall.
  { clear -Herr. induction entries as [|e entries IH]; [done|].
    apply Forall_cons in Herr as [He Herr].
    rewrite filter_cons_True by (by rewrite He). f_equal. by apply IH. }
  rewrite Hall in He.
  destruct (run _ _ _ _ _) as [st|msg st]; simpl in *;
    rewrite Hlog, Hres; by repeat split.
Qed.

Lemma run_stops options k order : ∀ i st,
  match run options k i order st with
  | Continue st' => stopOnError options = true → s_errorCount st' = s_errorCount st
  | Abort msg st' =>
      stopOnError options = true
      ∧ s_errorCount st' = S (s_errorCount st)
      ∧ ∃ entry, last (s_executionLog st') = Some entry
                 ∧ l_status entry = error ∧ l_error entry = Some msg
  end.
Proof.
  induction order as [|taskId order IH]; intros i st; simpl; [done|].
  destruct (find (s_subtasks st) taskId) as [subtask|] eqn:Hfind.
  - destruct (iteration_effect options k i st taskId subtask Hfind)
      as [(r & _ & _ & ->)|(msg & _ & ->)].
    + match goal with |- context [run options k (S i) order ?s] =>
        specialize (IH (S i) s); destruct (run options k (S i) order s) end;
        simpl in *; done.
    + unfold on_error. destruct (stopOnError options) eqn:Hstop.
      * split; [done|]. split; [done|]. eexists. split; [apply last_snoc|done].
      * match goal with |- context [run options k (S i) order ?s] =>
          specialize (IH (S i) s); destruct (run options k (S i) order s) end;
          [done|by destruct IH].
  - unfold MicroagentExecutor.iteration. rewrite Hfind. apply IH.
Qed.

(** X25: [executeTask] throws only under [stopOnError], and then at the first
    error.  Without [stopOnError] it always returns a summary; with it, a
    summary it returns reports no error, and when it throws, exactly one
    error has been counted and the last entry of the log is that error. *)
Theorem executeTask_stopOnError (plan : Plan) (options : Options) :
  let outcome := executeTask plan options in
  match outcome.1 with
  | Return summary =>
      if stopOnError options then errors summary = 0 else True
  | Throw msg =>
      stopOnError options = true
      ∧ s_errorCount outcome.2 = 1
      ∧ ∃ entry, last (s_executionLog outcome.2) = Some entry
                 ∧ l_status entry = error ∧ l_error entry = Some msg
  end.
Proof.
  unfold MicroagentExecutor.executeTask.
  pose proof (run_stops options (base_k plan options) (executionOrder plan) 0
                (initial plan)) as Hrun.
  destruct (run _ _ _ _ _) as [st|msg st]; simpl in *; [|done].
  destruct (stopOnError options); [by apply Hrun|done].
Qed.

Lemma completeSubtask_ids (l : list Subtask) (taskId : Z) :
  id <$> completeSubtask l taskId = id <$> l.
Proof.
  unfold completeSubtask. rewrite <- list_fmap_compose. apply list_fmap_ext.
  intros _ t _. simpl. by case_decide.
Qed.

Lemma completed_ids (completions : list Z) : ∀ l : list Subtask,
  id <$> foldl completeSubtask l completions = id <$> l.
Proof.
  induction completions as [|taskId completions IH]; intros l; [done|].
  simpl. by rewrite IH, completeSubtask_ids.
Qed.

Lemma find_is_Some (l : list Subtask) (taskId : Z) :
  taskId ∈ id <$> l → is_Some (find l taskId).
Proof.
  intros (t & -> & Ht)%list_elem_of_fmap. unfold find.
  destruct (list_find (λ u, id u = id t) l) as [[i u]|] eqn:Hfind; [by eexists|].
  apply list_find_None in Hfind. rewrite Forall_forall in Hfind.
  by destruct (Hfind t Ht).
Qed.

Lemma completed_status (completions : list Z) : ∀ (l : list Subtask) (u : Subtask),
  u ∈ foldl completeSubtask l completions →
  (id u ∈ completions → status u = completed)
  ∧ ∃ t, t ∈ l ∧ id u = id t ∧ (status t = completed → status u = completed).
Proof.
  induction completions as [|taskId completions IH]; intros l u; simpl.
  - intros Hu. split; [by intros ?%elem_of_nil|]. by exists u.
  - intros Hu. destruct (IH _ u Hu) as (Hdone & t' & Ht' & Hid & Hstatus).
    unfold completeSubtask in Ht'.
    apply list_elem_of_fmap in Ht' as (t & -> & Ht).
    split.
    + intros [Heq|Hin]%elem_of_cons; [|by apply Hdone].
      apply Hstatus. rewrite decide_True; [done|].
      rewrite Heq in Hid. by case_decide.
    + exists t. split; [done|]. split; [by case_decide|].
      intros Ht0. apply Hstatus. by case_decide.
Qed.

Lemma run_completes options k :
  requireHighConfidence options = false →
  (∀ i t vo, generateCandidates i t vo ≠ []) →
  ∀ order i st,
    (∀ n, n ∈ order → n ∈ id <$> s_subtasks st) →
    ∃ st' entries new,
      run options k i order st = Continue st'
      ∧ s_subtasks st' = foldl completeSubtask (s_subtasks st) order
      ∧ s_executionLog st' = s_executionLog st ++ entries
      ∧ l_taskId <$> entries = order
      ∧ Forall (λ e, l_status e = warning) entries
      ∧ s_results st' = s_results st ++ new
      ∧ (λ r, id (r_subtask r)) <$> new = order
      ∧ s_errorCount st' = s_errorCount st
      ∧ s_completedCount st' = s_completedCount st + length order.
Proof.
  intros Hhigh Hgen. induction order as [|taskId order IH]; intros i st Hids.
  { exists st, [], []. rewrite !app_nil_r. simpl. repeat split; try done; lia. }
  destruct (find_is_Some (s_subtasks st) taskId) as [subtask Hfind];
    [apply Hids, list_elem_of_here|].
  destruct (find_id _ _ _ Hfind) as [Hid _].
  simpl.
  destruct (iteration_effect options k i st taskId subtask Hfind)
    as [(r & _ & _ & ->)|(msg & [Hbad|Hbad] & _)];
    [|congruence|by destruct (Hgen i subtask (votingOptions options k))].
  destruct (IH (S i) (on_result taskId subtask r warning
                                (called st (votingOptions options k))))
    as (st' & entries & new & -> & Hsub & Hlog & Hentries & Hwarn & Hres & Hnew & He & Hc).
  { intros n Hn. simpl. rewrite completeSubtask_ids.
    apply Hids, elem_of_cons. by right. }
  simpl in *. exists st'. eexists (_ :: entries), (_ :: new).
  rewrite Hlog, Hres, <- !app_assoc. split; [done|]. split; [done|].
  split; [done|]. rewrite !fmap_cons, Hentries, Hnew. simpl.
  split; [done|]. split; [by constructor|]. split; [done|].
  split; [cbn [r_subtask]; by rewrite Hid|]. split; [done|lia].
Qed.

Lemma run_app options k (order1 order2 : list Z) : ∀ i st,
  run options k i (order1 ++ order2) st
  = match run options k i order1 st with
    | Continue st' => run options k (i + length order1) order2 st'
    | Abort msg st' => Abort msg st'
    end.
Proof.
  induction order1 as [|taskId order1 IH]; intros i st; simpl.
  - by rewrite Nat.add_0_r.
  - destruct (iteration options k i st taskId) as [st'|msg st']; [|done].
    rewrite IH. by replace (S i + length order1) with (i + S (length order1)) by lia.
Qed.

Lemma plan_order_ids (decomposed : list Subtask) (plan : Plan) :
  decompose decomposed = Some plan →
  subtasks plan = _validateSubtasks decomposed
  ∧ dependencyGraph plan = _buildDependencyGraph (_validateSubtasks decomposed)
  ∧ _topologicalSort (dependencyGraph plan) = Some (executionOrder plan)
  ∧ NoDup (executionOrder plan)
  ∧ executionOrder plan ≡ₚ id <$> subtasks plan.
Proof.
  unfold decompose. intros Hplan.
  destruct (_topologicalSort _) as [order|] eqn:Hsort; [|done].
  injection Hplan as <-. simpl. split; [done|]. split; [done|]. split; [done|].
  destruct (topologicalSort_returns
              (_buildDependencyGraph (_validateSubtasks decomposed)))
    as (order' & Hsort' & Hnd & Hdom).
  assert (order' = order) as -> by congruence.
  split; [done|]. apply NoDup_Permutation; [done| |].
  - rewrite validateSubtasks_ids. apply NoDup_seqZ.
  - intros n. rewrite Hdom. split.
    + intros [node Hnode]%elem_of_dom.
      apply buildDependencyGraph_lookup in Hnode as (t & Ht & <- & _).
      apply list_elem_of_fmap. by exists t.
    + intros (t & -> & Ht)%list_elem_of_fmap. by apply buildDependencyGraph_dom.
Qed.

(** X26: a plan whose every vote returns is carried out in full.  When
    [requireHighConfidence] is unset and the provider answers at least once
    at every step, [executeTask] returns; every subtask of the plan is
    completed, once, in execution order, each with a warning in the log;
    there is no error, and [getProgress] then reports all subtasks
    completed and no current subtask. *)
Theorem executeTask_completes_plan (decomposed : list Subtask) (plan : Plan)
    (options : Options) :
  decompose decomposed = Some plan →
  requireHighConfidence options = false →
  (∀ i t vo, generateCandidates i t vo ≠ []) →
  ∃ summary,
    (executeTask plan options).1 = Return summary
    ∧ totalSubtasks summary = length decomposed
    ∧ sm_completed summary = length decomposed
    ∧ errors summary = 0
    ∧ l_taskId <$> executionLog summary = executionOrder plan
    ∧ Forall (λ e, l_status e = warning) (executionLog summary)
    ∧ (λ r, id (r_subtask r)) <$> results summary = executionOrder plan
    ∧ Forall (λ t, status t = completed) (s_subtasks (executeTask plan options).2)
    ∧ p_completed (getProgress (s_subtasks (executeTask plan options).2))
      = length decomposed
    ∧ p_currentSubtask (getProgress (s_subtasks (executeTask plan options).2)) = None.
Proof.
  intros Hplan Hhigh Hgen.
  destruct (plan_order_ids decomposed plan Hplan) as (Hsubtasks & _ & _ & Hnd & Hperm).
  unfold MicroagentExecutor.executeTask.
  destruct (run_completes options (base_k plan options) Hhigh Hgen
              (executionOrder plan) 0 (initial plan))
    as (st' & entries & new & -> & Hsub & Hlog & Hentries & Hwarn & Hres & Hnew & He & Hc).
  { intros n Hn. simpl. by rewrite <- Hperm. }
  simpl in *. eexists. split; [done|]. simpl.
  assert (length (s_subtasks st') = length decomposed) as Hlen.
  { rewrite <- (length_fmap id), Hsub, completed_ids, Hsubtasks, length_fmap.
    apply validateSubtasks_length. }
  assert (length (executionOrder plan) = length decomposed) as Hlen'.
  { rewrite Hperm, length_fmap, Hsubtasks. apply validateSubtasks_length. }
  assert (Forall (λ t, status t = completed) (s_subtasks st')) as Hall.
  { apply Forall_forall. intros u Hu. rewrite Hsub in Hu.
    destruct (completed_status _ _ u Hu) as (Hdone & t & Ht & Hid & _).
    apply Hdone. rewrite Hperm, Hid. apply list_elem_of_fmap. by exists t. }
  rewrite Hlog, Hres. split; [done|]. split; [lia|]. split; [done|].
  split; [done|]. split; [done|]. split; [done|]. split; [done|].
  unfold getProgress. simpl. split.
  - rewrite <- Hlen. f_equal. clear -Hall.
    induction (s_subtasks st') as [|t l IH]; [done|].
    apply Forall_cons in Hall as [Ht Hall].
    rewrite filter_cons_True by (unfold has_status; by rewrite Ht).
    f_equal. by apply IH.
  - destruct (list_find _ (s_subtasks st')) as [[i t]|] eqn:Hfind; [|done].
    apply list_find_Some in Hfind as (Hi & Hpending & _).
    rewrite Forall_forall in Hall.
    specialize (Hall t (list_elem_of_lookup_2 _ _ _ Hi)).
    unfold has_status in Hpending. by rewrite Hall in Hpending.
Qed.

(** X27: every subtask sees the results of its dependencies.  In a plan
    without a cycle, when [requireHighConfidence] is unset and the provider
    answers at least once at every step, the iteration for a subtask starts
    in a state whose results hold one entry for each dependency of the
    subtask, and the minimal context built from them lists each of these
    entries. *)
Theorem dependencies_available (decomposed : list Subtask) (plan : Plan)
    (options : Options) (j : nat) (taskId : Z)
    (fileExists : string → Outcome bool) (readFile : string → Outcome string)
    (countTokens : string → nat) (truncateToTokenLimit : string → nat → string)
    (relevantFiles : option (list string)) :
  decompose decomposed = Some plan →
  acyclic (dependencyGraph plan) →
  requireHighConfidence options = false →
  (∀ i t vo, generateCandidates i t vo ≠ []) →
  executionOrder plan !! j = Some taskId →
  ∃ st subtask,
    run options (base_k plan options) 0 (executionOrder plan) (initial plan)
    = run options (base_k plan options) j (drop j (executionOrder plan)) st
    ∧ find (s_subtasks st) taskId = Some subtask
    ∧ Forall (λ d, ∃ r, r ∈ s_results st ∧ id (r_subtask r) = d
                        ∧ ∃ deps,
                            mc_dependencies
                              (_buildMinimalContext fileExists readFile countTokens
                                 truncateToTokenLimit subtask relevantFiles
                                 (s_results st)) = Some deps
                            ∧ (description (r_subtask r), r_result r) ∈ deps)
             (depends subtask).
Proof.
  intros Hplan Hacyclic Hhigh Hgen Hj.
  destruct (plan_order_ids decomposed plan Hplan)
    as (Hsubtasks & Hgraph & Hsort & Hnd & Hperm).
  set (order := executionOrder plan) in *.
  destruct (run_completes options (base_k plan options) Hhigh Hgen
              (take j order) 0 (initial plan))
    as (st & entries & new & Hrun & Hsub & _ & _ & _ & Hres & Hnew & _).
  { intros n (x & Hx & _)%elem_of_take. simpl. rewrite <- Hperm.
    by eapply list_elem_of_lookup_2. }
  simpl in Hres, Hsub.
  destruct (find_is_Some (s_subtasks st) taskId) as [subtask Hfind].
  { rewrite Hsub, completed_ids, <- Hperm. by eapply list_elem_of_lookup_2. }
  exists st, subtask. split; [|split; [done|]].
  - rewrite <- (take_drop j order) at 1. rewrite run_app, Hrun. simpl.
    rewrite length_take_le; [done|]. apply lookup_lt_Some in Hj. lia.
  - destruct (find_id _ _ _ Hfind) as [Hid [a Ha]%list_elem_of_lookup].
    rewrite Hsub in Ha. apply completed_lookup in Ha as (t & Ht & Hidt & Hdeps).
    rewrite Hsubtasks in Ht.
    apply Forall_forall. intros d Hd.
    assert (0 < length (depends subtask)) as Hsome by (destruct (depends subtask);
      [by apply elem_of_nil in Hd|simpl; lia]).
    assert (d ∈ take j order) as Hbefore.
    { assert (t ∈ _validateSubtasks decomposed) as Hin
        by (by eapply list_elem_of_lookup_2).
      rewrite Hdeps in Hd.
      destruct (validateSubtasks_depends_valid decomposed t d Hin Hd)
        as (_ & u & Hu & Hidu).
      assert (taskId ∈ dom (dependencyGraph plan)) as [node Hnode]%elem_of_dom.
      { rewrite Hgraph, <- Hid, Hidt. by apply buildDependencyGraph_dom. }
      assert (dependsOn node = depends t) as Hnodedeps.
      { pose proof Hnode as Hnode'. rewrite Hgraph in Hnode'.
        apply buildDependencyGraph_lookup in Hnode'
          as (t' & [b Hb]%list_elem_of_lookup & Hidt' & ->).
        pose proof (validateSubtasks_lookup _ _ _ Hb) as (_ & _ & Hb' & _).
        pose proof (validateSubtasks_lookup _ _ _ Ht) as (_ & _ & Ha' & _).
        assert (a = b) as -> by lia. congruence. }
      destruct (topologicalSort_respects (dependencyGraph plan) Hacyclic order Hsort
                  taskId d) as (x & y & Hx & Hy & Hxy).
      - by eapply list_elem_of_lookup_2.
      - exists node. split; [done|]. by rewrite Hnodedeps.
      - rewrite Hgraph, <- Hidu. by apply buildDependencyGraph_dom.
      - assert (y = j) as -> by (by eapply NoDup_lookup).
        apply elem_of_take. by exists x. }
    rewrite <- Hnew in Hbefore.
    apply list_elem_of_fmap in Hbefore as (r & -> & Hr).
    exists r. rewrite Hres. split; [done|]. split; [done|].
    unfold _buildMinimalContext. simpl. rewrite decide_True by done.
    eexists. split; [done|].
    apply list_elem_of_fmap. exists r. split; [done|].
    by apply list_elem_of_filter.
Qed.
End executor_runs.

Section executor_runs_samples.
Import ResponseValidator VotingManager TaskDecomposer MicroagentExecutor Samples.

Example chain_plan_decomposed :
  decompose [subtask 4 []; subtask 9 [4%Z]] = Some chain_plan.
Proof. vm_compute. reflexivity. Qed.

Lemma executeTask_requireHighConfidence_witness :
  let st := (executeTask lenient one_token CodeClusterer._jaccardSimilarity agreeing
                         chain_plan demanding_options).2 in
  s_results st = []
  ∧ s_completedCount st = 0
  ∧ s_subtasks st = subtasks chain_plan
  ∧ Forall (λ e, l_status e = error) (s_executionLog st)
  ∧ s_errorCount st = length (s_executionLog st).
Proof.
  apply (executeTask_requireHighConfidence lenient one_token
           CodeClusterer._jaccardSimilarity agreeing chain_plan demanding_options).
  reflexivity.
Defined.

Lemma executeTask_completes_plan_witness :
  ∃ summary,
    (executeTask lenient one_token CodeClusterer._jaccardSimilarity agreeing
                 chain_plan plain_options).1 = Return summary
    ∧ sm_completed summary = 2
    ∧ errors summary = 0.
Proof.
  destruct (executeTask_completes_plan lenient one_token
              CodeClusterer._jaccardSimilarity agreeing
              [subtask 4 []; subtask 9 [4%Z]] chain_plan plain_options)
    as (summary & Hreturn & _ & Hcompleted & Herrors & _).
  - vm_compute. reflexivity.
  - reflexivity.
  - intros i t vo. discriminate.
  - exists summary. split; [exact Hreturn|]. split; [exact Hcompleted|exact Herrors].
Defined.

Lemma dependencies_available_witness :
  ∃ st subtask,
    run lenient one_token CodeClusterer._jaccardSimilarity agreeing plain_options
        (base_k chain_plan plain_options) 0 (executionOrder chain_plan)
        (initial chain_plan)
    = run lenient one_token CodeClusterer._jaccardSimilarity agreeing plain_options
          (base_k chain_plan plain_options) 1 (drop 1 (executionOrder chain_plan)) st
    ∧ find (s_subtasks st) 2 = Some subtask
    ∧ Forall (λ d, ∃ r, r ∈ s_results st ∧ id (r_subtask r) = d
                        ∧ ∃ deps,
                            mc_dependencies
                              (_buildMinimalContext (λ _, Return false)
                                 (λ _, Throw "ENOENT") (λ _, 0) (λ content _, content)
                                 subtask None (s_results st)) = Some deps
                            ∧ (description (r_subtask r), r_result r) ∈ deps)
             (depends subtask).
Proof.
  apply (dependencies_available lenient one_token CodeClusterer._jaccardSimilarity
           agreeing [subtask 4 []; subtask 9 [4%Z]] chain_plan plain_options 1 2).
  - vm_compute. reflexivity.
  - apply (ranked_acyclic Z.to_nat).
    apply (bool_decide_unpack _). vm_compute. exact I.
  - reflexivity.
  - intros i t vo. discriminate.
  - reflexivity.
Defined.

(** The run of the chain: both votes are reliable by their own statistics,
    and both are logged as warnings. *)
Example chain_plan_runs :
  let st := (executeTask lenient one_token CodeClusterer._jaccardSimilarity agreeing
                         chain_plan plain_options).2 in
  l_status <$> s_executionLog st = [warning; warning]
  ∧ status <$> s_subtasks st = [TaskDecomposer.completed; TaskDecomposer.completed]
  ∧ reliable <$> (l_votingStats <$> s_executionLog st) ≫= option_list = [true; true].
Proof. repeat split; vm_compute; reflexivity. Qed.
End executor_runs_samples.

(** ** The best cluster *)

Section best_cluster.
Import CodeClusterer.

(** X28: [getBestCluster] returns nothing exactly for an empty list, and
    otherwise a cluster of the list whose product of size and average
    similarity no other cluster of the list exceeds. *)
Theorem getBestCluster_best (clusters : list (Cluster Q)) :
  match getBestCluster clusters with
  | None => clusters = []
  | Some best =>
      best ∈ clusters
      ∧ Forall (λ c, cluster_score c <= cluster_score best)%Q clusters
  end.
Proof.
  unfold getBestCluster. case_decide as Hlen; [by apply length_zero_iff_nil|].
  destruct (js_sort _ clusters) as [|best rest] eqn:Hsort.
  { apply (f_equal length) in Hsort. rewrite js_sort_length in Hsort. done. }
  simpl.
  apply (js_sort_head _ (λ x y, cluster_score y <= cluster_score x)%Q) in Hsort
    as [Hin Hbest].
  - split; [done|]. apply Forall_forall. intros c Hc.
    destruct (Hbest c Hc) as [->|Hle]; [apply Qle_refl|done].
  - intros x y z Hxy Hyz. by eapply Qle_trans.
  - intros x y Hxy%negb_true_iff. by apply Qle_bool_false.
  - intros x y Hxy%negb_false_iff. by apply Qle_bool_iff.
Qed.
End best_cluster.

(** ** Similarity that is no number *)

Section similarity.
Import CodeClusterer CodeClusterer.Similarity.

Lemma min_over_max_NaN (v1 v2 : nat) : min_over_max v1 v2 = NaN ↔ v1 = 0 ∧ v2 = 0.
Proof. unfold min_over_max. case_decide; split; try done; lia. Qed.

Lemma n_add_NaN (a b : Number) : n_add a b = NaN ↔ a = NaN ∨ b = NaN.
Proof. destruct a, b; simpl; split; try done; auto; by intros [?|?]. Qed.

Lemma n_mul_NaN (a b : Number) : n_mul a b = NaN ↔ a = NaN ∨ b = NaN.
Proof. destruct a, b; simpl; split; try done; auto; by intros [?|?]. Qed.

Lemma n_max_NaN (a b : Number) : n_max a b = NaN ↔ a = NaN ∨ b = NaN.
Proof. destruct a, b; simpl; split; try done; auto; by intros [?|?]. Qed.

Lemma n_divn_NaN (a : Number) (n : nat) : n_divn a n = NaN ↔ a = NaN.
Proof. by destruct a. Qed.

Lemma methods_NaN (c1 : nat) (classes2 : list nat) : ∀ similarity : Number,
  foldl (λ similarity c2, n_max similarity (min_over_max c1 c2)) similarity classes2 = NaN
  ↔ similarity = NaN ∨ (c1 = 0 ∧ 0 ∈ classes2).
Proof.
  induction classes2 as [|c2 classes2 IH]; intros similarity; simpl.
  - split; [by left|]. by intros [?|[_ ?%elem_of_nil]].
  - rewrite IH, n_max_NaN, min_over_max_NaN, elem_of_cons.
    assert (c2 = 0 ↔ 0 = c2) as Hsym by (split; congruence). tauto.
Qed.

Lemma classes_NaN (classes1 classes2 : list nat) : ∀ similarity : Number,
  foldl (λ similarity c1,
           foldl (λ similarity c2, n_max similarity (min_over_max c1 c2))
                 similarity classes2)
        similarity classes1 = NaN
  ↔ similarity = NaN ∨ (0 ∈ classes1 ∧ 0 ∈ classes2).
Proof.
  induction classes1 as [|c1 classes1 IH]; intros similarity; simpl.
  - split; [by left|]. by intros [?|[?%elem_of_nil _]].
  - rewrite IH, methods_NaN, elem_of_cons.
    assert (c1 = 0 ↔ 0 = c1) as Hsym by (split; congruence). tauto.
Qed.

Lemma classSimilarity_NaN (classes1 classes2 : list nat) :
  _classSimilarity classes1 classes2 = NaN ↔ 0 ∈ classes1 ∧ 0 ∈ classes2.
Proof.
  unfold _classSimilarity. case_decide as Hboth.
  { split; [done|]. intros [H1 _]. destruct Hboth as [Hlen _].
    apply length_zero_iff_nil in Hlen. subst. by apply elem_of_nil in H1. }
  case_decide as Hone.
  { split; [done|]. intros [H1 H2].
    destruct Hone as [Hlen|Hlen]; apply length_zero_iff_nil in Hlen; subst;
      [by apply elem_of_nil in H1|by apply elem_of_nil in H2]. }
  rewrite n_divn_NaN, classes_NaN. split; [by intros [?|?]|by right].
Qed.

Lemma structuralSimilarity_number (s1 s2 : Structure) :
  _structuralSimilarity s1 s2 ≠ NaN.
Proof.
  unfold _structuralSimilarity. rewrite n_divn_NaN. simpl.
  repeat case_decide;
    repeat match goal with
    | |- context [min_over_max ?a ?b] =>
        let H := fresh in
        destruct (min_over_max a b) eqn:H;
          [|apply min_over_max_NaN in H; exfalso; tauto]
    end; done.
Qed.

Lemma functionSimilarity_number (funcs1 funcs2 : list FunctionSig) :
  _functionSimilarity funcs1 funcs2 ≠ NaN.
Proof. unfold _functionSimilarity. by repeat case_decide. Qed.

Lemma importSimilarity_number (imports1 imports2 : list string) :
  _importSimilarity imports1 imports2 ≠ NaN.
Proof. unfold _importSimilarity. by repeat case_decide. Qed.

Lemma methodless_NaN (f1 f2 : Features) :
  syntaxValid f1 = true → syntaxValid f2 = true →
  0 ∈ classes f1 → 0 ∈ classes f2 →
  _compareFeaturesEnhanced f1 f2 = NaN.
Proof.
  intros Hv1 Hv2 Hc1 Hc2. unfold _compareFeaturesEnhanced.
  rewrite Hv1, Hv2. cbn [negb andb eqb]. cbv zeta.
  rewrite !n_add_NaN, !n_mul_NaN, classSimilarity_NaN.
  left. right. by right.
Qed.

(** X29: the similarity of two feature records is NaN exactly when both
    parse and each declares a class without methods (the method counts are
    compared as 0 / 0); in every other case it is a number. *)
Theorem compareFeaturesEnhanced_NaN (f1 f2 : Features) :
  _compareFeaturesEnhanced f1 f2 = NaN
  ↔ syntaxValid f1 = true ∧ syntaxValid f2 = true
    ∧ 0 ∈ classes f1 ∧ 0 ∈ classes f2.
Proof.
  split; [|intros (? & ? & ? & ?); by apply methodless_NaN].
  unfold _compareFeaturesEnhanced.
  destruct (syntaxValid f1), (syntaxValid f2); cbn [negb andb eqb];
    try (by simpl).
  cbv zeta. rewrite !n_add_NaN, !n_mul_NaN, classSimilarity_NaN.
  pose proof (structuralSimilarity_number (structure f1) (structure f2)).
  pose proof (functionSimilarity_number (functions f1) (functions f2)).
  pose proof (importSimilarity_number (imports f1) (imports f2)).
  intros [[[[[?|[?|?]]|[?|?]]|[?|?]]|[?|?]]|[?|?]]; done.
Qed.

Lemma NaN_not_clustered {F : Type} (extractFeatures : string → F)
    (compare : F → F → Number) (a b : string) (threshold : Number) :
  compare (extractFeatures a) (extractFeatures b) = NaN →
  (λ c, (representative c, index <$> members c, size c))
    <$> cluster extractFeatures compare [a; b] threshold
  = [(a, [0], 1); (b, [1], 1)].
Proof.
  intros Hnan. unfold cluster.
  assert (_buildSimilarityMatrix compare
            (imap (λ index code, {| e_index := index; e_code := code;
                                    e_features := extractFeatures code |}) [a; b])
          = [[Num 1; NaN]; [NaN; Num 1]]) as ->.
  { unfold _buildSimilarityMatrix. cbv [imap compose e_features].
    rewrite Hnan. reflexivity. }
  vm_compute. reflexivity.
Qed.

(** X30: two responses that each declare a class without methods are never
    clustered together, whatever the threshold and even when they are the
    same text, although [calculateSimilarity] gives 1 for equal texts: each
    of the two gets a cluster of its own. *)
Theorem methodless_classes_not_clustered (extractFeatures : string → Features)
    (a b : string) (threshold : Number) :
  syntaxValid (extractFeatures a) = true → syntaxValid (extractFeatures b) = true →
  0 ∈ classes (extractFeatures a) → 0 ∈ classes (extractFeatures b) →
  (λ c, (representative c, index <$> members c, size c))
    <$> cluster extractFeatures _compareFeaturesEnhanced [a; b] threshold
  = [(a, [0], 1); (b, [1], 1)]
  ∧ calculateSimilarity extractFeatures a a = Num 1.
Proof.
  intros Ha Hb Hca Hcb. split.
  - apply NaN_not_clustered. by apply methodless_NaN.
  - unfold calculateSimilarity. by rewrite decide_True.
Qed.
End similarity.

Section similarity_samples.
Import CodeClusterer CodeClusterer.Similarity Samples.

Lemma methodless_classes_not_clustered_witness :
  (λ c, (representative c, index <$> members c, size c))
    <$> cluster empty_class _compareFeaturesEnhanced
          ["class A {}"; "class A {}"]%string (Num 0.7)
  = [("class A {}"%string, [0], 1); ("class A {}"%string, [1], 1)]
  ∧ calculateSimilarity empty_class "class A {}" "class A {}" = Num 1.
Proof.
  apply (methodless_classes_not_clustered empty_class "class A {}" "class A {}"
           (Num 0.7)).
  - reflexivity.
  - reflexivity.
  - apply list_elem_of_here.
  - apply list_elem_of_here.
Defined.

(** Sub-scores of records that parse, in lowest terms: equal counts give
    1, one matching signature of two a half, classes with 2 and 4 methods a
    half, classes without methods no number. *)
Example similarity_samples :
  (λ n, match n with Num q => Some (Qred q) | NaN => None end)
    <$> [ _structuralSimilarity
            {| functionCount := 2; classCount := 0; importCount := 1;
               exportCount := 0; variableCount := 3 |}
            {| functionCount := 2; classCount := 0; importCount := 1;
               exportCount := 0; variableCount := 3 |};
          _functionSimilarity [ {| params := 1; async := false |} ]
                              [ {| params := 2; async := false |};
                                {| params := 1; async := false |} ];
          _classSimilarity [2] [4];
          _classSimilarity [0] [0] ]
  = [Some 1%Q; Some (1 # 2)%Q; Some (1 # 2)%Q; None].
Proof. vm_compute. reflexivity. Qed.
End similarity_samples.
